(** * Project-Mcap: the motion-capture export pipeline

    A shallow embedding of the TypeScript sources

      - [types.ts]                 ([Landmark3D], [MocapFrame], [MP_POSE]),
      - [services/smoothing.ts]    ([smoothFrames]),
      - [services/bvhExporter.ts]  ([generateBVH]),
      - [services/fbxExporter.ts]  ([generateFBX]),
      - [components/MotionProcessor.tsx] (the seek and detect loop of
        [startProcessing], the playback timer),
      - [components/ThreeVisualizer.tsx] (the update of the skeleton),

    the statements of the specification checked against them, and
    further properties of the code.

    JavaScript numbers are kept abstract behind the interface [JSNumber]:
    the code is written once and read at the rationals [Q] (exact, and it
    computes), at the reals [R] (exact, with square roots) and at the
    binary64 floats of the kernel (what a JavaScript engine computes).
    Numbers are written by [toFixed], which works on the value of a
    number ([JSFormat]), at the rationals and at binary64. *)

From Stdlib Require Import Ascii String.
From Stdlib Require Import ZArith QArith Qabs Qround Reals Lqa Lra RNsatz Lia Bool List.
From Stdlib Require PrimFloat Uint63 FloatOps SpecFloat DecimalString.
From Stdlib Require Import Sorted.
Import ListNotations.

Close Scope R_scope.
Close Scope Q_scope.

Set Implicit Arguments.

(* ================================================================= *)
(** ** JavaScript numbers *)

(** The arithmetic the sources use on [number]. *)
Class JSNumber (num : Type) : Type := {
  of_Z : Z -> num;
  nadd : num -> num -> num;
  nsub : num -> num -> num;
  nmul : num -> num -> num;
  ndiv : num -> num -> num;
  nneg : num -> num
}.

(** What three.js needs besides: [Math.sqrt], [Math.abs], [<], [===] and
    the truth value of a number ([x || 1] takes [1] when [x] is [0] or
    [NaN]). *)
Class JSMath (num : Type) : Type := {
  nsqrt : num -> num;
  nabs : num -> num;
  nltb : num -> num -> bool;
  neqb : num -> num -> bool;
  nfalsy : num -> bool
}.

Declare Scope js_scope.
Delimit Scope js_scope with js.
Infix "+" := nadd : js_scope.
Infix "-" := nsub : js_scope.
Infix "*" := nmul : js_scope.
Infix "/" := ndiv : js_scope.
Notation "- x" := (nneg x) : js_scope.

(** A decimal literal [n/d], such as [0.5] or [0.3]. *)
Definition dec {num} `{JSNumber num} (n d : Z) : num := (of_Z n / of_Z d)%js.

#[export] Instance Q_JSNumber : JSNumber Q := {
  of_Z := inject_Z;
  nadd := Qplus;
  nsub := Qminus;
  nmul := Qmult;
  ndiv := Qdiv;
  nneg := Qopp
}.

Definition Rltb (a b : R) : bool := if Rlt_dec a b then true else false.
Definition Reqb (a b : R) : bool := if Req_dec_T a b then true else false.

#[export] Instance R_JSNumber : JSNumber R := {
  of_Z := IZR;
  nadd := Rplus;
  nsub := Rminus;
  nmul := Rmult;
  ndiv := Rdiv;
  nneg := Ropp
}.

#[export] Instance R_JSMath : JSMath R := {
  nsqrt := sqrt;
  nabs := Rabs;
  nltb := Rltb;
  neqb := Reqb;
  nfalsy := fun a => Reqb a 0%R
}.

(** Binary64: every operation is the correctly rounded one, as in
    ECMAScript.  A number is falsy when it is [+0], [-0] or [NaN]. *)
Definition float_of_Z (z : Z) : PrimFloat.float :=
  match z with
  | Z0 => PrimFloat.zero
  | Zpos p => PrimFloat.of_uint63 (Uint63.of_Z (Zpos p))
  | Zneg p => PrimFloat.opp (PrimFloat.of_uint63 (Uint63.of_Z (Zpos p)))
  end.

#[export] Instance float_JSNumber : JSNumber PrimFloat.float := {
  of_Z := float_of_Z;
  nadd := PrimFloat.add;
  nsub := PrimFloat.sub;
  nmul := PrimFloat.mul;
  ndiv := PrimFloat.div;
  nneg := PrimFloat.opp
}.

#[export] Instance float_JSMath : JSMath PrimFloat.float := {
  nsqrt := PrimFloat.sqrt;
  nabs := PrimFloat.abs;
  nltb := PrimFloat.ltb;
  neqb := PrimFloat.eqb;
  nfalsy := fun a => negb (PrimFloat.ltb a PrimFloat.zero || PrimFloat.ltb PrimFloat.zero a)
}.

(* ================================================================= *)
(** ** types.ts *)

(** [interface Landmark3D { x; y; z; visibility? }]. *)
Record Landmark3D (num : Type) : Type := mkLandmark {
  lx : num;
  ly : num;
  lz : num;
  visibility : option num
}.

(** [interface MocapFrame { timestamp; landmarks }]. *)
Record MocapFrame (num : Type) : Type := mkFrame {
  timestamp : num;
  landmarks : list (Landmark3D num)
}.

(** [MP_POSE]: the MediaPipe landmark indices. *)
Module MP_POSE.
Definition NOSE : Z := 0.
Definition LEFT_SHOULDER : Z := 11.
Definition RIGHT_SHOULDER : Z := 12.
Definition LEFT_ELBOW : Z := 13.
Definition RIGHT_ELBOW : Z := 14.
Definition LEFT_WRIST : Z := 15.
Definition RIGHT_WRIST : Z := 16.
Definition LEFT_HIP : Z := 23.
Definition RIGHT_HIP : Z := 24.
Definition LEFT_KNEE : Z := 25.
Definition RIGHT_KNEE : Z := 26.
Definition LEFT_ANKLE : Z := 27.
Definition RIGHT_ANKLE : Z := 28.
Definition LEFT_HEEL : Z := 29.
Definition RIGHT_HEEL : Z := 30.
Definition LEFT_FOOT_INDEX : Z := 31.
Definition RIGHT_FOOT_INDEX : Z := 32.
End MP_POSE.

(** [lm[idx]]: [undefined] (here [None]) outside [0 .. lm.length - 1]. *)
Definition js_index {A} (l : list A) (idx : Z) : option A :=
  if (idx <? 0)%Z then None else nth_error l (Z.to_nat idx).

(* ================================================================= *)
(** ** The JavaScript store

    Objects live in a store and are passed by reference.  A location is
    the position of the object in the store; allocation appends, so a
    call never moves or overwrites what existed before it.  A computation
    takes the store and either throws (a [TypeError], here [None]) or
    returns a value with the new store.  An array that the code creates
    empty and fills by [push] before anything else can reach it is
    allocated once it is filled. *)

Section Store.
Variable num : Type.

Definition loc : Type := nat.

Inductive obj : Type :=
| OLandmark (l : Landmark3D num)
| OArray (elems : list loc)
| OFrame (ts : num) (lms : loc).

Definition heap : Type := list obj.

Definition M (A : Type) : Type := heap -> option (A * heap).

Definition ret {A} (a : A) : M A := fun h => Some (a, h).

Definition bind {A B} (c : M A) (k : A -> M B) : M B :=
  fun h => match c h with
           | Some (a, h') => k a h'
           | None => None
           end.

(** Reading a property of [undefined]. *)
Definition throwTypeError {A} : M A := fun _ => None.

Definition alloc (o : obj) : M loc := fun h => Some (length h, h ++ [o]).

Definition lookupLandmark (h : heap) (l : loc) : option (Landmark3D num) :=
  match nth_error h l with Some (OLandmark v) => Some v | _ => None end.

Definition lookupArray (h : heap) (l : loc) : option (list loc) :=
  match nth_error h l with Some (OArray v) => Some v | _ => None end.

Definition lookupFrame (h : heap) (l : loc) : option (num * loc) :=
  match nth_error h l with Some (OFrame ts a) => Some (ts, a) | _ => None end.

Definition liftRead {A} (rd : heap -> loc -> option A) (l : loc) : M A :=
  fun h => match rd h l with Some v => Some (v, h) | None => None end.

Definition readLandmark : loc -> M (Landmark3D num) := liftRead lookupLandmark.
Definition readArray : loc -> M (list loc) := liftRead lookupArray.
Definition readFrame : loc -> M (num * loc) := liftRead lookupFrame.
End Store.

Arguments throwTypeError {num A}.
Arguments OLandmark {num} l.
Arguments OArray {num} elems.
Arguments OFrame {num} ts lms.
Arguments ret {num A} a.

Notation "x <- c ;; k" := (bind c (fun x => k))
  (at level 61, c at next level, right associativity).
Notation "' pat <- c ;; k" := (bind c (fun x => match x with pat => k end))
  (at level 61, pat pattern, c at next level, right associativity).

(** [Array.prototype.map] with a callback that runs in the store. *)
Fixpoint mapM {num A B} (f : A -> M num B) (l : list A) : M num (list B) :=
  match l with
  | [] => ret []
  | a :: l' => b <- f a ;; r <- mapM f l' ;; ret (b :: r)
  end.

(** The same on options, for reading values out of a store. *)
Fixpoint traverse {A B} (f : A -> option B) (l : list A) : option (list B) :=
  match l with
  | [] => Some []
  | a :: l' =>
    match f a with
    | Some b => match traverse f l' with Some r => Some (b :: r) | None => None end
    | None => None
    end
  end.

(** The value of an array of landmarks, of a frame, of an array of frames. *)
Definition deep_landmarks {num} (h : heap num) (ls : list loc)
  : option (list (Landmark3D num)) :=
  traverse (lookupLandmark h) ls.

Definition deep_frame {num} (h : heap num) (l : loc) : option (MocapFrame num) :=
  match lookupFrame h l with
  | Some (ts, a) =>
    match lookupArray h a with
    | Some ls =>
      match deep_landmarks h ls with
      | Some vs => Some (mkFrame ts vs)
      | None => None
      end
    | None => None
    end
  | None => None
  end.

Definition deep_frames {num} (h : heap num) (l : loc) : option (list (MocapFrame num)) :=
  match lookupArray h l with
  | Some fs => traverse (deep_frame h) fs
  | None => None
  end.

(** [h2] holds the objects of [h] at every location from [n] on: [h2]
    is [h] after any mutation of the objects below [n]. *)
Definition agree {num} (n : nat) (h h2 : heap num) : Prop :=
  forall l, n <= l -> l < length h -> nth_error h2 l = nth_error h l.

(** Reading [v] out of [h] looks at no location below [n]: every store
    that agrees with [h] from [n] on gives the same value. *)
Definition fresh_read {num A} (rd : heap num -> option A) (n : nat)
           (h : heap num) (v : A) : Prop :=
  forall h2, agree n h h2 -> rd h2 = Some v.

(* ================================================================= *)
(** ** services/smoothing.ts *)

Section Smoothing.
Context {num : Type} `{JSNumber num}.

(** The body of the inner loop:
    [{ x: alpha * curr.x + (1 - alpha) * prev.x, ..., visibility: curr.visibility }]. *)
Definition smoothLandmark (alpha : num) (curr prev : Landmark3D num) : Landmark3D num :=
  mkLandmark
    (alpha * lx curr + (of_Z 1 - alpha) * lx prev)%js
    (alpha * ly curr + (of_Z 1 - alpha) * ly prev)%js
    (alpha * lz curr + (of_Z 1 - alpha) * lz prev)%js
    (visibility curr).

(** [l => ({ ...l })]: a new object with the fields of [l]. *)
Definition copyLandmark (l : loc) : M num loc :=
  v <- readLandmark l ;; alloc (OLandmark v).

(** [for (j = 0; j < currentFrame.landmarks.length; j++)]: [currs] are
    the landmarks from index [j] on, [prevs] is [previousLandmarks] from
    [j] on.  When [previousLandmarks[j]] is [undefined], [prev.x]
    throws. *)
Fixpoint smoothInner (alpha : num) (currs prevs : list loc) : M num (list loc) :=
  match currs with
  | [] => ret []
  | c :: cs =>
    match prevs with
    | [] => throwTypeError
    | p :: ps =>
      curr <- readLandmark c ;;
      prev <- readLandmark p ;;
      o <- alloc (OLandmark (smoothLandmark alpha curr prev)) ;;
      r <- smoothInner alpha cs ps ;;
      ret (o :: r)
    end
  end.

(** [for (i = 1; i < frames.length; i++)]: [rest] are the frames from
    index [i] on.  The call never writes to its input, so the elements
    of [frames] are read once.  [smoothedLandmarks] is a new array and
    the pushed frame a new object. *)
Fixpoint smoothOuter (alpha : num) (rest : list loc) (previousLandmarks : loc)
  : M num (list loc) :=
  match rest with
  | [] => ret []
  | f :: fs =>
    '(ts, lms) <- readFrame f ;;
    currs <- readArray lms ;;
    prevs <- readArray previousLandmarks ;;
    sm <- smoothInner alpha currs prevs ;;
    smoothedLandmarks <- alloc (OArray sm) ;;
    o <- alloc (OFrame ts smoothedLandmarks) ;;
    r <- smoothOuter alpha fs smoothedLandmarks ;;
    ret (o :: r)
  end.

(** [smoothFrames(frames, alpha)]: the result is the location of the
    new array [smoothedFrames]. *)
Definition smoothFrames (frames : loc) (alpha : num) : M num loc :=
  fs <- readArray frames ;;
  match fs with
  | [] => alloc (OArray [])
  | f0 :: rest =>
    '(ts0, lms0) <- readFrame f0 ;;
    ls <- readArray lms0 ;;
    copies <- mapM copyLandmark ls ;;
    previousLandmarks <- alloc (OArray copies) ;;
    o0 <- alloc (OFrame ts0 previousLandmarks) ;;
    r <- smoothOuter alpha rest previousLandmarks ;;
    alloc (OArray (o0 :: r))
  end.

(** *** The same computation on values *)

Fixpoint smoothLandmarks (alpha : num) (currs prevs : list (Landmark3D num))
  : option (list (Landmark3D num)) :=
  match currs with
  | [] => Some []
  | c :: cs =>
    match prevs with
    | [] => None
    | p :: ps =>
      match smoothLandmarks alpha cs ps with
      | Some r => Some (smoothLandmark alpha c p :: r)
      | None => None
      end
    end
  end.

Fixpoint smoothLoop (alpha : num) (rest : list (MocapFrame num))
         (previousLandmarks : list (Landmark3D num)) : option (list (MocapFrame num)) :=
  match rest with
  | [] => Some []
  | f :: fs =>
    match smoothLandmarks alpha (landmarks f) previousLandmarks with
    | Some sm =>
      match smoothLoop alpha fs sm with
      | Some r => Some (mkFrame (timestamp f) sm :: r)
      | None => None
      end
    | None => None
    end
  end.

Definition smoothValues (frames : list (MocapFrame num)) (alpha : num)
  : option (list (MocapFrame num)) :=
  match frames with
  | [] => Some []
  | f0 :: rest =>
    match smoothLoop alpha rest (landmarks f0) with
    | Some r => Some (mkFrame (timestamp f0) (landmarks f0) :: r)
    | None => None
    end
  end.
End Smoothing.

(* ================================================================= *)
(** ** Exceptions *)

(** What a call can throw: [new Error(msg)], or the [TypeError] of a
    property read on [undefined]. *)
Inductive exn : Type :=
| Error (msg : string)
| TypeError.

Inductive completion (A : Type) : Type :=
| Normal (a : A)
| Throws (e : exn).

Arguments Normal {A} a.
Arguments Throws {A} e.

Definition cbind {A B} (c : completion A) (k : A -> completion B) : completion B :=
  match c with
  | Normal a => k a
  | Throws e => Throws e
  end.

Notation "x <~ c ;; k" := (cbind c (fun x => k))
  (at level 61, c at next level, right associativity).

(** [forEach] / [map] with a callback that may throw. *)
Fixpoint mapC {A B} (f : A -> completion B) (l : list A) : completion (list B) :=
  match l with
  | [] => Normal []
  | a :: l' => b <~ f a ;; r <~ mapC f l' ;; Normal (b :: r)
  end.

Fixpoint foldC {A S} (f : S -> A -> completion S) (l : list A) (s : S) : completion S :=
  match l with
  | [] => Normal s
  | a :: l' => s' <~ f s a ;; foldC f l' s'
  end.

(** [obj[key]] on an object used as a dictionary; [None] is [undefined]. *)
Fixpoint lookup {A} (d : list (string * A)) (key : string) : option A :=
  match d with
  | [] => None
  | (k, v) :: d' => if String.eqb k key then Some v else lookup d' key
  end.

(** A property read on the result: [undefined.x] throws. *)
Definition deref {A} (o : option A) : completion A :=
  match o with
  | Some a => Normal a
  | None => Throws TypeError
  end.

(* ================================================================= *)
(** ** three.js: [Vector3] and [Quaternion]

    The methods the exporter calls, as the library defines them. *)

Record Vector3 (num : Type) : Type := mkVec { vx : num; vy : num; vz : num }.
Record Quaternion (num : Type) : Type := mkQuat { qx : num; qy : num; qz : num; qw : num }.

Section Three.
Context {num : Type} `{JSNumber num} `{JSMath num}.

(** [Number.EPSILON] is 2^-52. *)
Definition EPSILON : num := (of_Z 1 / of_Z 4503599627370496)%js.

Definition addVectors (a b : Vector3 num) : Vector3 num :=
  mkVec (vx a + vx b)%js (vy a + vy b)%js (vz a + vz b)%js.

Definition subVectors (a b : Vector3 num) : Vector3 num :=
  mkVec (vx a - vx b)%js (vy a - vy b)%js (vz a - vz b)%js.

Definition multiplyScalar (v : Vector3 num) (s : num) : Vector3 num :=
  mkVec (vx v * s)%js (vy v * s)%js (vz v * s)%js.

(** [this.x = v1.x + (v2.x - v1.x) * alpha], and so on. *)
Definition lerpVectors (v1 v2 : Vector3 num) (alpha : num) : Vector3 num :=
  mkVec (vx v1 + (vx v2 - vx v1) * alpha)%js
        (vy v1 + (vy v2 - vy v1) * alpha)%js
        (vz v1 + (vz v2 - vz v1) * alpha)%js.

Definition dot (a b : Vector3 num) : num :=
  (vx a * vx b + vy a * vy b + vz a * vz b)%js.

Definition vlength (v : Vector3 num) : num :=
  nsqrt (vx v * vx v + vy v * vy v + vz v * vz v)%js.

Definition divideScalar (v : Vector3 num) (s : num) : Vector3 num :=
  multiplyScalar v (of_Z 1 / s)%js.

(** [this.divideScalar(this.length() || 1)]. *)
Definition normalize (v : Vector3 num) : Vector3 num :=
  let l := vlength v in
  divideScalar v (if nfalsy l then of_Z 1 else l).

Definition identity : Quaternion num := mkQuat (of_Z 0) (of_Z 0) (of_Z 0) (of_Z 1).

Definition qlength (q : Quaternion num) : num :=
  nsqrt (qx q * qx q + qy q * qy q + qz q * qz q + qw q * qw q)%js.

(** [Quaternion.normalize]: the identity when the length is [0]. *)
Definition qnormalize (q : Quaternion num) : Quaternion num :=
  let l := qlength q in
  if neqb l (of_Z 0) then identity
  else
    let l' := (of_Z 1 / l)%js in
    mkQuat (qx q * l')%js (qy q * l')%js (qz q * l')%js (qw q * l')%js.

(** [Quaternion.setFromUnitVectors(vFrom, vTo)]: both are taken to be
    unit vectors.  When they are opposite ([r < Number.EPSILON]) an axis
    orthogonal to [vFrom] is chosen and [w] is [0]. *)
Definition setFromUnitVectors (vFrom vTo : Vector3 num) : Quaternion num :=
  let r := (dot vFrom vTo + of_Z 1)%js in
  if nltb r EPSILON then
    if nltb (nabs (vz vFrom)) (nabs (vx vFrom)) then
      qnormalize (mkQuat (- vy vFrom)%js (vx vFrom) (of_Z 0) (of_Z 0))
    else
      qnormalize (mkQuat (of_Z 0) (- vz vFrom)%js (vy vFrom) (of_Z 0))
  else
    qnormalize
      (mkQuat (vy vFrom * vz vTo - vz vFrom * vy vTo)%js
              (vz vFrom * vx vTo - vx vFrom * vz vTo)%js
              (vx vFrom * vy vTo - vy vFrom * vx vTo)%js
              r).

(** [Quaternion.conjugate]: [x *= -1; y *= -1; z *= -1]. *)
Definition conjugate (q : Quaternion num) : Quaternion num :=
  mkQuat (qx q * of_Z (-1))%js (qy q * of_Z (-1))%js (qz q * of_Z (-1))%js (qw q).

(** [Quaternion.invert]: the quaternion is taken to have unit length. *)
Definition invert (q : Quaternion num) : Quaternion num := conjugate q.

Definition multiplyQuaternions (a b : Quaternion num) : Quaternion num :=
  mkQuat
    (qx a * qw b + qw a * qx b + qy a * qz b - qz a * qy b)%js
    (qy a * qw b + qw a * qy b + qz a * qx b - qx a * qz b)%js
    (qz a * qw b + qw a * qz b + qx a * qy b - qy a * qx b)%js
    (qw a * qw b - qx a * qx b - qy a * qy b - qz a * qz b)%js.

(** [this.premultiply(q)] sets [this] to [q * this]. *)
Definition premultiply (this q : Quaternion num) : Quaternion num :=
  multiplyQuaternions q this.

End Three.

(* ================================================================= *)
(** ** services/fbxExporter.ts *)

Module FBX.

Record BoneSpec : Type := mkBone {
  name : string;
  parent : option string;
  ref : string
}.

(** [boneMap]: the Mixamo bone names, parents first. *)
Definition boneMap : list BoneSpec := [
  mkBone "mixamorig:Hips" None "Hips";
  mkBone "mixamorig:Spine" (Some "mixamorig:Hips") "Spine";
  mkBone "mixamorig:Spine1" (Some "mixamorig:Spine") "Spine1";
  mkBone "mixamorig:Spine2" (Some "mixamorig:Spine1") "Spine2";
  mkBone "mixamorig:Neck" (Some "mixamorig:Spine2") "Neck";
  mkBone "mixamorig:Head" (Some "mixamorig:Neck") "Head";
  mkBone "mixamorig:LeftShoulder" (Some "mixamorig:Spine2") "LeftShoulder";
  mkBone "mixamorig:LeftArm" (Some "mixamorig:LeftShoulder") "LeftArm";
  mkBone "mixamorig:LeftForeArm" (Some "mixamorig:LeftArm") "LeftForeArm";
  mkBone "mixamorig:LeftHand" (Some "mixamorig:LeftForeArm") "LeftHand";
  mkBone "mixamorig:RightShoulder" (Some "mixamorig:Spine2") "RightShoulder";
  mkBone "mixamorig:RightArm" (Some "mixamorig:RightShoulder") "RightArm";
  mkBone "mixamorig:RightForeArm" (Some "mixamorig:RightArm") "RightForeArm";
  mkBone "mixamorig:RightHand" (Some "mixamorig:RightForeArm") "RightHand";
  mkBone "mixamorig:LeftUpLeg" (Some "mixamorig:Hips") "LeftUpLeg";
  mkBone "mixamorig:LeftLeg" (Some "mixamorig:LeftUpLeg") "LeftLeg";
  mkBone "mixamorig:LeftFoot" (Some "mixamorig:LeftLeg") "LeftFoot";
  mkBone "mixamorig:RightUpLeg" (Some "mixamorig:Hips") "RightUpLeg";
  mkBone "mixamorig:RightLeg" (Some "mixamorig:RightUpLeg") "RightLeg";
  mkBone "mixamorig:RightFoot" (Some "mixamorig:RightLeg") "RightFoot"
]%string.

Definition boneNames : list string := map name boneMap.

(** [child.parent === boneName]. *)
Definition hasParent (boneName : string) (child : BoneSpec) : bool :=
  match parent child with
  | Some p => String.eqb p boneName
  | None => false
  end.

(** [boneMap.find(child => child.parent === boneName)]: the primary child. *)
Definition primaryChild (boneName : string) : option BoneSpec :=
  find (hasParent boneName) boneMap.

(** The joint graph handed to the exporter: every bone with the node it
    was added to ([None] is the scene). *)
Definition Scene : Type := list (string * option string).

(** [bones[b.parent].add(bone)], or [scene.add(bone)] for the root. *)
Definition addBone (scene : Scene) (b : BoneSpec) : completion Scene :=
  match parent b with
  | Some p =>
    if existsb (fun e => String.eqb (fst e) p) scene
    then Normal (scene ++ [(name b, Some p)])
    else Throws TypeError
  | None => Normal (scene ++ [(name b, None)])
  end.

Definition buildScene : completion Scene := foldC addBone boneMap [].

Inductive TrackKind : Type := QuaternionKeyframeTrack | VectorKeyframeTrack.

Record KeyframeTrack (num : Type) : Type := mkTrack {
  kind : TrackKind;
  trackName : string;
  times : list num;
  values : list num
}.

Record AnimationClip (num : Type) : Type := mkClip {
  clipName : string;
  duration : num;
  tracks : list (KeyframeTrack num)
}.

(** An entry of [tracksData]: [{ pos: number[], rot: number[] }]. *)
Record TrackData (num : Type) : Type := mkTrackData {
  pos : list num;
  rot : list num
}.

Section Exporter.
Context {num : Type} `{JSNumber num} `{JSMath num}.

(** [tPoseDirections]: the rest direction from a bone to its child. *)
Definition tPoseDirections : list (string * Vector3 num) := [
  ("mixamorig:Spine", mkVec (of_Z 0) (of_Z 1) (of_Z 0));
  ("mixamorig:Spine1", mkVec (of_Z 0) (of_Z 1) (of_Z 0));
  ("mixamorig:Spine2", mkVec (of_Z 0) (of_Z 1) (of_Z 0));
  ("mixamorig:Neck", mkVec (of_Z 0) (of_Z 1) (of_Z 0));
  ("mixamorig:Head", mkVec (of_Z 0) (of_Z 1) (of_Z 0));
  ("mixamorig:LeftShoulder", normalize (mkVec (of_Z 1) (of_Z 1) (of_Z 0)));
  ("mixamorig:LeftArm", mkVec (of_Z 1) (of_Z 0) (of_Z 0));
  ("mixamorig:LeftForeArm", mkVec (of_Z 1) (of_Z 0) (of_Z 0));
  ("mixamorig:LeftHand", mkVec (of_Z 1) (of_Z 0) (of_Z 0));
  ("mixamorig:RightShoulder", normalize (mkVec (of_Z (-1)) (of_Z 1) (of_Z 0)));
  ("mixamorig:RightArm", mkVec (of_Z (-1)) (of_Z 0) (of_Z 0));
  ("mixamorig:RightForeArm", mkVec (of_Z (-1)) (of_Z 0) (of_Z 0));
  ("mixamorig:RightHand", mkVec (of_Z (-1)) (of_Z 0) (of_Z 0));
  ("mixamorig:LeftUpLeg", normalize (mkVec (of_Z 1) (of_Z (-1)) (of_Z 0)));
  ("mixamorig:LeftLeg", mkVec (of_Z 0) (of_Z (-1)) (of_Z 0));
  ("mixamorig:LeftFoot", mkVec (of_Z 0) (of_Z 0) (of_Z 1));
  ("mixamorig:RightUpLeg", normalize (mkVec (of_Z (-1)) (of_Z (-1)) (of_Z 0)));
  ("mixamorig:RightLeg", mkVec (of_Z 0) (of_Z (-1)) (of_Z 0));
  ("mixamorig:RightFoot", mkVec (of_Z 0) (of_Z 0) (of_Z 1))
]%string.

Definition scale : num := of_Z 100.

(** [getVec(idx)]: there is no range check, so [lm[idx].x] throws when
    the landmark is missing. *)
Definition getVec (lm : list (Landmark3D num)) (idx : Z) : completion (Vector3 num) :=
  l <~ deref (js_index lm idx) ;;
  Normal (mkVec (- lx l * scale)%js (- ly l * scale)%js (lz l * scale)%js).

(** The virtual joints and the table [positions] of one frame. *)
Definition positions (lm : list (Landmark3D num))
  : completion (list (string * Vector3 num)) :=
  lShoulder <~ getVec lm MP_POSE.LEFT_SHOULDER ;;
  rShoulder <~ getVec lm MP_POSE.RIGHT_SHOULDER ;;
  lHip <~ getVec lm MP_POSE.LEFT_HIP ;;
  rHip <~ getVec lm MP_POSE.RIGHT_HIP ;;
  let hipsPos := multiplyScalar (addVectors lHip rHip) (dec 1 2) in
  let neckPos := multiplyScalar (addVectors lShoulder rShoulder) (dec 1 2) in
  let spinePos := lerpVectors hipsPos neckPos (dec 3 10) in
  let spine1Pos := lerpVectors hipsPos neckPos (dec 6 10) in
  let spine2Pos := lerpVectors hipsPos neckPos (dec 9 10) in
  headPos <~ getVec lm MP_POSE.NOSE ;;
  lElbow <~ getVec lm MP_POSE.LEFT_ELBOW ;;
  lWrist <~ getVec lm MP_POSE.LEFT_WRIST ;;
  lWrist' <~ getVec lm MP_POSE.LEFT_WRIST ;;
  rElbow <~ getVec lm MP_POSE.RIGHT_ELBOW ;;
  rWrist <~ getVec lm MP_POSE.RIGHT_WRIST ;;
  rWrist' <~ getVec lm MP_POSE.RIGHT_WRIST ;;
  lKnee <~ getVec lm MP_POSE.LEFT_KNEE ;;
  lAnkle <~ getVec lm MP_POSE.LEFT_ANKLE ;;
  rKnee <~ getVec lm MP_POSE.RIGHT_KNEE ;;
  rAnkle <~ getVec lm MP_POSE.RIGHT_ANKLE ;;
  Normal [
    ("mixamorig:Hips", hipsPos);
    ("mixamorig:Spine", spinePos);
    ("mixamorig:Spine1", spine1Pos);
    ("mixamorig:Spine2", spine2Pos);
    ("mixamorig:Neck", neckPos);
    ("mixamorig:Head", headPos);
    ("mixamorig:LeftShoulder", lShoulder);
    ("mixamorig:LeftArm", lElbow);
    ("mixamorig:LeftForeArm", lWrist);
    ("mixamorig:LeftHand", addVectors lWrist' (mkVec (of_Z 5) (of_Z 0) (of_Z 0)));
    ("mixamorig:RightShoulder", rShoulder);
    ("mixamorig:RightArm", rElbow);
    ("mixamorig:RightForeArm", rWrist);
    ("mixamorig:RightHand", addVectors rWrist' (mkVec (of_Z (-5)) (of_Z 0) (of_Z 0)));
    ("mixamorig:LeftUpLeg", lHip);
    ("mixamorig:LeftLeg", lKnee);
    ("mixamorig:LeftFoot", lAnkle);
    ("mixamorig:RightUpLeg", rHip);
    ("mixamorig:RightLeg", rKnee);
    ("mixamorig:RightFoot", rAnkle)
  ]%string.

(** The vector [getVec] reads at an index that is present. *)
Definition vecAt (lm : list (Landmark3D num)) (idx : Z) : Vector3 num :=
  match getVec lm idx with
  | Normal v => v
  | Throws _ => mkVec (of_Z 0) (of_Z 0) (of_Z 0)
  end.

(** The table [positions] as a function of the vectors read. *)
Definition positionTable (g : Z -> Vector3 num) : list (string * Vector3 num) :=
  let hipsPos := multiplyScalar (addVectors (g 23%Z) (g 24%Z)) (dec 1 2) in
  let neckPos := multiplyScalar (addVectors (g 11%Z) (g 12%Z)) (dec 1 2) in
  [ ("mixamorig:Hips", hipsPos);
    ("mixamorig:Spine", lerpVectors hipsPos neckPos (dec 3 10));
    ("mixamorig:Spine1", lerpVectors hipsPos neckPos (dec 6 10));
    ("mixamorig:Spine2", lerpVectors hipsPos neckPos (dec 9 10));
    ("mixamorig:Neck", neckPos);
    ("mixamorig:Head", g 0%Z);
    ("mixamorig:LeftShoulder", g 11%Z);
    ("mixamorig:LeftArm", g 13%Z);
    ("mixamorig:LeftForeArm", g 15%Z);
    ("mixamorig:LeftHand", addVectors (g 15%Z) (mkVec (of_Z 5) (of_Z 0) (of_Z 0)));
    ("mixamorig:RightShoulder", g 12%Z);
    ("mixamorig:RightArm", g 14%Z);
    ("mixamorig:RightForeArm", g 16%Z);
    ("mixamorig:RightHand", addVectors (g 16%Z) (mkVec (of_Z (-5)) (of_Z 0) (of_Z 0)));
    ("mixamorig:LeftUpLeg", g 23%Z);
    ("mixamorig:LeftLeg", g 25%Z);
    ("mixamorig:LeftFoot", g 27%Z);
    ("mixamorig:RightUpLeg", g 24%Z);
    ("mixamorig:RightLeg", g 26%Z);
    ("mixamorig:RightFoot", g 28%Z)
  ]%string.



Definition TracksData : Type := list (string * TrackData num).

Fixpoint update (td : TracksData) (key : string) (f : TrackData num -> TrackData num)
  : TracksData :=
  match td with
  | [] => []
  | (k, v) :: td' =>
    if String.eqb k key then (k, f v) :: td' else (k, v) :: update td' key f
  end.

(** [tracksData[key].pos.push(...vals)]. *)
Definition pushPos (td : TracksData) (key : string) (vals : list num)
  : completion TracksData :=
  _ <~ deref (lookup td key) ;;
  Normal (update td key (fun t => mkTrackData (pos t ++ vals) (rot t))).

(** [tracksData[key].rot.push(...vals)]. *)
Definition pushRot (td : TracksData) (key : string) (vals : list num)
  : completion TracksData :=
  _ <~ deref (lookup td key) ;;
  Normal (update td key (fun t => mkTrackData (pos t) (rot t ++ vals))).

(** The first loop over the bones: the root's position, lifted by 100.
    The rotation this loop computes is dropped and has no effect. *)
Definition hipsValues (p : Vector3 num) : list num :=
  [vx p; (vy p + of_Z 100)%js; vz p].

Definition rootPosition (pos_ : list (string * Vector3 num)) (td : TracksData)
           (b : BoneSpec) : completion TracksData :=
  if String.eqb (name b) "mixamorig:Hips" then
    p <~ deref (lookup pos_ (name b)) ;;
    pushPos td (name b) (hipsValues p)
  else Normal td.

(** The second loop: the global rotation of a bone. *)
Definition globalQuat (pos_ : list (string * Vector3 num)) (b : BoneSpec)
  : completion (Quaternion num) :=
  match primaryChild (name b) with
  | Some childBone =>
    pc <~ deref (lookup pos_ (name childBone)) ;;
    pb <~ deref (lookup pos_ (name b)) ;;
    let vCurrent := normalize (subVectors pc pb) in
    let vRest :=
      match lookup tPoseDirections (name b) with
      | Some v => v
      | None => mkVec (of_Z 0) (of_Z 1) (of_Z 0)
      end in
    Normal (setFromUnitVectors vRest vCurrent)
  | None => Normal identity
  end.

Definition globalQuats (pos_ : list (string * Vector3 num))
  : completion (list (string * Quaternion num)) :=
  mapC (fun b => q <~ globalQuat pos_ b ;; Normal (name b, q)) boneMap.

(** The third loop: [qLocal = qParentGlobal^-1 * qGlobal], the global
    rotation itself for the root. *)
Definition localQuat (gq : list (string * Quaternion num)) (b : BoneSpec)
  : completion (Quaternion num) :=
  qLocal <~ deref (lookup gq (name b)) ;;
  match parent b with
  | Some p =>
    qParentGlobal <~ deref (lookup gq p) ;;
    Normal (premultiply qLocal (invert qParentGlobal))
  | None => Normal qLocal
  end.

(** [qLocal.x, qLocal.y, qLocal.z, qLocal.w]. *)
Definition quatValues (q : Quaternion num) : list num := [qx q; qy q; qz q; qw q].

Definition pushLocal (gq : list (string * Quaternion num)) (td : TracksData)
           (b : BoneSpec) : completion TracksData :=
  q <~ localQuat gq b ;;
  pushRot td (name b) (quatValues q).

(** The body of [frames.forEach]. *)
Definition processFrame (td : TracksData) (frame : MocapFrame num)
  : completion TracksData :=
  pos_ <~ positions (landmarks frame) ;;
  td1 <~ foldC (rootPosition pos_) boneMap td ;;
  gq <~ globalQuats pos_ ;;
  foldC (pushLocal gq) boneMap td1.

(** The last loop: a quaternion track for every bone whose [rot] is
    not empty, then a position track when [pos] is not empty. *)
Definition addTracks (times_ : list num) (td : TracksData)
           (acc : list (KeyframeTrack num)) (b : BoneSpec)
  : completion (list (KeyframeTrack num)) :=
  t <~ deref (lookup td (name b)) ;;
  let acc1 :=
    if (0 <? length (rot t))%nat
    then acc ++ [mkTrack QuaternionKeyframeTrack (name b ++ ".quaternion") times_ (rot t)]
    else acc in
  let acc2 :=
    if (0 <? length (pos t))%nat
    then acc1 ++ [mkTrack VectorKeyframeTrack (name b ++ ".position") times_ (pos t)]
    else acc1 in
  Normal acc2.

Definition tracksData0 : TracksData :=
  map (fun b => (name b, mkTrackData [] [])) boneMap.

(** The tracks of the clip. *)
Definition buildTracks (frames : list (MocapFrame num))
  : completion (list (KeyframeTrack num)) :=
  let times_ := map (@timestamp num) frames in
  td <~ foldC processFrame frames tracksData0 ;;
  foldC (addTracks times_ td) boneMap [].

(** [generateFBX(frames)].  [parse] is [FBXExporter.parse], the
    serialization backend; a rejected promise is a thrown exception. *)
Definition generateFBX {buffer : Type}
           (parse : Scene -> AnimationClip num -> completion buffer)
           (frames : list (MocapFrame num)) : completion buffer :=
  match frames with
  | [] => Throws (Error "No frames to export")
  | _ :: _ =>
    scene <~ buildScene ;;
    tracks_ <~ buildTracks frames ;;
    parse scene (mkClip "MixamoMotion" (of_Z (-1)) tracks_)
  end.
End Exporter.
End FBX.

(* ================================================================= *)
(** ** Strings and number formatting *)

Definition nl : string := String "010"%char EmptyString.

(** [" ".repeat(n)] and the like. *)
Fixpoint repeat_string (s : string) (n : nat) : string :=
  match n with
  | O => EmptyString
  | S n' => (s ++ repeat_string s n')%string
  end.

(** The decimal digits of a natural number, ["0"] for zero. *)
Definition digits_of_N (n : N) : string :=
  DecimalString.NilZero.string_of_uint (N.to_uint n).

(** [String(n)] for an array length. *)
Definition string_of_length (n : nat) : string := digits_of_N (N.of_nat n).

(** The tokens, each followed by one space. *)
Fixpoint spaced (tokens : list string) : string :=
  match tokens with
  | [] => EmptyString
  | t :: rest => (t ++ " " ++ spaced rest)%string
  end.

(** White space in the sense of [String.prototype.trim], on bytes. *)
Definition is_ws (c : ascii) : bool :=
  let n := nat_of_ascii c in
  ((9 <=? n) && (n <=? 13) || (n =? 32))%nat.

Fixpoint trimStart (s : string) : string :=
  match s with
  | EmptyString => EmptyString
  | String c s' => if is_ws c then trimStart s' else s
  end.

Fixpoint trimEnd (s : string) : string :=
  match s with
  | EmptyString => EmptyString
  | String c s' =>
    match trimEnd s' with
    | EmptyString => if is_ws c then EmptyString else String c EmptyString
    | r => String c r
    end
  end.

Definition trim (s : string) : string := trimEnd (trimStart s).

(** *** The value of a number

    [Number.prototype.toFixed] and [Number::toString] are defined on the
    mathematical value of a number, and on what the number is when it has
    none. *)
Inductive NumberValue : Type :=
| NaN : NumberValue
| Infinity (negative : bool) : NumberValue
| Finite (x : Q) : NumberValue.

Class JSFormat (num : Type) : Type := {
  numberValue : num -> NumberValue
}.

#[export] Instance Q_JSFormat : JSFormat Q := { numberValue := Finite }.

(** A binary64 number that is neither zero, infinite nor [NaN] is
    [+/- m * 2^e]. *)
Definition float_value (x : PrimFloat.float) : NumberValue :=
  match FloatOps.Prim2SF x with
  | SpecFloat.S754_zero _ => Finite 0
  | SpecFloat.S754_infinity negative => Infinity negative
  | SpecFloat.S754_nan => NaN
  | SpecFloat.S754_finite negative m e =>
    Finite (inject_Z (if negative then Zneg m else Zpos m) * Qpower (2 # 1) e)
  end.

#[export] Instance float_JSFormat : JSFormat PrimFloat.float := {
  numberValue := float_value
}.

(** *** [Number::toString] from 10^21 on

    The nearest integer, the even one on a tie. *)
Definition roundHalfEven (q : Q) : Z :=
  let f := Qfloor q in
  match Qcompare (q - inject_Z f) (1 # 2) with
  | Lt => f
  | Gt => (f + 1)%Z
  | Eq => if Z.even f then f else (f + 1)%Z
  end.

(** The Number value for [x], for [x >= 2^53]: the nearest integer with
    53 significant bits, the one with an even significand on a tie;
    [None] stands for [Infinity], from [2^1024 - 2^970] on. *)
Definition binary64 (x : Q) : option Z :=
  let e := Z.log2 (Qfloor x) in
  let ulp := (2 ^ (e - 52))%Z in
  let v := (roundHalfEven (x / inject_Z ulp) * ulp)%Z in
  if (2 ^ 1024 <=? v)%Z then None else Some v.

(** The number of decimal digits of a natural number. *)
Definition decimalLength (n : Z) : Z :=
  Z.of_nat (String.length (digits_of_N (Z.to_N n))).

(** The integers [s] and [p] of [Number::toString] for the value [v] of
    [n] decimal digits: [s * 10^p] is a number whose Number value is [v],
    with [k] digits for the first [k] of [ks] that has one and, if there
    are two, the one nearer to [v]. *)
Fixpoint shortestDigits (v n : Z) (ks : list Z) : Z * Z :=
  match ks with
  | [] => (v, 0%Z)
  | k :: ks' =>
    let scale := (10 ^ (n - k))%Z in
    let lo := (v / scale)%Z in
    let hi := (lo + 1)%Z in
    let fits (s : Z) := match binary64 (inject_Z (s * scale)) with
                        | Some v' => (v' =? v)%Z
                        | None => false
                        end in
    match fits lo, fits hi with
    | true, true =>
      if (v - lo * scale <? hi * scale - v)%Z then (lo, (n - k)%Z)
      else if (hi * scale - v <? v - lo * scale)%Z then (hi, (n - k)%Z)
      else if Z.even lo then (lo, (n - k)%Z) else (hi, (n - k)%Z)
    | true, false => (lo, (n - k)%Z)
    | false, true => (hi, (n - k)%Z)
    | false, false => shortestDigits v n ks'
    end
  end.

(** The digits without the zeros at their end. *)
Fixpoint dropTrailingZeros (s : string) : string :=
  match s with
  | EmptyString => EmptyString
  | String c s' =>
    match dropTrailingZeros s' with
    | EmptyString => if Ascii.eqb c "0" then EmptyString else String c EmptyString
    | r => String c r
    end
  end.

(** The exponent notation of [s * 10^p]: the first digit, a point and
    the other digits when there are any, then [e+] and the exponent. *)
Definition exponentNotation (s p : Z) : string :=
  let all := digits_of_N (Z.to_N s) in
  let e := (Z.of_nat (String.length all) + p - 1)%Z in
  let mantissa :=
    match dropTrailingZeros all with
    | String c EmptyString => String c EmptyString
    | String c rest => String c ("." ++ rest)
    | EmptyString => EmptyString
    end in
  (mantissa ++ "e+" ++ digits_of_N (Z.to_N e))%string.

(** [ToString] of the Number value for [x], for [x >= 10^21].  A
    binary64 value is told from its neighbours by 17 digits. *)
Definition toStringLarge (x : Q) : string :=
  match binary64 x with
  | Some v =>
    let (s, p) := shortestDigits v (decimalLength v) (map Z.of_nat (seq 1 17)) in
    exponentNotation s p
  | None => "Infinity"%string
  end.

(** *** [Number.prototype.toFixed]

    On a finite value, after ECMAScript: the sign, then from 10^21 on
    what [ToString] gives, and below it the integer [n] nearest to
    [|x| * 10^f] (the larger one on a tie) written with at least [f + 1]
    digits and a point before the last [f]. *)
Definition Q_toFixed (x : Q) (f : nat) : string :=
  let s := if Qlt_le_dec x 0 then "-"%string else EmptyString in
  let x := Qabs x in
  if Qle_bool (inject_Z (10 ^ 21)) x then (s ++ toStringLarge x)%string
  else
    let n := Z.to_N (Qfloor (x * inject_Z (10 ^ Z.of_nat f) + (1 # 2))) in
    let m := digits_of_N n in
    let m' :=
      match f with
      | O => m
      | _ =>
        let k := String.length m in
        let padded := if (k <=? f)%nat then (repeat_string "0" (f + 1 - k) ++ m)%string else m in
        let k' := String.length padded in
        (substring 0 (k' - f) padded ++ "." ++ substring (k' - f) f padded)%string
      end in
    (s ++ m')%string.

(** A number that is not finite is written by [ToString]. *)
Definition Number_toFixed (v : NumberValue) (fractionDigits : nat) : string :=
  match v with
  | NaN => "NaN"
  | Infinity negative => if negative then "-Infinity" else "Infinity"
  | Finite x => Q_toFixed x fractionDigits
  end%string.

(** [x.toFixed(fractionDigits)], for [fractionDigits] from 0 to 100. *)
Definition toFixed {num} `{JSFormat num} (x : num) (fractionDigits : nat) : string :=
  Number_toFixed (numberValue x) fractionDigits.

(** Tokens of a motion line. *)
Definition is_digit (c : ascii) : bool :=
  let n := nat_of_ascii c in ((48 <=? n) && (n <=? 57))%nat.

Definition is_numeric_char (c : ascii) : bool :=
  is_digit c || Ascii.eqb c "."%char || Ascii.eqb c "-"%char.

Fixpoint all_chars (p : ascii -> bool) (s : string) : bool :=
  match s with
  | EmptyString => true
  | String c s' => p c && all_chars p s'
  end.

(** A numeric token: not empty, made of digits, a point and a sign, and so
    free of white space. *)
Definition numericToken (s : string) : Prop :=
  s <> EmptyString /\ all_chars is_numeric_char s = true.

(** A number written with exactly [d] decimals: an optional sign, at
    least one digit, a point and [d] digits. *)
Definition fixedDecimals (d : nat) (s : string) : Prop :=
  exists sign int frac,
    s = (sign ++ int ++ "." ++ frac)%string /\
    (sign = EmptyString \/ sign = "-"%string) /\
    int <> EmptyString /\
    all_chars is_digit int = true /\
    all_chars is_digit frac = true /\
    String.length frac = d.

(** A token of a line: not empty and free of white space. *)
Definition solidToken (s : string) : Prop :=
  s <> EmptyString /\ all_chars (fun c => negb (is_ws c)) s = true.


(* ================================================================= *)
(** ** services/bvhExporter.ts *)

Module BVH.

Record Joint : Type := mkJoint {
  name : string;
  parent : option string;
  mpIndex : Z
}.

Definition joints : list Joint := [
  mkJoint "Hips" None (-1);
  mkJoint "Spine" (Some "Hips") (-1);
  mkJoint "Head" (Some "Spine") MP_POSE.NOSE;
  mkJoint "LeftShoulder" (Some "Spine") MP_POSE.LEFT_SHOULDER;
  mkJoint "LeftElbow" (Some "LeftShoulder") MP_POSE.LEFT_ELBOW;
  mkJoint "LeftWrist" (Some "LeftElbow") MP_POSE.LEFT_WRIST;
  mkJoint "RightShoulder" (Some "Spine") MP_POSE.RIGHT_SHOULDER;
  mkJoint "RightElbow" (Some "RightShoulder") MP_POSE.RIGHT_ELBOW;
  mkJoint "RightWrist" (Some "RightElbow") MP_POSE.RIGHT_WRIST;
  mkJoint "LeftHip" (Some "Hips") MP_POSE.LEFT_HIP;
  mkJoint "LeftKnee" (Some "LeftHip") MP_POSE.LEFT_KNEE;
  mkJoint "LeftAnkle" (Some "LeftKnee") MP_POSE.LEFT_ANKLE;
  mkJoint "RightHip" (Some "Hips") MP_POSE.RIGHT_HIP;
  mkJoint "RightKnee" (Some "RightHip") MP_POSE.RIGHT_KNEE;
  mkJoint "RightAnkle" (Some "RightKnee") MP_POSE.RIGHT_ANKLE
]%string.

(** [joints.filter(j => j.parent === jointName)]. *)
Definition childrenOf (jointName : string) : list Joint :=
  filter (fun j => match parent j with
                   | Some p => String.eqb p jointName
                   | None => false
                   end) joints.

(** [indentStr()]: two spaces per level. *)
Definition indentStr (indentation : nat) : string := repeat_string "  " indentation.

(** The pre-order traversal of the hierarchy from a joint: the joint,
    then its children in declaration order, recursively. *)
Fixpoint preorder (fuel : nat) (jointName : string) : option (list string) :=
  match fuel with
  | O => None
  | S fuel' =>
    fold_left (fun acc c => match acc with
                            | Some names =>
                              match preorder fuel' (name c) with
                              | Some sub => Some (names ++ sub)
                              | None => None
                              end
                            | None => None
                            end) (childrenOf jointName) (Some [jointName])
  end.

(** [writeJoint(jointName)], on the pair of [bvh] and [indentation] it
    updates.  The recursion follows the hierarchy; [fuel] bounds its
    depth and [None] is returned when it is used up. *)
Fixpoint writeJoint (fuel : nat) (jointName : string) (st : string * nat)
  : option (string * nat) :=
  match fuel with
  | O => None
  | S fuel' =>
    match find (fun j => String.eqb (name j) jointName) joints with
    | None => Some st
    | Some joint =>
      let '(bvh, indentation) := st in
      let bvh :=
        match parent joint with
        | None => (bvh ++ "ROOT " ++ name joint ++ nl ++ "{" ++ nl)%string
        | Some _ =>
          (bvh ++ indentStr indentation ++ "JOINT " ++ name joint ++ nl
               ++ indentStr indentation ++ "{" ++ nl)%string
        end in
      let indentation := S indentation in
      let bvh := (bvh ++ indentStr indentation ++ "OFFSET 0.00 0.00 0.00" ++ nl)%string in
      let bvh :=
        (bvh ++ indentStr indentation
             ++ "CHANNELS 6 Xposition Yposition Zposition Zrotation Xrotation Yrotation"
             ++ nl)%string in
      let children := childrenOf jointName in
      let after :=
        if (0 <? length children)%nat then
          fold_left (fun acc c => match acc with
                                  | Some s => writeJoint fuel' (name c) s
                                  | None => None
                                  end) children (Some (bvh, indentation))
        else
          let bvh := (bvh ++ indentStr indentation ++ "End Site" ++ nl
                          ++ indentStr indentation ++ "{" ++ nl)%string in
          let indentation := S indentation in
          let bvh := (bvh ++ indentStr indentation ++ "OFFSET 0.00 0.00 0.00" ++ nl)%string in
          let indentation := pred indentation in
          let bvh := (bvh ++ indentStr indentation ++ "}" ++ nl)%string in
          Some (bvh, indentation) in
      match after with
      | Some (bvh, indentation) =>
        let indentation := pred indentation in
        Some ((bvh ++ indentStr indentation ++ "}" ++ nl)%string, indentation)
      | None => None
      end
    end
  end.

Section Exporter.
Context {num : Type} `{JSNumber num} `{JSFormat num}.

Definition zeroVec : Vector3 num := mkVec (of_Z 0) (of_Z 0) (of_Z 0).

(** [getPos(idx)]: the zero vector outside the frame's landmarks. *)
Definition getPos (lm : list (Landmark3D num)) (idx : Z) : completion (Vector3 num) :=
  if ((idx <? 0) || (idx >=? Z.of_nat (length lm)))%Z then Normal zeroVec
  else
    let scale := of_Z 100 in
    l <~ deref (js_index lm idx) ;;
    Normal (mkVec (lx l * - scale)%js (ly l * - scale)%js (lz l * scale)%js).

(** The vector [getPos] yields. *)
Definition posAt (lm : list (Landmark3D num)) (idx : Z) : Vector3 num :=
  match getPos lm idx with
  | Normal v => v
  | Throws _ => zeroVec
  end.

(** The table [positions] of one frame. *)
Definition positions (lm : list (Landmark3D num))
  : completion (list (string * Vector3 num)) :=
  lHip <~ getPos lm MP_POSE.LEFT_HIP ;;
  rHip <~ getPos lm MP_POSE.RIGHT_HIP ;;
  lShoulder <~ getPos lm MP_POSE.LEFT_SHOULDER ;;
  rShoulder <~ getPos lm MP_POSE.RIGHT_SHOULDER ;;
  let hips := mkVec ((vx lHip + vx rHip) / of_Z 2)%js
                    ((vy lHip + vy rHip) / of_Z 2)%js
                    ((vz lHip + vz rHip) / of_Z 2)%js in
  let spine := mkVec ((vx lShoulder + vx rShoulder) / of_Z 2)%js
                     ((vy lShoulder + vy rShoulder) / of_Z 2)%js
                     ((vz lShoulder + vz rShoulder) / of_Z 2)%js in
  head <~ getPos lm MP_POSE.NOSE ;;
  lElbow <~ getPos lm MP_POSE.LEFT_ELBOW ;;
  lWrist <~ getPos lm MP_POSE.LEFT_WRIST ;;
  rElbow <~ getPos lm MP_POSE.RIGHT_ELBOW ;;
  rWrist <~ getPos lm MP_POSE.RIGHT_WRIST ;;
  lKnee <~ getPos lm MP_POSE.LEFT_KNEE ;;
  lAnkle <~ getPos lm MP_POSE.LEFT_ANKLE ;;
  rKnee <~ getPos lm MP_POSE.RIGHT_KNEE ;;
  rAnkle <~ getPos lm MP_POSE.RIGHT_ANKLE ;;
  Normal [
    ("Hips", hips);
    ("Spine", spine);
    ("Head", head);
    ("LeftShoulder", lShoulder);
    ("LeftElbow", lElbow);
    ("LeftWrist", lWrist);
    ("RightShoulder", rShoulder);
    ("RightElbow", rElbow);
    ("RightWrist", rWrist);
    ("LeftHip", lHip);
    ("LeftKnee", lKnee);
    ("LeftAnkle", lAnkle);
    ("RightHip", rHip);
    ("RightKnee", rKnee);
    ("RightAnkle", rAnkle)
  ]%string.

(** [writeData(jointName)], on the [line] it extends. *)
Fixpoint writeData (fuel : nat) (pos_ : list (string * Vector3 num))
         (jointName : string) (line : string) : option string :=
  match fuel with
  | O => None
  | S fuel' =>
    let p := match lookup pos_ jointName with
             | Some p => p
             | None => zeroVec
             end in
    let line :=
      (line ++ toFixed (vx p) 4 ++ " " ++ toFixed (vy p) 4 ++ " " ++ toFixed (vz p) 4
            ++ " 0.00 0.00 0.00 ")%string in
    fold_left (fun acc c => match acc with
                            | Some s => writeData fuel' pos_ (name c) s
                            | None => None
                            end) (childrenOf jointName) (Some line)
  end.

(** The recursion depth of both traversals is at most the number of
    joints. *)
Definition fuel : nat := length joints.

(** The six numbers of a joint: its position with four decimals and
    three zero rotations. *)
Definition jointTokens (pos_ : list (string * Vector3 num)) (jointName : string)
  : list string :=
  let p := match lookup pos_ jointName with
           | Some p => p
           | None => zeroVec
           end in
  [toFixed (vx p) 4; toFixed (vy p) 4; toFixed (vz p) 4; "0.00"; "0.00"; "0.00"]%string.

(** The tokens of the motion line of a frame, joint by joint in
    pre-order, and the line: the tokens separated by one space. *)
Definition motionTokens (frame : MocapFrame num) : list string :=
  match positions (landmarks frame), preorder fuel "Hips" with
  | Normal pos_, Some names => flat_map (jointTokens pos_) names
  | _, _ => []
  end.

Definition motionLine (frame : MocapFrame num) : string :=
  String.concat " " (motionTokens frame).

(** The lines of a sequence of frames, each ended by a line feed. *)
Fixpoint motionLines (frames : list (MocapFrame num)) : string :=
  match frames with
  | [] => EmptyString
  | frame :: rest => (motionLine frame ++ nl ++ motionLines rest)%string
  end.

(** The body of [for (const frame of frames)], on [bvh]. *)
Definition writeFrame (bvh : string) (frame : MocapFrame num)
  : completion (option string) :=
  pos_ <~ positions (landmarks frame) ;;
  Normal (match writeData fuel pos_ "Hips" EmptyString with
          | Some line => Some (bvh ++ trim line ++ nl)%string
          | None => None
          end).

Fixpoint writeFrames (bvh : string) (frames : list (MocapFrame num))
  : completion (option string) :=
  match frames with
  | [] => Normal (Some bvh)
  | frame :: rest =>
    r <~ writeFrame bvh frame ;;
    match r with
    | Some bvh' => writeFrames bvh' rest
    | None => Normal None
    end
  end.

(** [generateBVH(frames)].  The inner [option] is [None] only if a
    traversal used up its fuel. *)
Definition generateBVH (frames : list (MocapFrame num)) : completion (option string) :=
  match frames with
  | [] => Normal (Some EmptyString)
  | _ :: _ =>
    let fps := of_Z 30 in
    let frameTime := toFixed (of_Z 1 / fps)%js 6 in
    let bvh := ("HIERARCHY" ++ nl)%string in
    match writeJoint fuel "Hips" (bvh, O) with
    | Some (bvh, _) =>
      let bvh := (bvh ++ "MOTION" ++ nl)%string in
      let bvh := (bvh ++ "Frames: " ++ string_of_length (length frames) ++ nl)%string in
      let bvh := (bvh ++ "Frame Time: " ++ frameTime ++ nl)%string in
      writeFrames bvh frames
    | None => Normal None
    end
  end.
End Exporter.
End BVH.

(* ================================================================= *)
(** ** components/MotionProcessor.tsx *)

Module MotionProcessor.

Section Processing.
Context {num : Type} `{JSNumber num} `{JSMath num}.

(** [poseLandmarkerRef.current.detectForVideo(video, ms).worldLandmarks]
    once the video has been sought to the time: the poses found, each an
    array of landmarks; the empty list also stands for a missing array.
    The detector is taken to return: an exception of its own ends
    [startProcessing] in its [catch]. *)
Variable detectForVideo : num -> list (list (Landmark3D num)).

Definition fps : num := of_Z 30.

(** [const interval = 1.0 / fps]. *)
Definition interval : num := (of_Z 1 / fps)%js.

(** The seek and detect loop of [startProcessing],
    [while (currentTime < duration) { ... currentTime += interval }], on
    [currentTime] and [rawFrames]: a frame is pushed when a pose was
    found, with the first pose as its landmarks; otherwise the time is
    skipped.  The progress display and the yields to the interface do
    not change either.  [fuel] bounds the number of rounds and [None] is
    returned when it is used up. *)
Fixpoint extractLoop (fuel : nat) (duration currentTime : num)
         (rawFrames : list (MocapFrame num)) : option (list (MocapFrame num)) :=
  match fuel with
  | O => None
  | S fuel' =>
    if nltb currentTime duration then
      let worldLandmarks := detectForVideo (currentTime * of_Z 1000)%js in
      let rawFrames :=
        match worldLandmarks with
        | pose :: _ => rawFrames ++ [mkFrame currentTime pose]
        | [] => rawFrames
        end in
      extractLoop fuel' duration (currentTime + interval)%js rawFrames
    else Some rawFrames
  end.

(** [let currentTime = 0; const rawFrames = []; while ...]. *)
Definition extractFrames (fuel : nat) (duration : num) : option (list (MocapFrame num)) :=
  extractLoop fuel duration (of_Z 0) [].
End Processing.

(** The playback timer, every 33 ms while [isPlaying && frames.length > 0]:
    [setCurrentFrameIndex(prev => (prev + 1) % frames.length)].  Indices
    and lengths are integers; [%] takes the sign of the dividend. *)
Definition tick (isPlaying : bool) (framesLength : Z) (currentFrameIndex : Z) : Z :=
  if isPlaying && (0 <? framesLength)%Z
  then Z.rem (currentFrameIndex + 1) framesLength
  else currentFrameIndex.

End MotionProcessor.

(* ================================================================= *)
(** ** components/ThreeVisualizer.tsx *)

Module ThreeVisualizer.

(** A joint marker: a [THREE.Mesh] with its [position] and [visible]. *)
Record Mesh (num : Type) : Type := mkMesh {
  position : Vector3 num;
  visible : bool
}.

(** What the two effects share: the markers of [pointsRef.current] and,
    for every line of [linesRef.current], the six numbers of the
    [position] attribute of its geometry. *)
Record Refs (num : Type) : Type := mkRefs {
  points : list (Mesh num);
  lines : list (list num)
}.

Section Visualizer.
Context {num : Type} `{JSNumber num}.

(** [SKELETON_CONNECTIONS] of [constants.ts]: pairs of landmark
    indices. *)
Variable SKELETON_CONNECTIONS : list (nat * nat).

(** The rounding to single precision of a [Float32Array]. *)
Variable fround : num -> num.

(** The pool that the first effect creates: 33 hidden markers at the
    origin and, for every connection, a line between two points at the
    origin. *)
Definition initialRefs : Refs num :=
  mkRefs (repeat (mkMesh (mkVec (of_Z 0) (of_Z 0) (of_Z 0)) false) 33)
         (map (fun _ => repeat (of_Z 0) 6) SKELETON_CONNECTIONS).

(** [landmarks.forEach((lm, index) => { if (pointsRef.current[index]) ... })]:
    [pts] are the markers from the current index on.  A marker that has
    a landmark is moved to [(-lm.x, -lm.y + 1.5, lm.z)] and shown. *)
Fixpoint updateJoints (landmarks_ : list (Landmark3D num)) (pts : list (Mesh num))
  : list (Mesh num) :=
  match landmarks_, pts with
  | lm :: lms, _ :: pts' =>
    mkMesh (mkVec (- lx lm)%js (- ly lm + dec 15 10)%js (lz lm)) true
    :: updateJoints lms pts'
  | _, _ => pts
  end.

(** The body of [SKELETON_CONNECTIONS.forEach] for a connection whose
    line exists: when both landmarks are there, the line gets the
    positions of the two markers, and [pointsRef.current[idx].position]
    throws when a marker is missing. *)
Definition updateLine (landmarks_ : list (Landmark3D num)) (pts : list (Mesh num))
           (conn : nat * nat) (line : list num) : completion (list num) :=
  let idxA := fst conn in
  let idxB := snd conn in
  match nth_error landmarks_ idxA, nth_error landmarks_ idxB with
  | Some _, Some _ =>
    a <~ deref (nth_error pts idxA) ;;
    b <~ deref (nth_error pts idxB) ;;
    let posA := position a in
    let posB := position b in
    Normal (map fround [vx posA; vy posA; vz posA; vx posB; vy posB; vz posB])
  | _, _ => Normal line
  end.

(** [SKELETON_CONNECTIONS.forEach((pair, i) => ...)]: [lines_] are the
    lines from the index [i] on; a connection without a line is
    skipped. *)
Fixpoint updateLines (landmarks_ : list (Landmark3D num)) (pts : list (Mesh num))
         (connections : list (nat * nat)) (lines_ : list (list num))
  : completion (list (list num)) :=
  match connections, lines_ with
  | conn :: connections', line :: lines' =>
    line' <~ updateLine landmarks_ pts conn line ;;
    rest <~ updateLines landmarks_ pts connections' lines' ;;
    Normal (line' :: rest)
  | _, _ => Normal lines_
  end.

(** The second effect, run when [frames] or [currentFrameIndex]
    change: nothing happens without a frame at the index.  When a line
    throws, the markers have been moved already; the markers and lines
    of a run that throws are not used here. *)
Definition updateSkeleton (frames : list (MocapFrame num)) (currentFrameIndex : Z)
           (refs : Refs num) : completion (Refs num) :=
  match js_index frames currentFrameIndex with
  | None => Normal refs
  | Some frame =>
    let pts := updateJoints (landmarks frame) (points refs) in
    lines_ <~ updateLines (landmarks frame) pts SKELETON_CONNECTIONS (lines refs) ;;
    Normal (mkRefs pts lines_)
  end.
End Visualizer.

End ThreeVisualizer.

(* ================================================================= *)
(** ** Predicates of the specification and sample inputs *)



(** A store with two frames of one landmark each, at [a] and then at
    [b]; the array of the frames is at location 6. *)
Definition two_frames (a b : Q) : heap Q := [
  OLandmark (mkLandmark a a a None);
  OArray [0];
  OFrame 0%Q 1;
  OLandmark (mkLandmark b b b (Some 1%Q));
  OArray [3];
  OFrame (1 # 30)%Q 4;
  OArray [2; 5]
].


(** A frame of binary64 landmarks that all sit at one point. *)
Definition still_frame : MocapFrame PrimFloat.float :=
  mkFrame (of_Z 0) (repeat (mkLandmark (dec 1 10) (dec 2 10) (dec 3 10) None) 33).


(** A frame that lacks its landmarks. *)
Definition bare_frame {num} `{JSNumber num} : MocapFrame num := mkFrame (of_Z 0) [].

(** The bones that have a primary child. *)
Definition bonesWithPrimaryChild : list FBX.BoneSpec :=
  filter (fun b => match FBX.primaryChild (FBX.name b) with
                   | Some _ => true
                   | None => false
                   end) FBX.boneMap.



(** Where the exporters put a landmark: mirrored in [x] and [y], in
    centimetres. *)
Definition mirrored (l : Landmark3D R) : Vector3 R :=
  mkVec (-100 * lx l)%R (-100 * ly l)%R (100 * lz l)%R.








Definition upright_frame : MocapFrame R :=
  mkFrame 0%R
    (repeat (mkLandmark 0%R 0%R 0%R None) 11
     ++ repeat (mkLandmark 0%R (- (1 / 2))%R 0%R None) 2
     ++ repeat (mkLandmark 0%R 0%R 0%R None) 20).

(** A frame of exact landmarks that all differ: the landmark [i] sits
    at [(i/100, -i/50, i/25)]. *)
Definition slanted_frame : MocapFrame R :=
  mkFrame 0%R
    (map (fun i => mkLandmark (IZR i / 100)%R (- IZR i / 50)%R (IZR i / 25)%R None)
         (map Z.of_nat (seq 0 33))).


(* ================================================================= *)
(** ** Further predicates and sample inputs *)

(** The optional [visibility] fields of the landmarks of a frame. *)
Definition visibilities {num} (f : MocapFrame num) : list (option num) :=
  map (@visibility num) (landmarks f).

(** A store with a frame of one landmark followed by a frame of two; the
    array of the frames is at location 7. *)
Definition growing_frames : heap Q := [
  OLandmark (mkLandmark 0%Q 0%Q 0%Q None);
  OArray [0];
  OFrame 0%Q 1;
  OLandmark (mkLandmark 1%Q 1%Q 1%Q None);
  OLandmark (mkLandmark 2%Q 2%Q 2%Q None);
  OArray [3; 4];
  OFrame (1 # 30)%Q 5;
  OArray [2; 6]
].

(** A store over the reals with two frames of one landmark each, at [a]
    and then at [b]; the array of the frames is at location 6. *)
Definition two_poses (a b : R) : heap R := [
  OLandmark (mkLandmark a a a None);
  OArray [0];
  OFrame 0%R 1;
  OLandmark (mkLandmark b b b None);
  OArray [3];
  OFrame (/ 30)%R 4;
  OArray [2; 5]
].

(** What the loops over the bones compute for one frame: the table of
    positions, the global rotations and, for a bone, the local rotation
    pushed on its track; the position of the hips. *)
Section FrameValues.
Context {num : Type} `{JSNumber num} `{JSMath num}.

Definition framePositions (frame : MocapFrame num) : list (string * Vector3 num) :=
  match FBX.positions (landmarks frame) with
  | Normal pos_ => pos_
  | Throws _ => []
  end.

Definition frameGlobals (frame : MocapFrame num) : list (string * Quaternion num) :=
  match FBX.globalQuats (framePositions frame) with
  | Normal gq => gq
  | Throws _ => []
  end.

Definition frameLocal (frame : MocapFrame num) (b : FBX.BoneSpec) : Quaternion num :=
  match FBX.localQuat (frameGlobals frame) b with
  | Normal q => q
  | Throws _ => identity
  end.

Definition frameHips (frame : MocapFrame num) : Vector3 num :=
  match lookup (framePositions frame) "mixamorig:Hips" with
  | Some p => p
  | None => mkVec (of_Z 0) (of_Z 0) (of_Z 0)
  end.

(** The tracks of a bone over a sequence of frames: the quaternion
    track with the local rotations in frame order and, for the root, the
    position track. *)
Definition boneTracks (frames : list (MocapFrame num)) (b : FBX.BoneSpec)
  : list (FBX.KeyframeTrack num) :=
  FBX.mkTrack FBX.QuaternionKeyframeTrack (FBX.name b ++ ".quaternion")
              (map (@timestamp num) frames)
              (flat_map (fun f => FBX.quatValues (frameLocal f b)) frames)
  :: (if String.eqb (FBX.name b) "mixamorig:Hips"
      then [FBX.mkTrack FBX.VectorKeyframeTrack (FBX.name b ++ ".position")
                        (map (@timestamp num) frames)
                        (flat_map (fun f => FBX.hipsValues (frameHips f)) frames)]
      else []).
End FrameValues.

(** The number of values of one key of a track. *)
Definition itemSize (k : FBX.TrackKind) : nat :=
  match k with
  | FBX.QuaternionKeyframeTrack => 4
  | FBX.VectorKeyframeTrack => 3
  end.

(** The frame with only its first [n] landmarks. *)
Definition truncateFrame {num} (n : nat) (f : MocapFrame num) : MocapFrame num :=
  mkFrame (timestamp f) (firstn n (landmarks f)).

(** [positions[jointName] || { x: 0, y: 0, z: 0 }]: where the positional
    exporter puts a joint in a frame. *)
Definition bvhJoint {num} `{JSNumber num} (frame : MocapFrame num) (jointName : string)
  : Vector3 num :=
  match BVH.positions (landmarks frame) with
  | Normal pos_ =>
    match lookup pos_ jointName with
    | Some p => p
    | None => BVH.zeroVec
    end
  | Throws _ => BVH.zeroVec
  end.

(** The joints that both exporters place: the joint of the positional
    exporter and the bone of the rotation exporter that are read from the
    same landmarks. *)
Definition sharedJoints : list (string * string) := [
  ("Hips", "mixamorig:Hips");
  ("Spine", "mixamorig:Neck");
  ("Head", "mixamorig:Head");
  ("LeftShoulder", "mixamorig:LeftShoulder");
  ("LeftElbow", "mixamorig:LeftArm");
  ("LeftWrist", "mixamorig:LeftForeArm");
  ("RightShoulder", "mixamorig:RightShoulder");
  ("RightElbow", "mixamorig:RightArm");
  ("RightWrist", "mixamorig:RightForeArm");
  ("LeftHip", "mixamorig:LeftUpLeg");
  ("LeftKnee", "mixamorig:LeftLeg");
  ("LeftAnkle", "mixamorig:LeftFoot");
  ("RightHip", "mixamorig:RightUpLeg");
  ("RightKnee", "mixamorig:RightLeg");
  ("RightAnkle", "mixamorig:RightFoot")
]%string.

(** The lines of a text: the pieces that a line feed ends, and what
    follows the last line feed when that is not empty. *)
Fixpoint lines (s : string) : list string :=
  match s with
  | EmptyString => []
  | String c s' =>
    if Ascii.eqb c "010" then EmptyString :: lines s'
    else match lines s' with
         | [] => [String c EmptyString]
         | l :: ls => String c l :: ls
         end
  end.

(** What follows the prefix [p] in [s]. *)
Definition stripPrefix (p s : string) : option string :=
  if String.prefix p s
  then Some (substring (String.length p) (String.length s - String.length p) s)
  else None.

(** The joint that a line of a hierarchy declares: the name after
    [ROOT] or [JOINT]. *)
Definition declaredJoint (line : string) : option string :=
  match stripPrefix "ROOT " (trimStart line) with
  | Some n => Some n
  | None => stripPrefix "JOINT " (trimStart line)
  end.

Definition declaredJoints (text : string) : list string :=
  flat_map (fun l => match declaredJoint l with
                     | Some n => [n]
                     | None => []
                     end) (lines text).

(** The number of lines of [text] that are [l] once trimmed, and of
    those that start with [p]. *)
Definition countLines (l text : string) : nat :=
  length (filter (fun x => String.eqb (trim x) l) (lines text)).

Definition countPrefixed (p text : string) : nat :=
  length (filter (fun x => String.prefix p (trimStart x)) (lines text)).

(** The point at which [writeData] writes a joint. *)
Definition jointPosition {num} `{JSNumber num}
           (pos : list (string * Vector3 num)) (jointName : string) : Vector3 num :=
  match lookup pos jointName with
  | Some p => p
  | None => BVH.zeroVec
  end.


(** The six numbers written for a joint at the origin. *)
Definition zeroTokens : list string :=
  ["0.0000"; "0.0000"; "0.0000"; "0.00"; "0.00"; "0.00"]%string.

(** A store of binary64 numbers with the frame [still_frame] twice in a
    sequence: one landmark object fills the 33 places of the frame's
    array, and the array of the frames, at location 3, holds the frame
    twice. *)
Definition still_store : heap PrimFloat.float := [
  OLandmark (mkLandmark (dec 1 10) (dec 2 10) (dec 3 10) None);
  OArray (repeat 0 33);
  OFrame (of_Z 0) 1;
  OArray [2; 2]
].

(** The time of the round [k] of the seek and detect loop, [interval]
    added [k] times to 0, and what the round pushes on [rawFrames]. *)
Definition seekTime {num} `{JSNumber num} (k : nat) : num :=
  Nat.iter k (fun currentTime => (currentTime + MotionProcessor.interval)%js) (of_Z 0).

Definition seekFrame {num} `{JSNumber num}
           (detectForVideo : num -> list (list (Landmark3D num))) (k : nat)
  : list (MocapFrame num) :=
  match detectForVideo (seekTime k * of_Z 1000)%js with
  | pose :: _ => [mkFrame (seekTime k) pose]
  | [] => []
  end.

(** A detector that finds one pose at every time. *)
Definition steady_detector (t : PrimFloat.float) : list (list (Landmark3D PrimFloat.float)) :=
  [[mkLandmark t t t None]].

(* ================================================================= *)
(** * The store *)

Section StoreFacts.
Context {num : Type}.
Implicit Types (h : heap num) (l : loc).

Lemma agree_refl n h : agree n h h.
Proof. intros l _ _. reflexivity. Qed.

Lemma agree_app n h ext h2 : agree n (h ++ ext) h2 -> agree n h h2.
Proof.
  intros Ha l Hn Hl. rewrite Ha.
  - now rewrite nth_error_app1.
  - exact Hn.
  - rewrite length_app. lia.
Qed.

Lemma agree_mono n m h h2 : n <= m -> agree n h h2 -> agree m h h2.
Proof. intros Hnm Ha l Hm Hl. apply Ha; lia. Qed.

Lemma fresh_read_here {A} (rd : heap num -> option A) n h v :
  fresh_read rd n h v -> rd h = Some v.
Proof. intros Hf. apply Hf, agree_refl. Qed.

Lemma fresh_read_mono {A} (rd : heap num -> option A) n m h v :
  m <= n -> fresh_read rd n h v -> fresh_read rd m h v.
Proof. intros Hnm Hf h2 Ha. apply Hf. eapply agree_mono; eauto. Qed.

Lemma nth_error_ext h ext l o :
  nth_error h l = Some o -> nth_error (h ++ ext) l = Some o.
Proof.
  intros Hl. rewrite nth_error_app1; auto.
  apply nth_error_Some. congruence.
Qed.

Lemma lookupLandmark_ext h ext l v :
  lookupLandmark h l = Some v -> lookupLandmark (h ++ ext) l = Some v.
Proof.
  unfold lookupLandmark. destruct (nth_error h l) as [o|] eqn:E; [|discriminate].
  erewrite nth_error_ext by eauto. auto.
Qed.

Lemma lookupArray_ext h ext l v :
  lookupArray h l = Some v -> lookupArray (h ++ ext) l = Some v.
Proof.
  unfold lookupArray. destruct (nth_error h l) as [o|] eqn:E; [|discriminate].
  erewrite nth_error_ext by eauto. auto.
Qed.

Lemma lookupFrame_ext h ext l v :
  lookupFrame h l = Some v -> lookupFrame (h ++ ext) l = Some v.
Proof.
  unfold lookupFrame. destruct (nth_error h l) as [o|] eqn:E; [|discriminate].
  erewrite nth_error_ext by eauto. auto.
Qed.

Lemma traverse_ext {A B} (f g : A -> option B) (ls : list A) vs :
  (forall a b, f a = Some b -> g a = Some b) ->
  traverse f ls = Some vs -> traverse g ls = Some vs.
Proof.
  intros Hfg. revert vs. induction ls as [|a ls IH]; intros vs; simpl; auto.
  destruct (f a) as [b|] eqn:Ea; [|discriminate].
  destruct (traverse f ls) as [r|]; [|discriminate].
  intros [= <-]. erewrite Hfg, IH by eauto. reflexivity.
Qed.

Lemma deep_landmarks_ext h ext ls vs :
  deep_landmarks h ls = Some vs -> deep_landmarks (h ++ ext) ls = Some vs.
Proof. apply traverse_ext. intros a b. apply lookupLandmark_ext. Qed.

Lemma deep_frame_ext h ext l v :
  deep_frame h l = Some v -> deep_frame (h ++ ext) l = Some v.
Proof.
  unfold deep_frame.
  destruct (lookupFrame h l) as [[ts a]|] eqn:Ef; [|discriminate].
  destruct (lookupArray h a) as [ls|] eqn:Ea; [|discriminate].
  destruct (deep_landmarks h ls) as [vs|] eqn:Ed; [|discriminate].
  intros [= <-].
  erewrite lookupFrame_ext by eauto. cbv beta iota.
  erewrite lookupArray_ext by eauto.
  erewrite deep_landmarks_ext by eauto.
  reflexivity.
Qed.

Lemma deep_frames_list_ext h ext ls vs :
  traverse (deep_frame h) ls = Some vs -> traverse (deep_frame (h ++ ext)) ls = Some vs.
Proof. apply traverse_ext. intros a b. apply deep_frame_ext. Qed.

End StoreFacts.

(* ================================================================= *)
(** * The smoother refines its reading on values *)

Section MonadFacts.
Context {num : Type}.
Implicit Types (h : heap num).

Lemma bind_Some {A B} (c : M num A) (k : A -> M num B) h a h' :
  c h = Some (a, h') -> bind c k h = k a h'.
Proof. unfold bind. now intros ->. Qed.

Lemma bind_None {A B} (c : M num A) (k : A -> M num B) h :
  c h = None -> bind c k h = None.
Proof. unfold bind. now intros ->. Qed.

Lemma readLandmark_Some h l v :
  lookupLandmark h l = Some v -> readLandmark l h = Some (v, h).
Proof. unfold readLandmark, liftRead. now intros ->. Qed.

Lemma readArray_Some h l v :
  lookupArray h l = Some v -> readArray l h = Some (v, h).
Proof. unfold readArray, liftRead. now intros ->. Qed.

Lemma readFrame_Some h l v :
  lookupFrame h l = Some v -> readFrame l h = Some (v, h).
Proof. unfold readFrame, liftRead. now intros ->. Qed.

Lemma lookup_alloc h (o : obj num) ext :
  nth_error ((h ++ [o]) ++ ext) (length h) = Some o.
Proof.
  rewrite <- app_assoc. rewrite nth_error_app2 by lia.
  now rewrite Nat.sub_diag.
Qed.
End MonadFacts.

Section SmoothingFacts.
Context {num : Type} `{JSNumber num}.
Variable alpha : num.
Implicit Types (h : heap num).

Lemma deep_landmarks_cons h l ls vs :
  deep_landmarks h (l :: ls) = Some vs ->
  exists v vs', vs = v :: vs' /\ lookupLandmark h l = Some v /\
                deep_landmarks h ls = Some vs'.
Proof.
  unfold deep_landmarks. simpl.
  destruct (lookupLandmark h l) as [v|]; [|discriminate].
  destruct (traverse (lookupLandmark h) ls) as [r|]; [|discriminate].
  intros [= <-]. eauto.
Qed.

Lemma fresh_read_cons h n l v ls vs :
  n <= l -> l < length h -> lookupLandmark h l = Some v ->
  fresh_read (fun h' => deep_landmarks h' ls) n h vs ->
  fresh_read (fun h' => deep_landmarks h' (l :: ls)) n h (v :: vs).
Proof.
  intros Hn Hl Hv Hf h2 Ha.
  assert (Hv2 : lookupLandmark h2 l = Some v).
  { unfold lookupLandmark in *. now rewrite (Ha l Hn Hl). }
  unfold deep_landmarks. cbn [traverse]. rewrite Hv2.
  change (traverse (lookupLandmark h2) ls) with (deep_landmarks h2 ls).
  now rewrite (Hf h2 Ha).
Qed.

(** A landmark allocated on top of [h] and followed by fresh ones. *)
Lemma fresh_read_alloc h v ext ls vs :
  fresh_read (fun h' => deep_landmarks h' ls) (length (h ++ [OLandmark v]))
             ((h ++ [OLandmark v]) ++ ext) vs ->
  fresh_read (fun h' => deep_landmarks h' (length h :: ls)) (length h)
             ((h ++ [OLandmark v]) ++ ext) (v :: vs).
Proof.
  intros Hfr. apply fresh_read_cons.
  - lia.
  - rewrite !length_app. simpl. lia.
  - unfold lookupLandmark. now rewrite lookup_alloc.
  - eapply fresh_read_mono; [|exact Hfr]. rewrite length_app. simpl. lia.
Qed.

Lemma mapM_copy_spec ls : forall h vs,
  deep_landmarks h ls = Some vs ->
  exists copies ext,
    mapM copyLandmark ls h = Some (copies, h ++ ext) /\
    fresh_read (fun h' => deep_landmarks h' copies) (length h) (h ++ ext) vs.
Proof.
  induction ls as [|l ls IH]; intros h vs Hd.
  - injection Hd as <-. exists [], []. split.
    + simpl. unfold ret. now rewrite app_nil_r.
    + intros h2 _. reflexivity.
  - apply deep_landmarks_cons in Hd. destruct Hd as (v & vs' & -> & Hv & Hd).
    destruct (IH (h ++ [OLandmark v]) vs') as (copies & ext & Hrun & Hfr).
    { now apply deep_landmarks_ext. }
    exists (length h :: copies), ([OLandmark v] ++ ext). split.
    + cbn [mapM]. unfold copyLandmark at 1.
      erewrite bind_Some; cycle 1.
      { erewrite bind_Some by (apply readLandmark_Some; eauto). reflexivity. }
      erewrite bind_Some by eauto. unfold ret. now rewrite <- app_assoc.
    + rewrite app_assoc. now apply fresh_read_alloc.
Qed.

Lemma smoothInner_spec currs : forall prevs h cv pv sv,
  deep_landmarks h currs = Some cv ->
  deep_landmarks h prevs = Some pv ->
  smoothLandmarks alpha cv pv = Some sv ->
  exists sm ext,
    smoothInner alpha currs prevs h = Some (sm, h ++ ext) /\
    fresh_read (fun h' => deep_landmarks h' sm) (length h) (h ++ ext) sv.
Proof.
  induction currs as [|c cs IH]; intros prevs h cv pv sv Hc Hp Hs.
  - injection Hc as <-. simpl in Hs. injection Hs as <-.
    exists [], []. split.
    + simpl. unfold ret. now rewrite app_nil_r.
    + intros h2 _. reflexivity.
  - apply deep_landmarks_cons in Hc. destruct Hc as (c0 & cv' & -> & Hc0 & Hc).
    destruct prevs as [|p ps].
    { injection Hp as <-. discriminate. }
    apply deep_landmarks_cons in Hp. destruct Hp as (p0 & pv' & -> & Hp0 & Hp).
    simpl in Hs.
    destruct (smoothLandmarks alpha cv' pv') as [r|] eqn:Er; [|discriminate].
    injection Hs as <-.
    set (o := OLandmark (smoothLandmark alpha c0 p0)).
    destruct (IH ps (h ++ [o]) cv' pv' r) as (sm & ext & Hrun & Hfr); auto.
    { now apply deep_landmarks_ext. }
    { now apply deep_landmarks_ext. }
    exists (length h :: sm), ([o] ++ ext). split.
    + cbn [smoothInner].
      erewrite bind_Some by (apply readLandmark_Some; eauto).
      erewrite bind_Some by (apply readLandmark_Some; eauto).
      erewrite bind_Some by reflexivity.
      erewrite bind_Some by eauto. unfold ret. now rewrite <- app_assoc.
    + rewrite app_assoc. now apply fresh_read_alloc.
Qed.

Lemma smoothInner_fails currs : forall prevs h cv pv,
  deep_landmarks h currs = Some cv ->
  deep_landmarks h prevs = Some pv ->
  smoothLandmarks alpha cv pv = None ->
  smoothInner alpha currs prevs h = None.
Proof.
  induction currs as [|c cs IH]; intros prevs h cv pv Hc Hp Hs.
  - injection Hc as <-. discriminate.
  - apply deep_landmarks_cons in Hc. destruct Hc as (c0 & cv' & -> & Hc0 & Hc).
    destruct prevs as [|p ps]; [reflexivity|].
    apply deep_landmarks_cons in Hp. destruct Hp as (p0 & pv' & -> & Hp0 & Hp).
    simpl in Hs.
    destruct (smoothLandmarks alpha cv' pv') as [r|] eqn:Er; [discriminate|].
    cbn [smoothInner].
    erewrite bind_Some by (apply readLandmark_Some; eauto).
    erewrite bind_Some by (apply readLandmark_Some; eauto).
    erewrite bind_Some by reflexivity.
    apply bind_None. eapply IH; eauto using deep_landmarks_ext.
Qed.

Lemma deep_frame_inv h f fv :
  deep_frame h f = Some fv ->
  exists a ls, lookupFrame h f = Some (timestamp fv, a) /\
               lookupArray h a = Some ls /\
               deep_landmarks h ls = Some (landmarks fv).
Proof.
  unfold deep_frame.
  destruct (lookupFrame h f) as [[ts a]|]; [|discriminate].
  destruct (lookupArray h a) as [ls|] eqn:Ea; [|discriminate].
  destruct (deep_landmarks h ls) as [vs|] eqn:Ed; [|discriminate].
  intros [= <-]. simpl. eauto.
Qed.

Lemma deep_frame_intro h f ts a ls vs :
  lookupFrame h f = Some (ts, a) -> lookupArray h a = Some ls ->
  deep_landmarks h ls = Some vs -> deep_frame h f = Some (mkFrame ts vs).
Proof. unfold deep_frame. now intros -> -> ->. Qed.

Lemma traverse_cons_inv {A B} (f : A -> option B) a l vs :
  traverse f (a :: l) = Some vs ->
  exists b r, vs = b :: r /\ f a = Some b /\ traverse f l = Some r.
Proof.
  simpl. destruct (f a) as [b|]; [|discriminate].
  destruct (traverse f l) as [r|]; [|discriminate].
  intros [= <-]. eauto.
Qed.

(** A frame allocated on top of a new array of fresh landmarks. *)
Lemma fresh_frame h ext1 sm sv ts ext2 :
  fresh_read (fun h' => deep_landmarks h' sm) (length h) (h ++ ext1) sv ->
  let h1 := h ++ ext1 in
  let h2 := h1 ++ [OArray sm] in
  let h3 := h2 ++ [OFrame ts (length h1)] in
  fresh_read (fun h' => deep_frame h' (length h2)) (length h) (h3 ++ ext2)
             (mkFrame ts sv).
Proof.
  intros Hfr h1 h2 h3 h' Ha.
  assert (Hlen1 : length h <= length h1) by (unfold h1; rewrite length_app; lia).
  assert (Hlen2 : length h2 = S (length h1)).
  { unfold h2. rewrite length_app. simpl. lia. }
  assert (Hlen3 : length h3 = S (length h2)).
  { unfold h3. rewrite length_app. simpl. lia. }
  apply deep_frame_intro with (a := length h1) (ls := sm).
  - unfold lookupFrame. rewrite Ha.
    + unfold h3. now rewrite lookup_alloc.
    + lia.
    + rewrite length_app. lia.
  - unfold lookupArray. rewrite Ha.
    + unfold h3. rewrite <- app_assoc. unfold h2. now rewrite lookup_alloc.
    + lia.
    + rewrite length_app. lia.
  - apply Hfr. unfold h3, h2, h1 in Ha.
    do 3 apply agree_app in Ha. exact Ha.
Qed.

Lemma smoothOuter_spec rest : forall previousLandmarks h fvals prevs pv outv,
  traverse (deep_frame h) rest = Some fvals ->
  lookupArray h previousLandmarks = Some prevs ->
  deep_landmarks h prevs = Some pv ->
  smoothLoop alpha fvals pv = Some outv ->
  exists outs ext,
    smoothOuter alpha rest previousLandmarks h = Some (outs, h ++ ext) /\
    fresh_read (fun h' => traverse (deep_frame h') outs) (length h) (h ++ ext) outv.
Proof.
  induction rest as [|f fs IH]; intros pl h fvals prevs pv outv Hfs Hpl Hpv Hloop.
  - injection Hfs as <-. simpl in Hloop. injection Hloop as <-.
    exists [], []. split.
    + simpl. unfold ret. now rewrite app_nil_r.
    + intros h2 _. reflexivity.
  - apply traverse_cons_inv in Hfs. destruct Hfs as (fv & fvs & -> & Hf & Hfs).
    destruct (deep_frame_inv _ _ Hf) as (a & currs & Hfa & Ha & Hcv).
    simpl in Hloop.
    destruct (smoothLandmarks alpha (landmarks fv) pv) as [sv|] eqn:Esv; [|discriminate].
    destruct (smoothLoop alpha fvs sv) as [r|] eqn:Er; [|discriminate].
    injection Hloop as <-.
    destruct (smoothInner_spec _ _ _ Hcv Hpv Esv) as (sm & ext1 & Hinner & Hfr1).
    set (h1 := h ++ ext1) in *.
    set (h2 := h1 ++ [OArray sm]).
    set (h3 := h2 ++ [OFrame (timestamp fv) (length h1)]).
    destruct (IH (length h1) h3 fvs sm sv r) as (outs & ext2 & Hrec & Hfr2); auto.
    { unfold h3, h2, h1. rewrite <- !app_assoc. now apply deep_frames_list_ext. }
    { unfold lookupArray, h3, h2. now rewrite lookup_alloc. }
    { unfold h3, h2. rewrite <- app_assoc. apply deep_landmarks_ext.
      apply (fresh_read_here Hfr1). }
    exists (length h2 :: outs),
      (ext1 ++ [OArray sm] ++ [OFrame (timestamp fv) (length h1)] ++ ext2).
    assert (Hfinal : h ++ ext1 ++ [OArray sm] ++ [OFrame (timestamp fv) (length h1)] ++ ext2
                     = h3 ++ ext2).
    { unfold h3, h2, h1. now rewrite <- !app_assoc. }
    split.
    + cbn [smoothOuter].
      erewrite bind_Some by (apply readFrame_Some; eauto). cbv beta iota.
      erewrite bind_Some by (apply readArray_Some; eauto).
      erewrite bind_Some by (apply readArray_Some; eauto).
      erewrite bind_Some by eauto.
      erewrite bind_Some by reflexivity.
      erewrite bind_Some by reflexivity.
      fold h1 h2 h3.
      erewrite bind_Some by eauto. unfold ret. now rewrite Hfinal.
    + rewrite Hfinal. intros h' Ha'. cbn [traverse].
      assert (Hlen : length h <= length h3).
      { unfold h3, h2, h1. rewrite !length_app. lia. }
      rewrite (Hfr2 h' (agree_mono Hlen Ha')).
      subst h3 h2 h1.
      pose proof (@fresh_frame h ext1 sm sv (timestamp fv) ext2 Hfr1) as Hff.
      cbv zeta in Hff. rewrite (Hff h' Ha'). reflexivity.
Qed.

Lemma smoothOuter_fails rest : forall previousLandmarks h fvals prevs pv,
  traverse (deep_frame h) rest = Some fvals ->
  lookupArray h previousLandmarks = Some prevs ->
  deep_landmarks h prevs = Some pv ->
  smoothLoop alpha fvals pv = None ->
  smoothOuter alpha rest previousLandmarks h = None.
Proof.
  induction rest as [|f fs IH]; intros pl h fvals prevs pv Hfs Hpl Hpv Hloop.
  - injection Hfs as <-. discriminate.
  - apply traverse_cons_inv in Hfs. destruct Hfs as (fv & fvs & -> & Hf & Hfs).
    destruct (deep_frame_inv _ _ Hf) as (a & currs & Hfa & Ha & Hcv).
    simpl in Hloop. cbn [smoothOuter].
    erewrite bind_Some by (apply readFrame_Some; eauto). cbv beta iota.
    erewrite bind_Some by (apply readArray_Some; eauto).
    erewrite bind_Some by (apply readArray_Some; eauto).
    destruct (smoothLandmarks alpha (landmarks fv) pv) as [sv|] eqn:Esv.
    + destruct (smoothLoop alpha fvs sv) as [r|] eqn:Er; [discriminate|].
      destruct (smoothInner_spec _ _ _ Hcv Hpv Esv) as (sm & ext1 & Hinner & Hfr1).
      erewrite bind_Some by eauto.
      erewrite bind_Some by reflexivity.
      erewrite bind_Some by reflexivity.
      apply bind_None. eapply IH with (prevs := sm) (pv := sv); eauto.
      * rewrite <- !app_assoc. now apply deep_frames_list_ext.
      * unfold lookupArray. now rewrite lookup_alloc.
      * rewrite <- app_assoc. apply deep_landmarks_ext. apply (fresh_read_here Hfr1).
    + apply bind_None. eapply smoothInner_fails; eauto.
Qed.

(** The call on the store computes what [smoothValues] computes on the
    values, throws exactly when it does, leaves every object of the
    input in place, and its result is read without looking at any
    location that existed before the call. *)
Lemma smoothFrames_refines h frames fs :
  deep_frames h frames = Some fs ->
  match smoothValues fs alpha with
  | Some sv =>
    exists out ext,
      smoothFrames frames alpha h = Some (out, h ++ ext) /\
      fresh_read (fun h' => deep_frames h' out) (length h) (h ++ ext) sv
  | None => smoothFrames frames alpha h = None
  end.
Proof.
  unfold deep_frames.
  destruct (lookupArray h frames) as [fl|] eqn:Efl; [|discriminate].
  intros Hfs. unfold smoothFrames.
  erewrite bind_Some by (apply readArray_Some; eauto).
  destruct fl as [|f0 rest].
  - injection Hfs as <-. simpl.
    exists (length h), [OArray []]. split; [reflexivity|].
    intros h' Ha. unfold lookupArray. rewrite Ha.
    + rewrite nth_error_app2 by lia. now rewrite Nat.sub_diag.
    + lia.
    + rewrite length_app. simpl. lia.
  - apply traverse_cons_inv in Hfs. destruct Hfs as (fv & fvs & -> & Hf & Hfs).
    destruct (deep_frame_inv _ _ Hf) as (a & ls & Hfa & Ha & Hvs).
    destruct (mapM_copy_spec _ _ Hvs) as (copies & ext1 & Hcopy & Hfr1).
    erewrite bind_Some by (apply readFrame_Some; eauto). cbv beta iota.
    erewrite bind_Some by (apply readArray_Some; eauto).
    erewrite bind_Some by eauto.
    erewrite bind_Some by reflexivity.
    erewrite bind_Some by reflexivity.
    set (h1 := h ++ ext1) in *.
    set (h2 := h1 ++ [OArray copies]).
    set (h3 := h2 ++ [OFrame (timestamp fv) (length h1)]).
    assert (Hrest : traverse (deep_frame h3) rest = Some fvs).
    { unfold h3, h2, h1. rewrite <- !app_assoc. now apply deep_frames_list_ext. }
    assert (Hpl : lookupArray h3 (length h1) = Some copies).
    { unfold lookupArray, h3, h2. now rewrite lookup_alloc. }
    assert (Hpv : deep_landmarks h3 copies = Some (landmarks fv)).
    { unfold h3, h2. rewrite <- app_assoc. apply deep_landmarks_ext.
      apply (fresh_read_here Hfr1). }
    cbn [smoothValues].
    destruct (smoothLoop alpha fvs (landmarks fv)) as [r|] eqn:Er.
    + destruct (@smoothOuter_spec rest (length h1) h3 fvs copies (landmarks fv) r
                  Hrest Hpl Hpv Er) as (outs & ext2 & Hrun & Hfr2).
      erewrite bind_Some by eauto.
      set (res := @OArray num (length h2 :: outs)).
      exists (length (h3 ++ ext2)),
        (ext1 ++ [OArray copies] ++ [OFrame (timestamp fv) (length h1)] ++ ext2 ++ [res]).
      assert (Hfinal : h ++ ext1 ++ [OArray copies]
                         ++ [OFrame (timestamp fv) (length h1)] ++ ext2 ++ [res]
                       = (h3 ++ ext2) ++ [res]).
      { unfold h3, h2, h1. now rewrite <- !app_assoc. }
      split.
      * unfold alloc. now rewrite Hfinal.
      * rewrite Hfinal. intros h' Ha'.
        assert (Hlen : length h <= length h3).
        { unfold h3, h2, h1. rewrite !length_app. lia. }
        unfold lookupArray. rewrite Ha'.
        2:{ rewrite length_app. lia. }
        2:{ rewrite !length_app. simpl. lia. }
        rewrite nth_error_app2 by lia. rewrite Nat.sub_diag. cbn [nth_error res].
        cbn [traverse].
        apply agree_app in Ha'.
        rewrite (Hfr2 h' (agree_mono Hlen Ha')).
        subst h3 h2 h1.
        pose proof (@fresh_frame h ext1 copies (landmarks fv) (timestamp fv) ext2 Hfr1)
          as Hff.
        cbv zeta in Hff. rewrite (Hff h' Ha'). reflexivity.
    + apply bind_None. eapply smoothOuter_fails; eauto.
Qed.
End SmoothingFacts.

Section SmoothValuesFacts.
Context {num : Type} `{JSNumber num}.
Variable alpha : num.

Lemma smoothLandmarks_length cs : forall ps sm,
  smoothLandmarks alpha cs ps = Some sm -> length sm = length cs.
Proof.
  induction cs as [|c cs IH]; intros ps sm; simpl.
  - now intros [= <-].
  - destruct ps as [|p ps]; [discriminate|].
    destruct (smoothLandmarks alpha cs ps) as [r|] eqn:Er; [|discriminate].
    intros [= <-]. simpl. f_equal. eauto.
Qed.

Lemma smoothLandmarks_nth cs : forall ps sm j c,
  smoothLandmarks alpha cs ps = Some sm ->
  nth_error cs j = Some c ->
  exists p, nth_error ps j = Some p /\
            nth_error sm j = Some (smoothLandmark alpha c p).
Proof.
  induction cs as [|c0 cs IH]; intros ps sm j c; simpl.
  - intros _ Hj. destruct j; discriminate.
  - destruct ps as [|p ps]; [discriminate|].
    destruct (smoothLandmarks alpha cs ps) as [r|] eqn:Er; [|discriminate].
    intros [= <-] Hj. destruct j as [|j]; simpl in *.
    + injection Hj as <-. eauto.
    + eapply IH; eauto.
Qed.

Lemma smoothLandmarks_total cs : forall ps,
  length cs <= length ps -> exists sm, smoothLandmarks alpha cs ps = Some sm.
Proof.
  induction cs as [|c cs IH]; intros ps Hlen; simpl.
  - eauto.
  - destruct ps as [|p ps]; simpl in Hlen; [lia|].
    destruct (IH ps) as [sm ->]; [lia|]. eauto.
Qed.

Lemma smoothLoop_length rest : forall prev out,
  smoothLoop alpha rest prev = Some out ->
  length out = length rest /\ map (@timestamp num) out = map (@timestamp num) rest.
Proof.
  induction rest as [|f fs IH]; intros prev out; simpl.
  - intros [= <-]. auto.
  - destruct (smoothLandmarks alpha (landmarks f) prev) as [sm|]; [|discriminate].
    destruct (smoothLoop alpha fs sm) as [r|] eqn:Er; [|discriminate].
    intros [= <-]. destruct (IH _ _ Er) as [Hl Ht]. simpl. split; congruence.
Qed.

(** Every frame of the loop is the smoothing of the raw frame against
    the frame emitted just before it. *)
Lemma smoothLoop_step rest : forall prevf out i cur,
  smoothLoop alpha rest (landmarks prevf) = Some out ->
  nth_error rest i = Some cur ->
  exists p sm,
    nth_error (prevf :: out) i = Some p /\
    smoothLandmarks alpha (landmarks cur) (landmarks p) = Some sm /\
    nth_error out i = Some (mkFrame (timestamp cur) sm).
Proof.
  induction rest as [|f fs IH]; intros prevf out i cur; simpl.
  - intros _ Hi. destruct i; discriminate.
  - destruct (smoothLandmarks alpha (landmarks f) (landmarks prevf)) as [sm|] eqn:Es;
      [|discriminate].
    destruct (smoothLoop alpha fs sm) as [r|] eqn:Er; [|discriminate].
    intros [= <-] Hi. destruct i as [|i]; simpl in *.
    + injection Hi as <-. eauto.
    + apply (IH (mkFrame (timestamp f) sm) r i cur Er Hi).
Qed.

Lemma smoothLoop_total rest : forall prev,
  (forall f, In f rest -> length (landmarks f) = length prev) ->
  exists out, smoothLoop alpha rest prev = Some out.
Proof.
  induction rest as [|f fs IH]; intros prev Hu; simpl.
  - eauto.
  - destruct (@smoothLandmarks_total (landmarks f) prev) as [sm Hsm].
    { rewrite (Hu f); auto. now left. }
    rewrite Hsm. destruct (IH sm) as [r ->]; eauto.
    intros g Hg. rewrite (smoothLandmarks_length _ _ Hsm).
    rewrite (Hu g), (Hu f); auto; [now left | now right].
Qed.

Lemma smoothValues_step frames out i cur :
  smoothValues frames alpha = Some out ->
  nth_error frames (S i) = Some cur ->
  exists prev sm,
    nth_error out i = Some prev /\
    smoothLandmarks alpha (landmarks cur) (landmarks prev) = Some sm /\
    nth_error out (S i) = Some (mkFrame (timestamp cur) sm).
Proof.
  destruct frames as [|f0 rest]; simpl; [intros _ [=]|].
  destruct (smoothLoop alpha rest (landmarks f0)) as [r|] eqn:Er; [|discriminate].
  intros [= <-] Hi.
  apply (@smoothLoop_step rest (mkFrame (timestamp f0) (landmarks f0)) r i cur Er Hi).
Qed.

Lemma smoothValues_shape frames out :
  smoothValues frames alpha = Some out ->
  length out = length frames /\
  map (@timestamp num) out = map (@timestamp num) frames /\
  nth_error out 0 = nth_error frames 0.
Proof.
  destruct frames as [|f0 rest]; simpl.
  - intros [= <-]. auto.
  - destruct (smoothLoop alpha rest (landmarks f0)) as [r|] eqn:Er; [|discriminate].
    intros [= <-]. destruct (smoothLoop_length _ _ Er) as [Hl Ht].
    simpl. repeat split; try congruence. now destruct f0.
Qed.

Lemma smoothValues_total frames :
  (forall f g, In f frames -> In g frames ->
               length (landmarks f) = length (landmarks g)) ->
  exists out, smoothValues frames alpha = Some out.
Proof.
  destruct frames as [|f0 rest]; simpl; intros Hu; [eauto|].
  destruct (@smoothLoop_total rest (landmarks f0)) as [r ->]; eauto.
Qed.
End SmoothValuesFacts.

(* ================================================================= *)
(** * Statements of the specification: the smoother *)

(** C4: on a store that holds a non-empty sequence of frames of one
    landmark count, [smoothFrames] returns, for any [alpha], a new array
    of as many frames with the same timestamps.  The input is left as it
    was ([h ++ ext]), the first output frame has the value of the first
    input frame, and the whole result is read from locations allocated by
    the call, so that no later mutation of an object of the input changes
    it.  Every later output landmark is
    [alpha * raw_current + (1 - alpha) * smoothed_previous] on each axis,
    where [smoothed_previous] is the landmark of the frame emitted just
    before, and carries the visibility of the current raw sample. *)
Theorem smoothFrames_contract {num : Type} `{JSNumber num}
        (alpha : num) (h : heap num) (frames : loc) (fs : list (MocapFrame num)) :
  deep_frames h frames = Some fs ->
  fs <> [] ->
  (forall f g, In f fs -> In g fs -> length (landmarks f) = length (landmarks g)) ->
  exists out ext sv,
    smoothFrames frames alpha h = Some (out, h ++ ext) /\
    deep_frames (h ++ ext) out = Some sv /\
    length sv = length fs /\
    map (@timestamp num) sv = map (@timestamp num) fs /\
    nth_error sv 0 = nth_error fs 0 /\
    (forall h', agree (length h) (h ++ ext) h' -> deep_frames h' out = Some sv) /\
    (forall i cur,
        nth_error fs (S i) = Some cur ->
        exists prev s,
          nth_error sv i = Some prev /\
          nth_error sv (S i) = Some s /\
          timestamp s = timestamp cur /\
          length (landmarks s) = length (landmarks cur) /\
          forall j c,
            nth_error (landmarks cur) j = Some c ->
            exists p o,
              nth_error (landmarks prev) j = Some p /\
              nth_error (landmarks s) j = Some o /\
              lx o = (alpha * lx c + (of_Z 1 - alpha) * lx p)%js /\
              ly o = (alpha * ly c + (of_Z 1 - alpha) * ly p)%js /\
              lz o = (alpha * lz c + (of_Z 1 - alpha) * lz p)%js /\
              visibility o = visibility c).
Proof.
  intros Hdeep Hne Hu.
  pose proof (@smoothFrames_refines num _ alpha h frames fs Hdeep) as Href.
  destruct (@smoothValues_total num _ alpha fs Hu) as [sv Hsv]. rewrite Hsv in Href.
  destruct Href as (out & ext & Hrun & Hfr).
  destruct (@smoothValues_shape num _ alpha fs sv Hsv) as (Hlen & Hts & Hfirst).
  exists out, ext, sv. repeat split; auto.
  - apply (fresh_read_here Hfr).
  - intros i cur Hcur.
    destruct (@smoothValues_step num _ alpha fs sv i cur Hsv Hcur) as (prev & sm & Hprev & Hsm & Hs).
    exists prev, (mkFrame (timestamp cur) sm). repeat split; auto.
    + simpl. eapply smoothLandmarks_length; eauto.
    + intros j c Hc.
      destruct (@smoothLandmarks_nth num _ alpha _ _ _ _ _ Hsm Hc) as (p & Hp & Ho).
      exists p, (smoothLandmark alpha c p). simpl. repeat split; auto.
Qed.

Lemma smoothFrames_contract_witness :
  exists out ext sv,
    smoothFrames 6 (1 # 2)%Q (two_frames 0 1) = Some (out, two_frames 0 1 ++ ext) /\
    deep_frames (two_frames 0 1 ++ ext) out = Some sv /\
    length sv = 2.
Proof.
  destruct (@smoothFrames_contract Q _ (1 # 2)%Q (two_frames 0 1) 6
              [mkFrame 0%Q [mkLandmark 0%Q 0%Q 0%Q None];
               mkFrame (1 # 30)%Q [mkLandmark 1%Q 1%Q 1%Q (Some 1%Q)]])
    as (out & ext & sv & Hrun & Hread & Hlen & _).
  - reflexivity.
  - discriminate.
  - intros f g [<-|[<-|[]]] [<-|[<-|[]]]; reflexivity.
  - exists out, ext, sv. auto.
Defined.

Section Between.
Variable alpha : Q.
Hypothesis alpha_pos : (0 < alpha)%Q.
Hypothesis alpha_lt_1 : (alpha < 1)%Q.

End Between.




Unset Implicit Arguments.

(* ================================================================= *)
(** * Loops that may throw, and dictionaries *)

Section CompletionFacts.
Context {A B S : Type}.

Lemma mapC_Normal (f : A -> completion B) (l : list A) :
  (forall a, In a l -> exists b, f a = Normal b) ->
  exists r, mapC f l = Normal r /\ Forall2 (fun a b => f a = Normal b) l r.
Proof.
  induction l as [|a l IH]; intros Hf; simpl.
  - eauto.
  - destruct (Hf a) as [b Hb]; [now left|].
    destruct IH as (r & Hr & Hall); [intros; apply Hf; now right|].
    rewrite Hb, Hr. simpl. eauto.
Qed.

End CompletionFacts.

Section LookupFacts.
Context {A : Type}.
Implicit Types (d : list (string * A)) (k : string).

Lemma lookup_In d k v : lookup d k = Some v -> In (k, v) d.
Proof.
  induction d as [|[k' v'] d IH]; simpl; [discriminate|].
  destruct (String.eqb k' k) eqn:E.
  - apply String.eqb_eq in E. intros [= <-]. left. now subst.
  - intros Hl. right. auto.
Qed.

Lemma lookup_keys d k : In k (map fst d) -> exists v, lookup d k = Some v.
Proof.
  induction d as [|[k' v'] d IH]; simpl; [intros []|].
  destruct (String.eqb k' k) eqn:E; [eauto|].
  intros [Hk|Hk]; [|auto].
  apply String.eqb_neq in E. contradiction.
Qed.

End LookupFacts.

(* ================================================================= *)
(** * The rotation exporter *)

Section FBXFacts.
Context {num : Type} {NumOps : JSNumber num} {MathOps : JSMath num}.
Implicit Types (td : FBX.TracksData (num:=num)) (k : string).

Lemma boneNames_NoDup : NoDup FBX.boneNames.
Proof.
  unfold FBX.boneNames, FBX.boneMap. simpl.
  repeat (constructor; [simpl; intuition discriminate|]). constructor.
Qed.

Lemma keys_update td k f : map fst (FBX.update td k f) = map fst td.
Proof.
  induction td as [|[k' v] td IH]; simpl; auto.
  destruct (String.eqb k' k); simpl; congruence.
Qed.

Lemma lookup_update_same td k f t :
  lookup td k = Some t -> lookup (FBX.update td k f) k = Some (f t).
Proof.
  induction td as [|[k' v] td IH]; simpl; [discriminate|].
  destruct (String.eqb k' k) eqn:E; simpl; rewrite E; auto.
  now intros [= ->].
Qed.

Lemma lookup_update_other td k k' f :
  k <> k' -> lookup (FBX.update td k f) k' = lookup td k'.
Proof.
  intros Hne. induction td as [|[k0 v] td IH]; simpl; auto.
  destruct (String.eqb k0 k) eqn:E; simpl.
  - apply String.eqb_eq in E. subst k0.
    now rewrite (proj2 (String.eqb_neq k k') Hne).
  - destruct (String.eqb k0 k'); auto.
Qed.

Lemma getVec_total (lm : list (Landmark3D num)) (idx : Z) :
  (0 <= idx)%Z -> Z.to_nat idx < length lm ->
  exists v, FBX.getVec lm idx = Normal v.
Proof.
  intros H0 Hlt. unfold FBX.getVec, js_index.
  destruct (idx <? 0)%Z eqn:E; [apply Z.ltb_lt in E; lia|].
  destruct (nth_error lm (Z.to_nat idx)) eqn:En.
  - simpl. eauto.
  - apply nth_error_None in En. lia.
Qed.

Lemma positions_total (lm : list (Landmark3D num)) :
  29 <= length lm ->
  exists pos, FBX.positions lm = Normal pos /\ map fst pos = FBX.boneNames.
Proof.
  intros Hlen. unfold FBX.positions.
  repeat match goal with
         | |- context [FBX.getVec lm ?i] =>
           let v := fresh "v" in
           let Hv := fresh "Hv" in
           destruct (@getVec_total lm i) as [v Hv];
           [ unfold i; lia | unfold i; simpl; lia | rewrite Hv; cbn [cbind] ]
         end.
  eexists. split; [reflexivity|reflexivity].
Qed.

Lemma primaryChild_In boneName c :
  FBX.primaryChild boneName = Some c -> In (FBX.name c) FBX.boneNames.
Proof.
  unfold FBX.primaryChild. intros Hf. apply find_some in Hf.
  apply in_map. tauto.
Qed.

Lemma parent_In b p :
  In b FBX.boneMap -> FBX.parent b = Some p -> In p FBX.boneNames.
Proof.
  intros Hb Hp.
  assert (Hall : forallb (fun b => match FBX.parent b with
                                   | Some p => existsb (String.eqb p) FBX.boneNames
                                   | None => true
                                   end) FBX.boneMap = true) by reflexivity.
  rewrite forallb_forall in Hall. specialize (Hall b Hb). rewrite Hp in Hall.
  apply existsb_exists in Hall. destruct Hall as (k & Hk & E).
  apply String.eqb_eq in E. now subst.
Qed.

Lemma globalQuat_total pos b :
  map fst pos = FBX.boneNames -> In b FBX.boneMap ->
  exists q, FBX.globalQuat pos b = Normal q.
Proof.
  intros Hkeys Hb. unfold FBX.globalQuat.
  destruct (FBX.primaryChild (FBX.name b)) as [c|] eqn:Ec; [|eauto].
  destruct (@lookup_keys _ pos (FBX.name c)) as [pc ->].
  { rewrite Hkeys. eapply primaryChild_In; eauto. }
  destruct (@lookup_keys _ pos (FBX.name b)) as [pb ->].
  { rewrite Hkeys. now apply in_map. }
  simpl. eauto.
Qed.

(** A dictionary filled in one pass over bones of distinct names. *)
Lemma mapC_named {V} (F : FBX.BoneSpec -> completion V) (bones : list FBX.BoneSpec) r :
  NoDup (map FBX.name bones) ->
  mapC (fun b => q <~ F b ;; Normal (FBX.name b, q)) bones = Normal r ->
  map fst r = map FBX.name bones /\
  forall b, In b bones -> exists q, F b = Normal q /\ lookup r (FBX.name b) = Some q.
Proof.
  revert r. induction bones as [|b0 bones IH]; intros r Hnd; simpl.
  - intros [= <-]. split; [reflexivity|intros b []].
  - destruct (F b0) as [q0|] eqn:E0; simpl; [|discriminate].
    destruct (mapC (fun b => q <~ F b;; Normal (FBX.name b, q)) bones) as [r'|] eqn:Er;
      simpl; [|discriminate].
    intros [= <-]. inversion Hnd as [|? ? Hnotin Hnd']; subst.
    destruct (IH r' Hnd' eq_refl) as [Hk Hl]. split.
    + simpl. now rewrite Hk.
    + intros b [<-|Hb].
      * exists q0. split; auto. simpl. now rewrite String.eqb_refl.
      * destruct (Hl b Hb) as (q & Hq & Hlq). exists q. split; auto.
        simpl. destruct (String.eqb (FBX.name b0) (FBX.name b)) eqn:E; auto.
        apply String.eqb_eq in E. exfalso. apply Hnotin. rewrite E.
        now apply in_map.
Qed.

Lemma globalQuats_spec pos :
  map fst pos = FBX.boneNames ->
  exists gq,
    FBX.globalQuats pos = Normal gq /\
    map fst gq = FBX.boneNames /\
    forall b, In b FBX.boneMap ->
              exists q, FBX.globalQuat pos b = Normal q /\
                        lookup gq (FBX.name b) = Some q.
Proof.
  intros Hkeys. unfold FBX.globalQuats.
  destruct (@mapC_Normal _ _ (fun b => q <~ FBX.globalQuat pos b ;; Normal (FBX.name b, q))
                         FBX.boneMap) as (gq & Hgq & _).
  { intros b Hb. destruct (@globalQuat_total pos b Hkeys Hb) as [q ->]. simpl. eauto. }
  exists gq. split; auto.
  apply (@mapC_named _ (FBX.globalQuat pos) FBX.boneMap gq boneNames_NoDup Hgq).
Qed.

Lemma localQuat_total gq b :
  map fst gq = FBX.boneNames -> In b FBX.boneMap ->
  exists q, FBX.localQuat gq b = Normal q.
Proof.
  intros Hkeys Hb. unfold FBX.localQuat.
  destruct (@lookup_keys _ gq (FBX.name b)) as [g ->].
  { rewrite Hkeys. now apply in_map. }
  simpl. destruct (FBX.parent b) as [p|] eqn:Ep; [|eauto].
  destruct (@lookup_keys _ gq p) as [pg ->].
  { rewrite Hkeys. eapply parent_In; eauto. }
  simpl. eauto.
Qed.

(** The third loop extends [rot] of every bone it visits by the values
    of its local rotation and leaves everything else as it was. *)
Lemma foldC_pushLocal gq (bones : list FBX.BoneSpec) : forall td,
  NoDup (map FBX.name bones) ->
  (forall b, In b bones -> In (FBX.name b) (map fst td)) ->
  (forall b, In b bones -> exists q, FBX.localQuat gq b = Normal q) ->
  exists td',
    foldC (FBX.pushLocal gq) bones td = Normal td' /\
    map fst td' = map fst td /\
    (forall k, ~ In k (map FBX.name bones) -> lookup td' k = lookup td k) /\
    (forall b t q, In b bones -> lookup td (FBX.name b) = Some t ->
                   FBX.localQuat gq b = Normal q ->
                   lookup td' (FBX.name b)
                   = Some (FBX.mkTrackData (FBX.pos t) (FBX.rot t ++ FBX.quatValues q))).
Proof.
  induction bones as [|b0 bones IH]; intros td Hnd Hkeys Hloc.
  - exists td. simpl. repeat split; auto. intros b t q [].
  - inversion Hnd as [|? ? Hnotin Hnd']; subst.
    destruct (Hloc b0) as [q0 Hq0]; [now left|].
    destruct (@lookup_keys _ td (FBX.name b0)) as [t0 Ht0]; [apply Hkeys; now left|].
    set (td1 := FBX.update td (FBX.name b0)
                  (fun t => FBX.mkTrackData (FBX.pos t) (FBX.rot t ++ FBX.quatValues q0))).
    assert (Hstep : FBX.pushLocal gq td b0 = Normal td1).
    { unfold FBX.pushLocal, FBX.pushRot. rewrite Hq0. simpl. rewrite Ht0. reflexivity. }
    destruct (IH td1 Hnd') as (td' & Hrun & Hk' & Hother & Hsame).
    { intros b Hb. unfold td1. rewrite keys_update. apply Hkeys. now right. }
    { intros b Hb. apply Hloc. now right. }
    exists td'. split; [simpl; now rewrite Hstep|].
    split; [rewrite Hk'; apply keys_update|].
    split.
    + intros k Hk. simpl in Hk. rewrite Hother by tauto.
      apply lookup_update_other. tauto.
    + intros b t q [<-|Hb] Ht Hq.
      * rewrite Hother by exact Hnotin. unfold td1.
        rewrite Hq0 in Hq. injection Hq as <-.
        erewrite lookup_update_same by exact Ht. reflexivity.
      * apply Hsame; auto. unfold td1. rewrite lookup_update_other; auto.
        intros E. apply Hnotin. rewrite E. now apply in_map.
Qed.

(** The first loop pushes the lifted position of the hips, once. *)
Lemma foldC_rootPosition pos td p t :
  lookup pos "mixamorig:Hips" = Some p ->
  lookup td "mixamorig:Hips" = Some t ->
  foldC (FBX.rootPosition pos) FBX.boneMap td
  = Normal (FBX.update td "mixamorig:Hips"
              (fun t => FBX.mkTrackData (FBX.pos t ++ FBX.hipsValues p) (FBX.rot t))).
Proof.
  intros Hp Ht. unfold FBX.boneMap. cbn [foldC].
  unfold FBX.rootPosition at 1. cbn [FBX.name]. rewrite String.eqb_refl.
  rewrite Hp. cbn [deref cbind]. unfold FBX.pushPos. rewrite Ht. cbn [deref cbind].
  reflexivity.
Qed.

Lemma hips_first : In "mixamorig:Hips"%string FBX.boneNames.
Proof. now left. Qed.

(** One frame: every bone's [rot] grows by the values of its local
    rotation, the root's [pos] by the lifted position of the hips. *)
Lemma processFrame_spec td (frame : MocapFrame num) :
  29 <= length (landmarks frame) ->
  map fst td = FBX.boneNames ->
  exists pos gq td' p,
    FBX.positions (landmarks frame) = Normal pos /\
    FBX.globalQuats pos = Normal gq /\
    lookup pos "mixamorig:Hips" = Some p /\
    FBX.processFrame td frame = Normal td' /\
    map fst td' = FBX.boneNames /\
    forall b t, In b FBX.boneMap -> lookup td (FBX.name b) = Some t ->
      exists q,
        FBX.localQuat gq b = Normal q /\
        lookup td' (FBX.name b)
        = Some (FBX.mkTrackData
                  (FBX.pos t ++ if String.eqb (FBX.name b) "mixamorig:Hips"
                                then FBX.hipsValues p else [])
                  (FBX.rot t ++ FBX.quatValues q)).
Proof.
  intros Hlen Hkeys.
  destruct (positions_total _ Hlen) as (pos & Hpos & Hpk).
  destruct (globalQuats_spec _ Hpk) as (gq & Hgq & Hgk & _).
  destruct (@lookup_keys _ pos "mixamorig:Hips") as [p Hp].
  { rewrite Hpk. apply hips_first. }
  destruct (@lookup_keys _ td "mixamorig:Hips") as [t0 Ht0].
  { rewrite Hkeys. apply hips_first. }
  set (td1 := FBX.update td "mixamorig:Hips"
                (fun t => FBX.mkTrackData (FBX.pos t ++ FBX.hipsValues p) (FBX.rot t))).
  destruct (@foldC_pushLocal gq FBX.boneMap td1) as (td' & Hrun & Hk' & _ & Hsame).
  { apply boneNames_NoDup. }
  { intros b Hb. unfold td1. rewrite keys_update, Hkeys. now apply in_map. }
  { intros b Hb. now apply localQuat_total. }
  exists pos, gq, td', p. repeat split; auto.
  - unfold FBX.processFrame. rewrite Hpos. cbn [cbind].
    rewrite (foldC_rootPosition _ _ _ _ Hp Ht0). cbn [cbind]. rewrite Hgq. cbn [cbind].
    exact Hrun.
  - rewrite Hk'. unfold td1. now rewrite keys_update.
  - intros b t Hb Ht.
    destruct (@localQuat_total gq b Hgk Hb) as [q Hq]. exists q. split; auto.
    destruct (String.eqb (FBX.name b) "mixamorig:Hips") eqn:E.
    + apply String.eqb_eq in E.
      rewrite (Hsame b (FBX.mkTrackData (FBX.pos t ++ FBX.hipsValues p) (FBX.rot t)) q);
        auto.
      unfold td1. rewrite E in *. erewrite lookup_update_same by exact Ht. reflexivity.
    + apply String.eqb_neq in E.
      rewrite (Hsame b t q); auto. rewrite app_nil_r. now destruct t.
      unfold td1. rewrite lookup_update_other; auto.
Qed.

(** All frames: [rot] holds four numbers per frame for every bone,
    [pos] three per frame for the root and none for the others. *)
Lemma foldC_processFrame (frames : list (MocapFrame num)) : forall td,
  map fst td = FBX.boneNames ->
  (forall f, In f frames -> 29 <= length (landmarks f)) ->
  exists td',
    foldC FBX.processFrame frames td = Normal td' /\
    map fst td' = FBX.boneNames /\
    forall b t, In b FBX.boneMap -> lookup td (FBX.name b) = Some t ->
      exists t',
        lookup td' (FBX.name b) = Some t' /\
        length (FBX.rot t') = length (FBX.rot t) + 4 * length frames /\
        length (FBX.pos t')
        = length (FBX.pos t)
          + if String.eqb (FBX.name b) "mixamorig:Hips" then 3 * length frames else 0.
Proof.
  induction frames as [|f frames IH]; intros td Hkeys Hlen.
  - exists td. simpl. repeat split; auto. intros b t _ Ht. exists t.
    destruct (String.eqb _ _); repeat split; auto; lia.
  - destruct (processFrame_spec td f) as (pos & gq & td1 & p & _ & _ & _ & Hstep & Hk1 & H1);
      auto.
    { apply Hlen. now left. }
    destruct (IH td1 Hk1) as (td' & Hrun & Hk' & H').
    { intros g Hg. apply Hlen. now right. }
    exists td'. split; [simpl; now rewrite Hstep|]. split; auto.
    intros b t Hb Ht.
    destruct (H1 b t Hb Ht) as (q & _ & Ht1).
    destruct (H' b _ Hb Ht1) as (t' & Ht' & Hrot & Hpos).
    exists t'. split; auto. cbn [FBX.rot FBX.pos] in Hrot, Hpos.
    rewrite length_app in Hrot, Hpos. cbn [length].
    destruct (String.eqb (FBX.name b) "mixamorig:Hips"); simpl in *; lia.
Qed.

Lemma foldC_addTracks times_ td (bones : list FBX.BoneSpec) : forall acc,
  (forall b, In b bones ->
     exists t, lookup td (FBX.name b) = Some t /\
               0 < length (FBX.rot t) /\
               (if String.eqb (FBX.name b) "mixamorig:Hips"
                then 0 < length (FBX.pos t) else length (FBX.pos t) = 0)) ->
  exists tracks,
    foldC (FBX.addTracks times_ td) bones acc = Normal tracks /\
    length tracks
    = length acc
      + list_sum (map (fun b => if String.eqb (FBX.name b) "mixamorig:Hips"
                                then 2 else 1) bones) /\
    (Forall (fun t => FBX.times t = times_) acc ->
     Forall (fun t => FBX.times t = times_) tracks).
Proof.
  induction bones as [|b bones IH]; intros acc Hb.
  - exists acc. simpl. repeat split; auto.
  - destruct (Hb b) as (t & Ht & Hrot & Hpos); [now left|].
    cbn [foldC]. unfold FBX.addTracks at 1. rewrite Ht. cbn [deref cbind].
    destruct (Nat.ltb_spec 0 (length (FBX.rot t))) as [_|]; [|lia].
    destruct (String.eqb (FBX.name b) "mixamorig:Hips") eqn:E.
    + destruct (Nat.ltb_spec 0 (length (FBX.pos t))) as [_|]; [|lia].
      edestruct IH as (tracks & Hrun & Hlen & Hall); [intros; apply Hb; now right|].
      exists tracks. split; [exact Hrun|]. split.
      * rewrite Hlen, !length_app. cbn [map length]. rewrite E. unfold list_sum. cbn [fold_right]. lia.
      * intros Hacc. apply Hall. repeat (apply Forall_app; split); auto.
    + destruct (Nat.ltb_spec 0 (length (FBX.pos t))) as [|_]; [lia|].
      edestruct IH as (tracks & Hrun & Hlen & Hall); [intros; apply Hb; now right|].
      exists tracks. split; [exact Hrun|]. split.
      * rewrite Hlen, !length_app. cbn [map length]. rewrite E. unfold list_sum. cbn [fold_right]. lia.
      * intros Hacc. apply Hall. repeat (apply Forall_app; split); auto.
Qed.

Lemma tracksData0_keys : map fst (FBX.tracksData0 (num:=num)) = FBX.boneNames.
Proof. reflexivity. Qed.

Lemma tracksData0_lookup b :
  In b FBX.boneMap ->
  lookup (FBX.tracksData0 (num:=num)) (FBX.name b) = Some (FBX.mkTrackData [] []).
Proof.
  intros Hb.
  destruct (@lookup_keys _ (FBX.tracksData0 (num:=num)) (FBX.name b)) as [t Ht].
  { rewrite tracksData0_keys. now apply in_map. }
  rewrite Ht. f_equal. apply lookup_In in Ht.
  unfold FBX.tracksData0 in Ht. apply in_map_iff in Ht.
  destruct Ht as (b' & [= _ <-] & _). reflexivity.
Qed.

Lemma buildTracks_spec (frames : list (MocapFrame num)) :
  frames <> [] ->
  (forall f, In f frames -> 29 <= length (landmarks f)) ->
  exists tracks,
    FBX.buildTracks frames = Normal tracks /\
    length tracks = length FBX.boneMap + 1 /\
    Forall (fun t => FBX.times t = map (@timestamp num) frames) tracks.
Proof.
  intros Hne Hlen.
  destruct (foldC_processFrame frames _ tracksData0_keys Hlen) as (td & Hrun & Hk & Htd).
  destruct (foldC_addTracks (map (@timestamp num) frames) td FBX.boneMap [])
    as (tracks & Htracks & Hcount & Hall).
  { intros b Hb.
    destruct (Htd b _ Hb (tracksData0_lookup b Hb)) as (t & Ht & Hrot & Hpos).
    exists t. split; auto. cbn [FBX.rot FBX.pos length] in Hrot, Hpos.
    assert (0 < length frames) by (destruct frames; [congruence|simpl; lia]).
    destruct (String.eqb (FBX.name b) "mixamorig:Hips"); split; lia. }
  exists tracks. split.
  - unfold FBX.buildTracks. rewrite Hrun. exact Htracks.
  - split; [rewrite Hcount; reflexivity|]. apply Hall. constructor.
Qed.
End FBXFacts.

(** The tracks in terms of the values of the frames. *)
Section FBXContent.
Context {num : Type} {NumOps : JSNumber num} {MathOps : JSMath num}.
Implicit Types (td : FBX.TracksData (num:=num)).

Lemma getVec_throws (lm : list (Landmark3D num)) (idx : Z) (e : exn) :
  FBX.getVec lm idx = Throws e -> e = TypeError.
Proof.
  unfold FBX.getVec. destruct (js_index lm idx); cbn [deref cbind]; congruence.
Qed.

(** A frame that lacks one of the landmarks read makes [positions]
    throw. *)
Lemma positions_short (lm : list (Landmark3D num)) :
  length lm < 29 -> FBX.positions lm = Throws TypeError.
Proof.
  intros Hshort.
  assert (Hnone : FBX.getVec lm MP_POSE.RIGHT_ANKLE = Throws TypeError).
  { unfold FBX.getVec, js_index, MP_POSE.RIGHT_ANKLE.
    rewrite (proj2 (nth_error_None lm (Z.to_nat 28))) by (simpl; lia).
    reflexivity. }
  unfold FBX.positions.
  repeat match goal with
         | |- context [cbind (FBX.getVec lm ?i) _] =>
           let E := fresh "E" in
           destruct (FBX.getVec lm i) eqn:E; cbn [cbind];
           [|f_equal; eapply getVec_throws; eassumption]
         end.
  congruence.
Qed.

Lemma processFrame_short td (frame : MocapFrame num) :
  length (landmarks frame) < 29 -> FBX.processFrame td frame = Throws TypeError.
Proof.
  intros Hshort. unfold FBX.processFrame. now rewrite positions_short.
Qed.

Lemma foldC_processFrame_short (frames : list (MocapFrame num)) : forall td,
  map fst td = FBX.boneNames ->
  (exists f, In f frames /\ length (landmarks f) < 29) ->
  foldC FBX.processFrame frames td = Throws TypeError.
Proof.
  induction frames as [|f frames IH]; intros td Hkeys (g & Hg & Hshort).
  - destruct Hg.
  - cbn [foldC].
    destruct (le_lt_dec 29 (length (landmarks f))) as [Hok|Hbad].
    + destruct (processFrame_spec td f Hok Hkeys)
        as (pos & gq & td1 & p & _ & _ & _ & Hstep & Hk1 & _).
      rewrite Hstep. cbn [cbind]. apply IH; auto.
      destruct Hg as [<-|Hg]; [lia|]. eauto.
    + now rewrite processFrame_short.
Qed.

(** One frame, in terms of the values of the frame. *)
Lemma processFrame_content td (frame : MocapFrame num) :
  29 <= length (landmarks frame) ->
  map fst td = FBX.boneNames ->
  exists td',
    FBX.processFrame td frame = Normal td' /\
    map fst td' = FBX.boneNames /\
    forall b t, In b FBX.boneMap -> lookup td (FBX.name b) = Some t ->
      lookup td' (FBX.name b)
      = Some (FBX.mkTrackData
                (FBX.pos t ++ if String.eqb (FBX.name b) "mixamorig:Hips"
                              then FBX.hipsValues (frameHips frame) else [])
                (FBX.rot t ++ FBX.quatValues (frameLocal frame b))).
Proof.
  intros Hlen Hkeys.
  destruct (processFrame_spec td frame Hlen Hkeys)
    as (pos & gq & td' & p & Hpos & Hgq & Hp & Hstep & Hk' & Hall).
  exists td'. split; [exact Hstep|]. split; [exact Hk'|].
  intros b t Hb Ht. destruct (Hall b t Hb Ht) as (q & Hq & Ht').
  rewrite Ht'. unfold frameLocal, frameHips, frameGlobals, framePositions.
  now rewrite Hpos, Hgq, Hq, Hp.
Qed.

Lemma foldC_processFrame_content (frames : list (MocapFrame num)) : forall td,
  map fst td = FBX.boneNames ->
  (forall f, In f frames -> 29 <= length (landmarks f)) ->
  exists td',
    foldC FBX.processFrame frames td = Normal td' /\
    map fst td' = FBX.boneNames /\
    forall b t, In b FBX.boneMap -> lookup td (FBX.name b) = Some t ->
      lookup td' (FBX.name b)
      = Some (FBX.mkTrackData
                (FBX.pos t ++ if String.eqb (FBX.name b) "mixamorig:Hips"
                              then flat_map (fun f => FBX.hipsValues (frameHips f)) frames
                              else [])
                (FBX.rot t ++ flat_map (fun f => FBX.quatValues (frameLocal f b)) frames)).
Proof.
  induction frames as [|f frames IH]; intros td Hkeys Hlen.
  - exists td. cbn [foldC flat_map]. repeat split; auto.
    intros b t _ Ht. rewrite Ht.
    destruct (String.eqb _ _); rewrite !app_nil_r; now destruct t.
  - destruct (processFrame_content td f) as (td1 & Hstep & Hk1 & H1); auto.
    { apply Hlen. now left. }
    destruct (IH td1 Hk1) as (td' & Hrun & Hk' & H').
    { intros g Hg. apply Hlen. now right. }
    exists td'. split; [cbn [foldC]; now rewrite Hstep|]. split; auto.
    intros b t Hb Ht. rewrite (H' b _ Hb (H1 b t Hb Ht)).
    cbn [FBX.pos FBX.rot flat_map].
    destruct (String.eqb (FBX.name b) "mixamorig:Hips");
      now rewrite <- !app_assoc.
Qed.

Lemma foldC_addTracks_content (frames : list (MocapFrame num)) td
      (bones : list FBX.BoneSpec) : forall acc,
  frames <> [] ->
  (forall b, In b bones ->
     lookup td (FBX.name b)
     = Some (FBX.mkTrackData
               (if String.eqb (FBX.name b) "mixamorig:Hips"
                then flat_map (fun f => FBX.hipsValues (frameHips f)) frames
                else [])
               (flat_map (fun f => FBX.quatValues (frameLocal f b)) frames))) ->
  foldC (FBX.addTracks (map (@timestamp num) frames) td) bones acc
  = Normal (acc ++ flat_map (boneTracks frames) bones).
Proof.
  intros acc Hne. revert acc.
  assert (Hq : forall b, (0 <? length (flat_map (fun f => FBX.quatValues (frameLocal f b))
                                                frames)) = true).
  { intros b. destruct frames as [|f frames]; [congruence|]. reflexivity. }
  assert (Hp : (0 <? length (flat_map (fun f => FBX.hipsValues (frameHips f)) frames))
               = true).
  { destruct frames as [|f frames]; [congruence|]. reflexivity. }
  induction bones as [|b bones IH]; intros acc Hb.
  - cbn [foldC flat_map]. now rewrite app_nil_r.
  - cbn [foldC flat_map]. unfold FBX.addTracks at 1.
    rewrite (Hb b) by now left. cbn [deref cbind FBX.rot FBX.pos].
    rewrite Hq. rewrite IH by (intros; apply Hb; now right).
    f_equal. unfold boneTracks at 2.
    destruct (String.eqb (FBX.name b) "mixamorig:Hips").
    + rewrite Hp. now rewrite <- !app_assoc.
    + cbn [length Nat.ltb Nat.leb]. now rewrite <- !app_assoc.
Qed.

(** The tracks of a sequence of frames that hold their landmarks. *)
Lemma buildTracks_content (frames : list (MocapFrame num)) :
  frames <> [] ->
  (forall f, In f frames -> 29 <= length (landmarks f)) ->
  FBX.buildTracks frames = Normal (flat_map (boneTracks frames) FBX.boneMap).
Proof.
  intros Hne Hlen.
  destruct (foldC_processFrame_content frames _ tracksData0_keys Hlen)
    as (td & Hrun & _ & Htd).
  unfold FBX.buildTracks. rewrite Hrun. cbn [cbind].
  rewrite (foldC_addTracks_content frames td FBX.boneMap [] Hne); [reflexivity|].
  intros b Hb. rewrite (Htd b _ Hb (tracksData0_lookup b Hb)). reflexivity.
Qed.
End FBXContent.

(* ================================================================= *)
(** * Statements of the specification: the exporters' interfaces *)

(** C1 (as stated): on an empty sequence [generateBVH] does not fail; it
    returns the empty string. *)
Lemma generateBVH_empty_is_not_an_error :
  BVH.generateBVH (@nil (MocapFrame Q)) = Normal (Some EmptyString) /\
  ~ (exists e, BVH.generateBVH (@nil (MocapFrame Q)) = Throws e).
Proof.
  split; [reflexivity|]. intros [e He]. discriminate He.
Qed.

(** C1 (amended): on an empty sequence [generateFBX] throws
    [Error("No frames to export")] whatever the backend is, which it does
    not call, and [generateBVH] returns the empty string: neither
    produces a file with a hierarchy and no motion. *)
Theorem empty_sequence_export
        {num : Type} {NumOps : JSNumber num} {MathOps : JSMath num}
        {Fmt : JSFormat num} {buffer : Type}
        (parse : FBX.Scene -> FBX.AnimationClip num -> completion buffer) :
  FBX.generateFBX parse [] = Throws (Error "No frames to export") /\
  BVH.generateBVH (@nil (MocapFrame num)) = Normal (Some EmptyString).
Proof. split; reflexivity. Qed.

(** C2 (as stated): one frame gives 21 tracks, while 15 bones have a
    primary child. *)
Lemma track_count_is_not_primary_children_plus_one :
  exists tracks,
    FBX.buildTracks [still_frame] = Normal tracks /\
    length tracks = 21 /\
    length bonesWithPrimaryChild = 15 /\
    length tracks <> length bonesWithPrimaryChild + 1.
Proof.
  eexists. split; [vm_compute; reflexivity|].
  repeat split; try reflexivity. discriminate.
Qed.

(** C2 (amended): for a non-empty sequence whose frames hold the
    landmarks the exporter reads, the clip handed to the backend has 21
    tracks, one more than there are bones: in the order of [boneMap], the
    quaternion track [<bone>.quaternion] of every one of the 20 bones,
    with or without a primary child, holding the local rotation of the
    bone in every frame, and right after the root's the position track
    [mixamorig:Hips.position].  Every track has the timestamps of the
    frames as its times, as many as there are frames. *)
Theorem rotation_export_tracks
        {num : Type} {NumOps : JSNumber num} {MathOps : JSMath num} {buffer : Type}
        (parse : FBX.Scene -> FBX.AnimationClip num -> completion buffer)
        (frames : list (MocapFrame num)) :
  frames <> [] ->
  (forall f, In f frames -> 29 <= length (landmarks f)) ->
  exists scene tracks,
    FBX.buildScene = Normal scene /\
    FBX.buildTracks frames = Normal tracks /\
    FBX.generateFBX parse frames
    = parse scene (FBX.mkClip "MixamoMotion" (of_Z (-1)) tracks) /\
    tracks = flat_map (boneTracks frames) FBX.boneMap /\
    length tracks = length FBX.boneMap + 1 /\
    length tracks = 21 /\
    map (fun t => (FBX.kind t, FBX.trackName t)) tracks
    = (FBX.QuaternionKeyframeTrack, "mixamorig:Hips.quaternion"%string)
      :: (FBX.VectorKeyframeTrack, "mixamorig:Hips.position"%string)
      :: map (fun b => (FBX.QuaternionKeyframeTrack, (FBX.name b ++ ".quaternion")%string))
             (tl FBX.boneMap) /\
    Forall (fun t => FBX.times t = map (@timestamp num) frames /\
                     length (FBX.times t) = length frames) tracks.
Proof.
  intros Hne Hlen.
  pose proof (buildTracks_content frames Hne Hlen) as Hrun.
  eexists. eexists. split; [reflexivity|]. split; [exact Hrun|].
  split.
  { destruct frames as [|f frames]; [congruence|].
    unfold FBX.generateFBX. cbn [cbind]. rewrite Hrun. reflexivity. }
  split; [reflexivity|]. split; [reflexivity|]. split; [reflexivity|].
  split; [reflexivity|].
  unfold FBX.boneMap. cbn [flat_map boneTracks FBX.name String.eqb Ascii.eqb Bool.eqb app].
  repeat (apply Forall_cons;
          [cbn [FBX.times]; split; [reflexivity|apply length_map]|]).
  constructor.
Qed.

Lemma rotation_export_tracks_witness :
  exists scene tracks,
    FBX.buildScene = Normal scene /\
    FBX.buildTracks [still_frame] = Normal tracks /\
    FBX.generateFBX (fun _ c => Normal (length (FBX.tracks c))) [still_frame]
    = Normal (length tracks) /\
    length tracks = 21.
Proof.
  destruct (@rotation_export_tracks PrimFloat.float _ _ nat
              (fun _ c => Normal (length (FBX.tracks c))) [still_frame])
    as (scene & tracks & Hs & Ht & Hg & _ & _ & Hn & _).
  - discriminate.
  - intros f [<-|[]]. vm_compute. lia.
  - exists scene, tracks. auto.
Defined.

(** C7: a frame without landmarks makes [generateFBX] throw a
    [TypeError], where [getPos] of the positional exporter gives the zero
    vector for the same index. *)
Theorem missing_landmark_is_propagated
        {num : Type} {NumOps : JSNumber num} {MathOps : JSMath num} {buffer : Type}
        (parse : FBX.Scene -> FBX.AnimationClip num -> completion buffer) :
  FBX.getVec (landmarks bare_frame) MP_POSE.LEFT_SHOULDER = Throws TypeError /\
  FBX.generateFBX parse [bare_frame] = Throws TypeError /\
  BVH.getPos (landmarks bare_frame) MP_POSE.LEFT_SHOULDER = Normal BVH.zeroVec.
Proof. repeat split; reflexivity. Qed.

(* ================================================================= *)
(** * The joints of a frame *)

Section PositionFacts.
Context {num : Type} {NumOps : JSNumber num} {MathOps : JSMath num}.

Lemma getVec_vecAt (lm : list (Landmark3D num)) (idx : Z) :
  (0 <= idx)%Z -> Z.to_nat idx < length lm ->
  FBX.getVec lm idx = Normal (FBX.vecAt lm idx).
Proof.
  intros Hi Hlt. unfold FBX.vecAt.
  destruct (getVec_total lm idx Hi Hlt) as [v ->]. reflexivity.
Qed.

(** The table [positions] of a frame that holds its landmarks. *)
Lemma positions_eq (lm : list (Landmark3D num)) :
  29 <= length lm ->
  FBX.positions lm = Normal (FBX.positionTable (FBX.vecAt lm)).
Proof.
  intros Hlen. unfold FBX.positions.
  repeat match goal with
         | |- context [FBX.getVec lm ?i] =>
           rewrite (getVec_vecAt lm i) by (unfold i; simpl; lia); cbn [cbind]
         end.
  reflexivity.
Qed.


End PositionFacts.

Section BVHPositionFacts.
Context {num : Type} {NumOps : JSNumber num}.

(** [getPos] never throws: inside the range the landmark is there. *)
Lemma getPos_total (lm : list (Landmark3D num)) (idx : Z) :
  BVH.getPos lm idx = Normal (BVH.posAt lm idx).
Proof.
  unfold BVH.posAt, BVH.getPos, js_index.
  destruct (idx <? 0)%Z eqn:E0; cbn [orb]; [reflexivity|].
  destruct (idx >=? Z.of_nat (length lm))%Z eqn:E1; [reflexivity|].
  destruct (nth_error lm (Z.to_nat idx)) eqn:En; [reflexivity|].
  apply nth_error_None in En. apply Z.ltb_ge in E0.
  rewrite Z.geb_leb in E1. apply Z.leb_gt in E1. lia.
Qed.

Lemma BVH_positions_eq (lm : list (Landmark3D num)) :
  let g := BVH.posAt lm in
  BVH.positions lm = Normal [
    ("Hips", mkVec ((vx (g 23%Z) + vx (g 24%Z)) / of_Z 2)%js
                   ((vy (g 23%Z) + vy (g 24%Z)) / of_Z 2)%js
                   ((vz (g 23%Z) + vz (g 24%Z)) / of_Z 2)%js);
    ("Spine", mkVec ((vx (g 11%Z) + vx (g 12%Z)) / of_Z 2)%js
                    ((vy (g 11%Z) + vy (g 12%Z)) / of_Z 2)%js
                    ((vz (g 11%Z) + vz (g 12%Z)) / of_Z 2)%js);
    ("Head", g 0%Z);
    ("LeftShoulder", g 11%Z);
    ("LeftElbow", g 13%Z);
    ("LeftWrist", g 15%Z);
    ("RightShoulder", g 12%Z);
    ("RightElbow", g 14%Z);
    ("RightWrist", g 16%Z);
    ("LeftHip", g 23%Z);
    ("LeftKnee", g 25%Z);
    ("LeftAnkle", g 27%Z);
    ("RightHip", g 24%Z);
    ("RightKnee", g 26%Z);
    ("RightAnkle", g 28%Z)
  ]%string.
Proof.
  intros g. unfold BVH.positions. rewrite !getPos_total. reflexivity.
Qed.
End BVHPositionFacts.

(* ================================================================= *)
(** * Exact arithmetic: vectors and quaternions over the reals *)

Local Open Scope R_scope.

Ltac r_ops :=
  cbn [nadd nsub nmul ndiv nneg of_Z nsqrt nabs nltb neqb nfalsy R_JSNumber R_JSMath
       vx vy vz qx qy qz qw] in *.






















Lemma js_index_range {A} (l : list A) (idx : Z) (a : A) :
  js_index l idx = Some a -> (0 <= idx < Z.of_nat (length l))%Z.
Proof.
  unfold js_index. destruct (idx <? 0)%Z eqn:E; [discriminate|].
  apply Z.ltb_ge in E. intros Hn.
  assert (Hlt : (Z.to_nat idx < length l)%nat).
  { apply nth_error_Some. congruence. }
  lia.
Qed.


(** What the two helpers read at an index that is present. *)
Lemma getVec_mirrored (lm : list (Landmark3D R)) (idx : Z) (l : Landmark3D R) :
  js_index lm idx = Some l -> FBX.getVec lm idx = Normal (mirrored l).
Proof.
  intros Hl. unfold FBX.getVec, FBX.scale, mirrored. rewrite Hl. cbn [deref cbind].
  r_ops. f_equal. f_equal; ring.
Qed.

Lemma getPos_mirrored (lm : list (Landmark3D R)) (idx : Z) (l : Landmark3D R) :
  js_index lm idx = Some l -> BVH.getPos lm idx = Normal (mirrored l).
Proof.
  intros Hl. destruct (js_index_range _ _ _ Hl) as [H0 Hlt].
  unfold BVH.getPos, mirrored.
  rewrite (proj2 (Z.ltb_ge idx 0)) by lia. cbn [orb].
  assert (Hge : (idx >=? Z.of_nat (length lm))%Z = false).
  { rewrite Z.geb_leb. apply Z.leb_gt. lia. }
  rewrite Hge, Hl. cbn [deref cbind]. r_ops. f_equal. f_equal; ring.
Qed.




(* ================================================================= *)
(** * Statements of the specification: the rotation solver *)

















Close Scope R_scope.

(* ================================================================= *)
(** * Strings *)

Section StringFacts.
Local Open Scope string_scope.

Lemma append_assoc (a b c : string) : (a ++ b) ++ c = a ++ (b ++ c).
Proof. induction a as [|x a IH]; simpl; congruence. Qed.

Lemma append_nil_r (a : string) : a ++ "" = a.
Proof. induction a as [|x a IH]; simpl; congruence. Qed.

Lemma length_append (a b : string) :
  String.length (a ++ b) = (String.length a + String.length b)%nat.
Proof. induction a as [|x a IH]; simpl; congruence. Qed.

Lemma all_chars_append p (a b : string) :
  all_chars p (a ++ b) = all_chars p a && all_chars p b.
Proof.
  induction a as [|x a IH]; simpl; auto. rewrite IH. now rewrite andb_assoc.
Qed.

Lemma all_chars_impl (p q : ascii -> bool) (s : string) :
  (forall c, p c = true -> q c = true) ->
  all_chars p s = true -> all_chars q s = true.
Proof.
  intros Hpq. induction s as [|c s IH]; simpl; auto.
  intros H. apply andb_true_iff in H. destruct H as [Hc Hs].
  now rewrite (Hpq c Hc), IH.
Qed.

Lemma all_chars_substring p (s : string) : forall n m,
  all_chars p s = true -> all_chars p (substring n m s) = true.
Proof.
  induction s as [|c s IH]; intros n m H.
  - destruct n, m; reflexivity.
  - simpl in H. apply andb_true_iff in H. destruct H as [Hc Hs].
    destruct n as [|n].
    + destruct m as [|m]; simpl; auto. now rewrite Hc, IH.
    + simpl. now apply IH.
Qed.

Lemma length_substring (s : string) : forall n m,
  (n + m <= String.length s)%nat -> String.length (substring n m s) = m.
Proof.
  induction s as [|c s IH]; intros n m H; simpl in H.
  - assert (n = 0%nat) by lia. assert (m = 0%nat) by lia. now subst.
  - destruct n as [|n].
    + destruct m as [|m]; simpl; auto. rewrite IH; auto. lia.
    + simpl. apply IH. lia.
Qed.

Lemma all_chars_repeat p (s : string) (n : nat) :
  all_chars p s = true -> all_chars p (repeat_string s n) = true.
Proof.
  intros H. induction n as [|n IH]; simpl; auto.
  now rewrite all_chars_append, H, IH.
Qed.

Lemma length_repeat_char (c : ascii) (n : nat) :
  String.length (repeat_string (String c "") n) = n.
Proof. induction n as [|n IH]; simpl; congruence. Qed.

Lemma digits_NilEmpty (d : Decimal.uint) :
  all_chars is_digit (DecimalString.NilEmpty.string_of_uint d) = true.
Proof. induction d; simpl; auto. Qed.

Lemma digits_of_N_digits (n : N) :
  all_chars is_digit (digits_of_N n) = true /\ digits_of_N n <> "".
Proof.
  unfold digits_of_N, DecimalString.NilZero.string_of_uint.
  destruct (N.to_uint n) eqn:E; simpl; split;
    solve [reflexivity | discriminate | apply digits_NilEmpty].
Qed.

Lemma string_nonempty_length (s : string) : s <> "" <-> (0 < String.length s)%nat.
Proof. destruct s; simpl; split; intros; try congruence; try lia. Qed.

(** [toFixed] with a positive number of decimals, below 10^21. *)
Lemma Q_toFixed_fixed (x : Q) (f : nat) :
  (0 < f)%nat -> (Qabs x < inject_Z (10 ^ 21))%Q -> fixedDecimals f (Q_toFixed x f).
Proof.
  intros Hf Hrange. unfold Q_toFixed.
  assert (Hsmall : Qle_bool (inject_Z (10 ^ 21)) (Qabs x) = false).
  { destruct (Qle_bool (inject_Z (10 ^ 21)) (Qabs x)) eqn:E; [|reflexivity].
    apply Qle_bool_iff in E. exfalso. apply (Qlt_not_le _ _ Hrange E). }
  rewrite Hsmall.
  set (sign := if Qlt_le_dec x 0 then "-" else "").
  set (m := digits_of_N _).
  destruct (digits_of_N_digits
              (Z.to_N (Qfloor (Qabs x * inject_Z (10 ^ Z.of_nat f) + (1 # 2)))))
    as [Hdig Hne].
  fold m in Hdig, Hne.
  destruct f as [|f']; [lia|].
  set (f := S f') in *.
  set (padded := if (String.length m <=? f)%nat
                 then repeat_string "0" (f + 1 - String.length m) ++ m else m).
  assert (Hpd : all_chars is_digit padded = true).
  { unfold padded. destruct (String.length m <=? f)%nat; auto.
    rewrite all_chars_append, Hdig, all_chars_repeat; auto. }
  assert (Hpl : (f + 1 <= String.length padded)%nat).
  { unfold padded. destruct (Nat.leb_spec (String.length m) f) as [Hle|Hgt].
    - rewrite length_append, length_repeat_char. lia.
    - lia. }
  exists sign, (substring 0 (String.length padded - f) padded),
    (substring (String.length padded - f) f padded).
  repeat split.
  - unfold sign. destruct (Qlt_le_dec x 0); auto.
  - apply string_nonempty_length. rewrite length_substring; lia.
  - now apply all_chars_substring.
  - now apply all_chars_substring.
  - apply length_substring. lia.
Qed.

Lemma digit_is_numeric c : is_digit c = true -> is_numeric_char c = true.
Proof. unfold is_numeric_char. now intros ->. Qed.

Lemma fixedDecimals_numeric (d : nat) (s : string) :
  fixedDecimals d s -> numericToken s.
Proof.
  intros (sign & int & frac & -> & Hsign & Hint & Hdi & Hdf & _). split.
  - destruct Hsign as [->| ->]; [|discriminate].
    destruct int; [congruence|discriminate].
  - rewrite !all_chars_append.
    rewrite (all_chars_impl _ _ _ digit_is_numeric Hdi).
    rewrite (all_chars_impl _ _ _ digit_is_numeric Hdf).
    destruct Hsign as [->| ->]; reflexivity.
Qed.

(** *** Tokens *)

Lemma numeric_not_ws c : is_numeric_char c = true -> negb (is_ws c) = true.
Proof.
  destruct c as [b0 b1 b2 b3 b4 b5 b6 b7].
  destruct b0, b1, b2, b3, b4, b5, b6, b7; vm_compute; congruence.
Qed.

Lemma numeric_solid (s : string) : numericToken s -> solidToken s.
Proof.
  intros [Hne Hnum]. split; [exact Hne|].
  exact (all_chars_impl _ _ _ numeric_not_ws Hnum).
Qed.

Lemma digits_solid (s : string) :
  all_chars is_digit s = true -> all_chars (fun c => negb (is_ws c)) s = true.
Proof.
  apply all_chars_impl. intros c Hc. apply numeric_not_ws. now apply digit_is_numeric.
Qed.

Lemma all_chars_dropTrailingZeros p (s : string) :
  all_chars p s = true -> all_chars p (dropTrailingZeros s) = true.
Proof.
  induction s as [|c s IH]; simpl; auto.
  intros H. apply andb_true_iff in H. destruct H as [Hc Hs].
  specialize (IH Hs).
  destruct (dropTrailingZeros s) as [|c' r].
  - destruct (Ascii.eqb c "0"); simpl; auto. now rewrite Hc.
  - simpl in IH |- *. now rewrite Hc.
Qed.

Lemma all_chars_cons p (c : ascii) (s : string) :
  all_chars p (String c s) = p c && all_chars p s.
Proof. reflexivity. Qed.

Lemma exponentNotation_solid (s p : Z) : solidToken (exponentNotation s p).
Proof.
  unfold exponentNotation. cbv zeta.
  set (all := digits_of_N (Z.to_N s)).
  set (e := digits_of_N (Z.to_N (Z.of_nat (String.length all) + p - 1))).
  assert (He : all_chars (fun c => negb (is_ws c)) e = true)
    by apply digits_solid, digits_of_N_digits.
  assert (Hd : all_chars (fun c => negb (is_ws c)) (dropTrailingZeros all) = true)
    by apply digits_solid, all_chars_dropTrailingZeros, digits_of_N_digits.
  clearbody e.
  destruct (dropTrailingZeros all) as [|c [|c' rest']].
  - split; [discriminate|]. exact He.
  - rewrite all_chars_cons in Hd. apply andb_true_iff in Hd. destruct Hd as [Hc _].
    split; [discriminate|].
    change (String c "" ++ "e+" ++ e) with (String c ("e+" ++ e)).
    rewrite all_chars_cons, Hc. exact He.
  - rewrite all_chars_cons in Hd. apply andb_true_iff in Hd. destruct Hd as [Hc Hrest].
    rewrite all_chars_cons in Hrest. apply andb_true_iff in Hrest.
    destruct Hrest as [Hc' Hrest].
    split; [discriminate|].
    change (String c ("." ++ String c' rest') ++ "e+" ++ e)
      with (String c (String "." (String c' (rest' ++ "e+" ++ e)))).
    rewrite 3!all_chars_cons, Hc, Hc', all_chars_append, Hrest. exact He.
Qed.

Lemma toStringLarge_solid (x : Q) : solidToken (toStringLarge x).
Proof.
  unfold toStringLarge. destruct (binary64 x) as [v|].
  - destruct (shortestDigits v (decimalLength v) (map Z.of_nat (seq 1 17))) as [s p].
    apply exponentNotation_solid.
  - split; [discriminate|reflexivity].
Qed.

Lemma solid_sign (sign s : string) :
  sign = "" \/ sign = "-" -> solidToken s -> solidToken (sign ++ s).
Proof.
  intros Hsign [Hne Hs]. split.
  - destruct Hsign as [->| ->]; [exact Hne|discriminate].
  - rewrite all_chars_append, Hs. destruct Hsign as [->| ->]; reflexivity.
Qed.

(** Whatever [toFixed] writes is one token. *)
Lemma Q_toFixed_solid (x : Q) (f : nat) : solidToken (Q_toFixed x f).
Proof.
  destruct (Qle_bool (inject_Z (10 ^ 21)) (Qabs x)) eqn:E.
  - unfold Q_toFixed. rewrite E. apply solid_sign.
    + destruct (Qlt_le_dec x 0); auto.
    + apply toStringLarge_solid.
  - destruct f as [|f'].
    + unfold Q_toFixed. rewrite E. apply solid_sign.
      * destruct (Qlt_le_dec x 0); auto.
      * destruct (digits_of_N_digits
                    (Z.to_N (Qfloor (Qabs x * inject_Z (10 ^ Z.of_nat 0) + (1 # 2)))))
          as [Hdig Hne].
        split; [exact Hne|now apply digits_solid].
    + apply numeric_solid, (fixedDecimals_numeric (S f')), Q_toFixed_fixed; [lia|].
      apply Qnot_le_lt. intros Hle. apply Qle_bool_iff in Hle. congruence.
Qed.

Lemma toFixed_solid {num} {Fmt : JSFormat num} (x : num) (f : nat) :
  solidToken (toFixed x f).
Proof.
  unfold toFixed, Number_toFixed. destruct (numberValue x) as [|negative|q].
  - split; [discriminate|reflexivity].
  - destruct negative; (split; [discriminate|reflexivity]).
  - apply Q_toFixed_solid.
Qed.


(** *** [trim] *)

Lemma trimEnd_append (a b : string) :
  trimEnd (a ++ b) = match trimEnd b with
                     | "" => trimEnd a
                     | r => a ++ r
                     end.
Proof.
  induction a as [|c a IH]; simpl.
  - now destruct (trimEnd b).
  - rewrite IH. destruct (trimEnd b) as [|c' r]; [reflexivity|].
    destruct a; reflexivity.
Qed.

(** A string without white space is its own trimmed form. *)
Lemma trimEnd_solid (s : string) :
  all_chars (fun c => negb (is_ws c)) s = true -> trimEnd s = s.
Proof.
  induction s as [|c s IH]; simpl; auto.
  intros H. apply andb_true_iff in H. destruct H as [Hc Hs].
  rewrite IH by exact Hs. destruct s; [|reflexivity].
  apply negb_true_iff in Hc. now rewrite Hc.
Qed.

Lemma trimEnd_spaced (tokens : list string) :
  Forall solidToken tokens -> trimEnd (spaced tokens) = String.concat " " tokens.
Proof.
  induction 1 as [|t rest [Hne Hnum] Hrest IH]; [reflexivity|].
  cbn [spaced]. rewrite trimEnd_append.
  change (" " ++ spaced rest) with (String " " (spaced rest)).
  cbn [trimEnd]. rewrite IH.
  destruct rest as [|t' rest'].
  - cbn [String.concat]. change (is_ws " ") with true. cbv iota.
    now apply trimEnd_solid.
  - assert (Hc : String.concat " " (t' :: rest') <> "").
    { inversion Hrest as [|? ? [Hne' _] _]; subst.
      cbn [String.concat]. destruct rest'; destruct t'; try congruence; discriminate. }
    change (String.concat " " (t :: t' :: rest'))
      with (t ++ " " ++ String.concat " " (t' :: rest')).
    destruct (String.concat " " (t' :: rest')) eqn:E; [congruence|].
    reflexivity.
Qed.

Lemma trim_spaced (tokens : list string) :
  Forall solidToken tokens -> trim (spaced tokens) = String.concat " " tokens.
Proof.
  intros Hall. unfold trim.
  assert (Hstart : trimStart (spaced tokens) = spaced tokens).
  { destruct Hall as [|t rest [Hne Hnum] _]; [reflexivity|].
    cbn [spaced]. destruct t as [|c t]; [congruence|].
    simpl in Hnum. apply andb_true_iff in Hnum. destruct Hnum as [Hc _].
    apply negb_true_iff in Hc. simpl. now rewrite Hc. }
  rewrite Hstart. now apply trimEnd_spaced.
Qed.
End StringFacts.

(* ================================================================= *)
(** * The positional exporter *)

Section BVHFacts.
Context {num : Type} {NumOps : JSNumber num} {Fmt : JSFormat num}.
Local Open Scope string_scope.

Lemma spaced_app (a b : list string) : spaced (a ++ b)%list = spaced a ++ spaced b.
Proof.
  induction a as [|t a IH]; simpl; auto. now rewrite IH, !append_assoc.
Qed.

(** [writeData] appends the tokens of the joints in pre-order, each
    followed by a space. *)
Lemma writeData_preorder (pos : list (string * Vector3 num)) (fuel : nat) :
  forall (jointName line : string),
    BVH.writeData fuel pos jointName line
    = match BVH.preorder fuel jointName with
      | Some names => Some (line ++ spaced (flat_map (BVH.jointTokens pos) names))
      | None => None
      end.
Proof.
  induction fuel as [|fuel IH]; intros jointName line; [reflexivity|].
  cbn [BVH.writeData BVH.preorder].
  set (stepW := fun acc c => match acc with
                             | Some s => BVH.writeData fuel pos (BVH.name c) s
                             | None => None
                             end).
  set (stepP := fun acc c => match acc with
                             | Some names =>
                               match BVH.preorder fuel (BVH.name c) with
                               | Some sub => Some (names ++ sub)%list
                               | None => None
                               end
                             | None => None
                             end).
  assert (Hnone : forall cs, fold_left stepW cs None = None
                             /\ fold_left stepP cs None = None).
  { induction cs as [|c cs IHcs]; simpl; auto. }
  assert (Hfold : forall cs names,
             fold_left stepW cs
                       (Some (line ++ spaced (flat_map (BVH.jointTokens pos) names)))
             = match fold_left stepP cs (Some names) with
               | Some names' =>
                 Some (line ++ spaced (flat_map (BVH.jointTokens pos) names'))
               | None => None
               end).
  { induction cs as [|c cs IHcs]; intros names; [reflexivity|].
    cbn [fold_left]. unfold stepW at 2, stepP at 2. rewrite IH.
    destruct (BVH.preorder fuel (BVH.name c)) as [sub|].
    - rewrite <- IHcs. do 2 f_equal.
      now rewrite flat_map_app, spaced_app, append_assoc.
    - destruct (Hnone cs) as [-> ->]. reflexivity. }
  rewrite <- (Hfold (BVH.childrenOf jointName) [jointName]).
  reflexivity.
Qed.

Lemma preorder_Hips :
  BVH.preorder BVH.fuel "Hips" = Some (map BVH.name BVH.joints).
Proof. reflexivity. Qed.

Lemma motionTokens_eq (frame : MocapFrame num) :
  BVH.motionTokens frame
  = flat_map (BVH.jointTokens
                (match BVH.positions (landmarks frame) with
                 | Normal pos => pos
                 | Throws _ => []
                 end)) (map BVH.name BVH.joints).
Proof.
  unfold BVH.motionTokens. rewrite preorder_Hips, BVH_positions_eq. reflexivity.
Qed.

Lemma motionTokens_length (frame : MocapFrame num) :
  length (BVH.motionTokens frame) = (6 * length BVH.joints)%nat.
Proof. rewrite motionTokens_eq. reflexivity. Qed.
End BVHFacts.

(* ================================================================= *)
(** * Statements of the specification: the motion block *)

Section MotionBlock.
Context {num : Type} {NumOps : JSNumber num} {Fmt : JSFormat num}.
Local Open Scope string_scope.

Lemma jointTokens_eq (pos : list (string * Vector3 num)) (jointName : string) :
  BVH.jointTokens pos jointName
  = [toFixed (vx (jointPosition pos jointName)) 4;
     toFixed (vy (jointPosition pos jointName)) 4;
     toFixed (vz (jointPosition pos jointName)) 4; "0.00"; "0.00"; "0.00"].
Proof. reflexivity. Qed.

Lemma zero_token_numeric : numericToken "0.00".
Proof. split; [discriminate|reflexivity]. Qed.

Lemma jointTokens_solid (pos : list (string * Vector3 num)) (jointName : string) :
  Forall solidToken (BVH.jointTokens pos jointName).
Proof.
  rewrite jointTokens_eq.
  repeat (apply Forall_cons; [first [apply toFixed_solid
                                    | apply numeric_solid, zero_token_numeric]|]).
  constructor.
Qed.


Lemma flat_map_solid (pos : list (string * Vector3 num)) (names : list string) :
  Forall solidToken (flat_map (BVH.jointTokens pos) names).
Proof.
  induction names as [|n names IH]; [constructor|].
  cbn [flat_map]. apply Forall_app. split; auto using jointTokens_solid.
Qed.


(** The body of the loop adds the tokens of the frame, separated by one
    space, and a line feed: [trim] takes the space after the last token
    and nothing else. *)
Lemma writeFrame_eq (bvh : string) (frame : MocapFrame num) :
  BVH.writeFrame bvh frame = Normal (Some (bvh ++ BVH.motionLine frame ++ nl)).
Proof.
  unfold BVH.writeFrame, BVH.motionLine, BVH.motionTokens.
  rewrite BVH_positions_eq. cbn [cbind].
  rewrite writeData_preorder, preorder_Hips.
  change ("" ++ ?s) with s. now rewrite trim_spaced by apply flat_map_solid.
Qed.

Lemma writeFrames_eq (frames : list (MocapFrame num)) : forall bvh,
  BVH.writeFrames bvh frames = Normal (Some (bvh ++ BVH.motionLines frames)).
Proof.
  induction frames as [|f frames IH]; intros bvh; cbn [BVH.writeFrames BVH.motionLines].
  - now rewrite append_nil_r.
  - rewrite writeFrame_eq. cbn [cbind]. rewrite IH. now rewrite !append_assoc.
Qed.
End MotionBlock.




(* ================================================================= *)
(** * Further properties of the smoother *)

Section SmootherShape.
Context {num : Type} {NumOps : JSNumber num}.
Variable alpha : num.

Lemma smoothLandmarks_None_iff (cs : list (Landmark3D num)) : forall ps,
  smoothLandmarks alpha cs ps = None <-> length ps < length cs.
Proof.
  induction cs as [|c cs IH]; intros ps; simpl.
  - split; [discriminate|lia].
  - destruct ps as [|p ps]; simpl; [split; [lia|reflexivity]|].
    specialize (IH ps).
    destruct (smoothLandmarks alpha cs ps); split; intros Hx.
    + discriminate.
    + exfalso. assert (Some l = None) by (apply IH; lia). discriminate.
    + assert (length ps < length cs) by now apply IH. lia.
    + reflexivity.
Qed.

Lemma smoothLandmarks_visibility (cs : list (Landmark3D num)) : forall ps sm,
  smoothLandmarks alpha cs ps = Some sm ->
  map (@visibility num) sm = map (@visibility num) cs.
Proof.
  induction cs as [|c cs IH]; intros ps sm; simpl.
  - now intros [= <-].
  - destruct ps as [|p ps]; [discriminate|].
    destruct (smoothLandmarks alpha cs ps) as [r|] eqn:Er; [|discriminate].
    intros [= <-]. simpl. f_equal. eauto.
Qed.

(** The loop throws when, and only when, a frame has more landmarks than
    the frame before it ([prev] for the first). *)
Lemma smoothLoop_None_iff (rest : list (MocapFrame num)) : forall prev,
  smoothLoop alpha rest prev = None <->
  exists i a b,
    nth_error (length prev :: map (fun f => length (landmarks f)) rest) i = Some a /\
    nth_error (map (fun f => length (landmarks f)) rest) i = Some b /\
    a < b.
Proof.
  induction rest as [|f fs IH]; intros prev.
  - simpl. split; [discriminate|]. intros (i & a & b & _ & Hb & _).
    destruct i; discriminate.
  - cbn [smoothLoop map].
    destruct (smoothLandmarks alpha (landmarks f) prev) as [sm|] eqn:Es.
    + pose proof (@smoothLandmarks_length num _ alpha _ _ _ Es) as Hlen.
      assert (Hok : ~ length prev < length (landmarks f)).
      { intros Hlt. apply smoothLandmarks_None_iff in Hlt. congruence. }
      specialize (IH sm). rewrite Hlen in IH.
      destruct (smoothLoop alpha fs sm) as [r|]; split.
      * discriminate.
      * intros (i & a & b & Ha & Hb & Hab). exfalso.
        destruct i as [|i]; simpl in Ha, Hb.
        -- injection Ha as <-. injection Hb as <-. contradiction.
        -- assert (Hnone : Some r = None); [|discriminate].
           apply IH. exists i, a, b. auto.
      * intros _. destruct (proj1 IH eq_refl) as (i & a & b & Ha & Hb & Hab).
        exists (S i), a, b. auto.
      * reflexivity.
    + split; [|reflexivity]. intros _.
      apply smoothLandmarks_None_iff in Es.
      exists 0, (length prev), (length (landmarks f)). auto.
Qed.

Lemma smoothValues_None_iff (fs : list (MocapFrame num)) :
  smoothValues fs alpha = None <->
  exists i f g,
    nth_error fs i = Some f /\ nth_error fs (S i) = Some g /\
    length (landmarks f) < length (landmarks g).
Proof.
  destruct fs as [|f0 rest]; simpl.
  - split; [discriminate|]. intros (i & f & g & Hf & _). destruct i; discriminate.
  - pose proof (smoothLoop_None_iff rest (landmarks f0)) as Hloop.
    destruct (smoothLoop alpha rest (landmarks f0)) as [r|]; split.
    + discriminate.
    + intros (i & f & g & Hf & Hg & Hlt). exfalso.
      assert (Hnone : Some r = None); [|discriminate].
      apply Hloop. exists i, (length (landmarks f)), (length (landmarks g)).
      split; [|split; auto].
      * change (length (landmarks f0) :: map (fun f => length (landmarks f)) rest)
          with (map (fun f => length (landmarks f)) (f0 :: rest)).
        now rewrite nth_error_map, Hf.
      * now rewrite nth_error_map, Hg.
    + intros _. destruct (proj1 Hloop eq_refl) as (i & a & b & Ha & Hb & Hab).
      change (length (landmarks f0) :: map (fun f => length (landmarks f)) rest)
        with (map (fun f => length (landmarks f)) (f0 :: rest)) in Ha.
      rewrite nth_error_map in Ha, Hb.
      destruct (nth_error (f0 :: rest) i) as [f|] eqn:Ef; [|discriminate].
      destruct (nth_error rest i) as [g|] eqn:Eg; [|discriminate].
      injection Ha as <-. injection Hb as <-.
      exists i, f, g. auto.
    + reflexivity.
Qed.

Lemma smoothLoop_visibilities (rest : list (MocapFrame num)) : forall prev out,
  smoothLoop alpha rest prev = Some out ->
  map visibilities out = map visibilities rest.
Proof.
  induction rest as [|f fs IH]; intros prev out; simpl.
  - now intros [= <-].
  - destruct (smoothLandmarks alpha (landmarks f) prev) as [sm|] eqn:Es; [|discriminate].
    destruct (smoothLoop alpha fs sm) as [r|] eqn:Er; [|discriminate].
    intros [= <-]. simpl. f_equal; [|eauto].
    unfold visibilities. simpl. eapply smoothLandmarks_visibility; eauto.
Qed.

Lemma smoothValues_visibilities (fs out : list (MocapFrame num)) :
  smoothValues fs alpha = Some out ->
  map visibilities out = map visibilities fs.
Proof.
  destruct fs as [|f0 rest]; simpl.
  - now intros [= <-].
  - destruct (smoothLoop alpha rest (landmarks f0)) as [r|] eqn:Er; [|discriminate].
    intros [= <-]. simpl. f_equal. eapply smoothLoop_visibilities; eauto.
Qed.

(** A run of [smoothFrames] on a store that holds the frames [fs]: the
    store is extended, and the value of the result is what the loop
    computes on the values; it is read from the extension alone. *)
Lemma smoothFrames_values (h h' : heap num) (frames out : loc)
      (fs : list (MocapFrame num)) :
  deep_frames h frames = Some fs ->
  smoothFrames frames alpha h = Some (out, h') ->
  exists ext sv,
    h' = h ++ ext /\
    smoothValues fs alpha = Some sv /\
    deep_frames h' out = Some sv /\
    fresh_read (fun h2 => deep_frames h2 out) (length h) h' sv.
Proof.
  intros Hdeep Hrun.
  pose proof (@smoothFrames_refines num _ alpha h frames fs Hdeep) as Href.
  destruct (smoothValues fs alpha) as [sv|]; [|congruence].
  destruct Href as (out' & ext & Hrun' & Hfr).
  rewrite Hrun in Hrun'. injection Hrun' as -> ->.
  exists ext, sv. repeat split; auto. apply (fresh_read_here Hfr).
Qed.

(** The result is the object allocated last. *)
Lemma smoothFrames_allocates (h h' : heap num) (frames out : loc) :
  smoothFrames frames alpha h = Some (out, h') -> length h' = S out.
Proof.
  unfold smoothFrames, bind, alloc.
  destruct (readArray frames h) as [[fl h1]|]; [|discriminate].
  destruct fl as [|f0 rest].
  - intros [= <- <-]. rewrite length_app. simpl. lia.
  - destruct (readFrame f0 h1) as [[[ts0 lms0] h2]|]; [|discriminate].
    destruct (readArray lms0 h2) as [[ls h3]|]; [|discriminate].
    destruct (mapM copyLandmark ls h3) as [[copies h4]|]; [|discriminate].
    destruct (smoothOuter alpha rest (length h4)
                          ((h4 ++ [OArray copies]) ++ [OFrame ts0 (length h4)]))
      as [[r h5]|]; [|discriminate].
    intros [= <- <-]. rewrite length_app. simpl. lia.
Qed.
End SmootherShape.

(** X1: [smoothFrames] throws when, and only when, some frame has more
    landmarks than the frame before it: the landmark of the previous
    smoothed frame is then [undefined] and reading its [x] is a
    [TypeError].  Frames may lose landmarks without an error. *)
Theorem smoothFrames_throws_iff
        {num : Type} {NumOps : JSNumber num}
        (alpha : num) (h : heap num) (frames : loc) (fs : list (MocapFrame num)) :
  deep_frames h frames = Some fs ->
  (smoothFrames frames alpha h = None <->
   exists i f g,
     nth_error fs i = Some f /\ nth_error fs (S i) = Some g /\
     length (landmarks f) < length (landmarks g)).
Proof.
  intros Hdeep.
  pose proof (@smoothFrames_refines num _ alpha h frames fs Hdeep) as Href.
  rewrite <- (smoothValues_None_iff alpha fs).
  destruct (smoothValues fs alpha) as [sv|].
  - destruct Href as (out & ext & -> & _). split; discriminate.
  - split; auto.
Qed.

Lemma smoothFrames_throws_iff_witness :
  smoothFrames 7 (1 # 2)%Q growing_frames = None.
Proof.
  apply (proj2 (@smoothFrames_throws_iff Q _ (1 # 2)%Q growing_frames 7
                  [mkFrame 0%Q [mkLandmark 0%Q 0%Q 0%Q None];
                   mkFrame (1 # 30)%Q [mkLandmark 1%Q 1%Q 1%Q None;
                                       mkLandmark 2%Q 2%Q 2%Q None]]
                  eq_refl)).
  exists 0. do 2 eexists. split; [reflexivity|]. split; [reflexivity|]. simpl. lia.
Defined.

(** X2: whenever [smoothFrames] returns, for any [alpha] and any input
    (empty, or with frames that lose landmarks), the result is a new
    object, the store it was given is unchanged, and the timestamps and
    the [visibility] of every landmark are those of the input, frame by
    frame; so the result has as many frames, and each frame as many
    landmarks, as the input.  On an empty input it is a new empty
    array. *)
Theorem smoothFrames_keeps_shape
        {num : Type} {NumOps : JSNumber num}
        (alpha : num) (h h' : heap num) (frames out : loc)
        (fs : list (MocapFrame num)) :
  deep_frames h frames = Some fs ->
  smoothFrames frames alpha h = Some (out, h') ->
  exists ext sv,
    h' = h ++ ext /\
    length h <= out /\
    deep_frames h' out = Some sv /\
    map (@timestamp num) sv = map (@timestamp num) fs /\
    map visibilities sv = map visibilities fs /\
    (fs = [] -> sv = [] /\ ext = [OArray []]).
Proof.
  intros Hdeep Hrun.
  destruct (smoothFrames_values alpha h h' frames out fs Hdeep Hrun)
    as (ext & sv & -> & Hsv & Hread & Hfr).
  pose proof (smoothFrames_allocates alpha h _ frames out Hrun) as Hlast.
  exists ext, sv. split; [reflexivity|].
  assert (Hext : ext <> []).
  { intros ->. specialize (Hfr []).
    unfold deep_frames, lookupArray in Hfr.
    assert (Hnil : nth_error (@nil (obj num)) out = None) by now destruct out.
    rewrite Hnil in Hfr. discriminate Hfr.
    intros l Hge Hlt. rewrite app_nil_r in Hlt. lia. }
  split.
  { rewrite length_app in Hlast. destruct ext; [congruence|]. simpl in Hlast. lia. }
  split; [exact Hread|].
  destruct (@smoothValues_shape num _ alpha fs sv Hsv) as (Hlen & Hts & _).
  split; [exact Hts|]. split; [eapply smoothValues_visibilities; eauto|].
  intros ->. simpl in Hsv. injection Hsv as <-. split; [reflexivity|].
  unfold deep_frames in Hdeep.
  destruct (lookupArray h frames) as [fl|] eqn:Efl; [|discriminate].
  destruct fl as [|f0 rest].
  - unfold smoothFrames, bind, readArray, liftRead in Hrun. rewrite Efl in Hrun.
    unfold alloc in Hrun. injection Hrun as _ Hh.
    now apply app_inv_head in Hh.
  - simpl in Hdeep. destruct (deep_frame h f0); [|discriminate].
    destruct (traverse (deep_frame h) rest); discriminate.
Qed.

Lemma smoothFrames_keeps_shape_witness :
  exists ext sv,
    smoothFrames 0 (1 # 2)%Q [OArray []] = Some (1, [OArray []] ++ ext) /\
    deep_frames ([OArray []] ++ ext) 1 = Some sv /\ sv = [] /\ ext = [OArray []].
Proof.
  destruct (@smoothFrames_keeps_shape Q _ (1 # 2)%Q [OArray []] [OArray []; OArray []]
              0 1 [] eq_refl eq_refl)
    as (ext & sv & Hh & _ & Hread & _ & _ & Hempty).
  destruct (Hempty eq_refl) as [-> ->].
  exists [OArray []], []. repeat split; reflexivity.
Defined.

(* ================================================================= *)
(** * The smoother in exact arithmetic *)

Section SmootherExact.
Local Open Scope R_scope.

Lemma smoothLandmark_one (c p : Landmark3D R) : smoothLandmark 1 c p = c.
Proof.
  destruct c as [x y z v]. unfold smoothLandmark. r_ops. cbn [lx ly lz visibility].
  f_equal; ring.
Qed.

Lemma smoothLandmarks_one (cs : list (Landmark3D R)) : forall ps sm,
  smoothLandmarks 1 cs ps = Some sm -> sm = cs.
Proof.
  induction cs as [|c cs IH]; intros ps sm; simpl.
  - now intros [= <-].
  - destruct ps as [|p ps]; [discriminate|].
    destruct (smoothLandmarks 1 cs ps) as [r|] eqn:Er; [|discriminate].
    intros [= <-]. rewrite smoothLandmark_one. f_equal. eauto.
Qed.

Lemma smoothLoop_one (rest : list (MocapFrame R)) : forall prev out,
  smoothLoop 1 rest prev = Some out -> out = rest.
Proof.
  induction rest as [|f fs IH]; intros prev out; simpl.
  - now intros [= <-].
  - destruct (smoothLandmarks 1 (landmarks f) prev) as [sm|] eqn:Es; [|discriminate].
    destruct (smoothLoop 1 fs sm) as [r|] eqn:Er; [|discriminate].
    intros [= <-]. rewrite (smoothLandmarks_one _ _ _ Es), (IH _ _ Er).
    now destruct f.
Qed.

(** With [alpha = 0] every frame of the loop repeats the coordinates of
    [prev]. *)
Lemma smoothLandmarks_zero (cs : list (Landmark3D R)) : forall ps sm j l,
  smoothLandmarks 0 cs ps = Some sm ->
  nth_error sm j = Some l ->
  exists p, nth_error ps j = Some p /\ lx l = lx p /\ ly l = ly p /\ lz l = lz p.
Proof.
  induction cs as [|c cs IH]; intros ps sm j l; simpl.
  - intros [= <-] Hj. destruct j; discriminate.
  - destruct ps as [|p ps]; [discriminate|].
    destruct (smoothLandmarks 0 cs ps) as [r|] eqn:Er; [|discriminate].
    intros [= <-] Hj. destruct j as [|j]; simpl in Hj |- *.
    + injection Hj as <-. exists p. split; [reflexivity|].
      unfold smoothLandmark. r_ops. cbn [lx ly lz]. repeat split; ring.
    + eapply IH; eauto.
Qed.

Lemma smoothLoop_zero (rest : list (MocapFrame R)) : forall prev out i f j l,
  smoothLoop 0 rest prev = Some out ->
  nth_error out i = Some f ->
  nth_error (landmarks f) j = Some l ->
  exists p, nth_error prev j = Some p /\ lx l = lx p /\ ly l = ly p /\ lz l = lz p.
Proof.
  induction rest as [|f0 fs IH]; intros prev out i f j l; simpl.
  - intros [= <-] Hi. destruct i; discriminate.
  - destruct (smoothLandmarks 0 (landmarks f0) prev) as [sm|] eqn:Es; [|discriminate].
    destruct (smoothLoop 0 fs sm) as [r|] eqn:Er; [|discriminate].
    intros [= <-] Hi Hj. destruct i as [|i]; simpl in Hi.
    + injection Hi as <-. simpl in Hj. eapply smoothLandmarks_zero; eauto.
    + destruct (IH _ _ _ _ _ _ Er Hi Hj) as (q & Hq & Hx & Hy & Hz).
      destruct (smoothLandmarks_zero _ _ _ _ _ Es Hq) as (p & Hp & Hx' & Hy' & Hz').
      exists p. repeat split; congruence.
Qed.
End SmootherExact.

(** X3: with [alpha = 1] the smoother does not smooth: whenever it
    returns, its result holds the frames of the input, value for value
    (in exact arithmetic). *)
Theorem smoothFrames_alpha_one
        (h h' : heap R) (frames out : loc) (fs : list (MocapFrame R)) :
  deep_frames h frames = Some fs ->
  smoothFrames frames 1%R h = Some (out, h') ->
  deep_frames h' out = Some fs.
Proof.
  intros Hdeep Hrun.
  destruct (smoothFrames_values 1%R h h' frames out fs Hdeep Hrun)
    as (ext & sv & _ & Hsv & Hread & _).
  rewrite Hread. f_equal.
  destruct fs as [|f0 rest]; simpl in Hsv.
  - now injection Hsv as <-.
  - destruct (smoothLoop 1%R rest (landmarks f0)) as [r|] eqn:Er; [|discriminate].
    injection Hsv as <-. rewrite (smoothLoop_one _ _ _ Er). now destruct f0.
Qed.

Lemma smoothFrames_alpha_one_witness :
  exists out h',
    smoothFrames 6 1%R (two_poses 0 1) = Some (out, h') /\
    deep_frames h' out
    = Some [mkFrame 0%R [mkLandmark 0%R 0%R 0%R None];
            mkFrame (/ 30)%R [mkLandmark 1%R 1%R 1%R None]].
Proof.
  do 2 eexists. split; [reflexivity|].
  apply (smoothFrames_alpha_one (two_poses 0 1) _ 6 _ _ eq_refl eq_refl).
Defined.

(** X4: with [alpha = 0] the pose is frozen: whenever the smoother
    returns, every landmark of every output frame has the coordinates of
    the landmark of the same index in the first input frame (in exact
    arithmetic); only the timestamps and the visibilities move on. *)
Theorem smoothFrames_alpha_zero
        (h h' : heap R) (frames out : loc) (fs : list (MocapFrame R)) :
  deep_frames h frames = Some fs ->
  smoothFrames frames 0%R h = Some (out, h') ->
  exists sv,
    deep_frames h' out = Some sv /\
    forall i f j l,
      nth_error sv i = Some f ->
      nth_error (landmarks f) j = Some l ->
      exists f0 l0,
        nth_error fs 0 = Some f0 /\
        nth_error (landmarks f0) j = Some l0 /\
        lx l = lx l0 /\ ly l = ly l0 /\ lz l = lz l0.
Proof.
  intros Hdeep Hrun.
  destruct (smoothFrames_values 0%R h h' frames out fs Hdeep Hrun)
    as (ext & sv & _ & Hsv & Hread & _).
  exists sv. split; [exact Hread|].
  intros i f j l Hi Hj.
  destruct fs as [|f0 rest]; simpl in Hsv.
  - injection Hsv as <-. destruct i; discriminate.
  - destruct (smoothLoop 0%R rest (landmarks f0)) as [r|] eqn:Er; [|discriminate].
    injection Hsv as <-. exists f0. destruct i as [|i]; simpl in Hi.
    + injection Hi as <-. exists l. simpl in Hj. auto.
    + destruct (smoothLoop_zero _ _ _ _ _ _ _ Er Hi Hj) as (p & Hp & Hxyz).
      exists p. auto.
Qed.

Lemma smoothFrames_alpha_zero_witness :
  exists out h' sv,
    smoothFrames 6 0%R (two_poses 0 1) = Some (out, h') /\
    deep_frames h' out = Some sv.
Proof.
  do 2 eexists.
  destruct (smoothFrames_alpha_zero (two_poses 0 1) _ 6 _ _ eq_refl eq_refl)
    as (sv & Hread & _).
  exists sv. split; [reflexivity|exact Hread].
Defined.

(* ================================================================= *)
(** * Further properties of the rotation exporter *)

(** X7: a sequence in which some frame holds fewer than 29 landmarks
    (the indices read go up to [RIGHT_ANKLE = 28]) makes [generateFBX]
    throw a [TypeError], wherever the frame stands and whatever the
    backend is: the backend is not called. *)
Theorem generateFBX_short_frame
        {num : Type} {NumOps : JSNumber num} {MathOps : JSMath num} {buffer : Type}
        (parse : FBX.Scene -> FBX.AnimationClip num -> completion buffer)
        (frames : list (MocapFrame num)) :
  (exists f, In f frames /\ length (landmarks f) < 29) ->
  FBX.generateFBX parse frames = Throws TypeError.
Proof.
  intros Hshort.
  destruct frames as [|f0 frames]; [destruct Hshort as (f & [] & _)|].
  unfold FBX.generateFBX, FBX.buildTracks. cbn [FBX.buildScene cbind].
  assert (Hscene : exists scene, FBX.buildScene = Normal scene)
    by (eexists; reflexivity).
  destruct Hscene as [scene ->]. cbn [cbind].
  now rewrite (foldC_processFrame_short (f0 :: frames) _ tracksData0_keys Hshort).
Qed.

Lemma generateFBX_short_frame_witness :
  FBX.generateFBX (fun _ (c : FBX.AnimationClip PrimFloat.float) => Normal c)
                  [still_frame; truncateFrame 28 still_frame]
  = Throws TypeError.
Proof.
  apply generateFBX_short_frame.
  exists (truncateFrame 28 still_frame). split; [simpl; auto|vm_compute; lia].
Defined.

(** X8: for a non-empty sequence whose frames hold their landmarks, the
    tracks of the clip are, in the order of [boneMap], the quaternion
    track [<bone>.quaternion] of every bone, the root's being followed by
    its position track [mixamorig:Hips.position].  Every track has the
    timestamps of the frames as its times and a whole number of keys:
    four values per frame on a quaternion track, three on the position
    track. *)
Theorem track_layout
        {num : Type} {NumOps : JSNumber num} {MathOps : JSMath num}
        (frames : list (MocapFrame num)) :
  frames <> [] ->
  (forall f, In f frames -> 29 <= length (landmarks f)) ->
  exists tracks,
    FBX.buildTracks frames = Normal tracks /\
    map (@FBX.trackName num) tracks
    = ("mixamorig:Hips.quaternion" :: "mixamorig:Hips.position"
       :: map (fun b => FBX.name b ++ ".quaternion") (tl FBX.boneMap))%string /\
    map (@FBX.kind num) tracks
    = FBX.QuaternionKeyframeTrack :: FBX.VectorKeyframeTrack
      :: repeat FBX.QuaternionKeyframeTrack 19 /\
    Forall (fun t => FBX.times t = map (@timestamp num) frames /\
                     length (FBX.values t) = itemSize (FBX.kind t) * length frames)
           tracks.
Proof.
  intros Hne Hlen. eexists. split; [apply buildTracks_content; assumption|].
  split; [reflexivity|]. split; [reflexivity|].
  assert (Hq : forall b : FBX.BoneSpec,
             length (flat_map (fun f => FBX.quatValues (frameLocal f b)) frames)
             = 4 * length frames).
  { intros b. clear. induction frames as [|f frames IH]; [reflexivity|].
    cbn [flat_map]. rewrite length_app, IH. simpl. lia. }
  assert (Hp : length (flat_map (fun f => FBX.hipsValues (frameHips f)) frames)
               = 3 * length frames).
  { clear. induction frames as [|f frames IH]; [reflexivity|].
    cbn [flat_map]. rewrite length_app, IH. simpl. lia. }
  unfold FBX.boneMap. cbn [flat_map boneTracks FBX.name String.eqb Ascii.eqb Bool.eqb app].
  repeat (apply Forall_cons;
          [cbn [FBX.times FBX.values FBX.kind itemSize]; split; [reflexivity|auto]|]).
  constructor.
Qed.

Lemma track_layout_witness :
  exists tracks,
    FBX.buildTracks [still_frame] = Normal tracks /\ length tracks = 21.
Proof.
  destruct (@track_layout PrimFloat.float _ _ [still_frame]) as (tracks & Hrun & Hn & _).
  - discriminate.
  - intros f [<-|[]]. vm_compute. lia.
  - exists tracks. split; [exact Hrun|].
    rewrite <- (length_map (@FBX.trackName _)), Hn. reflexivity.
Defined.

(* ================================================================= *)
(** * The rotation exporter in exact arithmetic *)

Section FBXExact.
Local Open Scope R_scope.
Local Open Scope string_scope.


Lemma flat_map_ext_in {A B} (f g : A -> list B) (l : list A) :
  (forall a, In a l -> f a = g a) -> flat_map f l = flat_map g l.
Proof.
  induction l as [|a l IH]; intros Hfg; simpl; [reflexivity|].
  rewrite (Hfg a) by now left. f_equal. apply IH. intros; apply Hfg; now right.
Qed.


End FBXExact.



Section ExportersAgree.
Local Open Scope R_scope.
Local Open Scope string_scope.

(** Inside the range the two helpers read the same vector. *)
Lemma getPos_getVec (lm : list (Landmark3D R)) (idx : Z) :
  (0 <= idx < Z.of_nat (length lm))%Z ->
  BVH.getPos lm idx = FBX.getVec lm idx.
Proof.
  intros [H0 Hlt]. unfold BVH.getPos, FBX.getVec, FBX.scale.
  rewrite (proj2 (Z.ltb_ge idx 0)) by lia. cbn [orb].
  assert (Hge : (idx >=? Z.of_nat (length lm))%Z = false).
  { rewrite Z.geb_leb. apply Z.leb_gt. lia. }
  rewrite Hge. destruct (js_index lm idx) as [l|]; cbn [deref cbind]; [|reflexivity].
  r_ops. f_equal. f_equal; ring.
Qed.

Lemma posAt_vecAt (lm : list (Landmark3D R)) (idx : Z) :
  (0 <= idx < Z.of_nat (length lm))%Z -> BVH.posAt lm idx = FBX.vecAt lm idx.
Proof.
  intros Hr. unfold BVH.posAt, FBX.vecAt. now rewrite getPos_getVec.
Qed.

Lemma bvhJoint_table (frame : MocapFrame R) :
  (29 <= length (landmarks frame))%nat ->
  Forall (fun jb => lookup (framePositions frame) (snd jb)
                    = Some (bvhJoint frame (fst jb))) sharedJoints.
Proof.
  intros Hlen.
  unfold bvhJoint, framePositions.
  rewrite (positions_eq (landmarks frame) Hlen), BVH_positions_eq. cbv zeta.
  unfold FBX.positionTable, sharedJoints.
  repeat (apply Forall_cons;
          [cbn [fst snd lookup String.eqb Ascii.eqb Bool.eqb];
           rewrite ?posAt_vecAt by lia;
           try reflexivity|]);
    [| |constructor].
  - f_equal. unfold multiplyScalar, addVectors, dec. r_ops. f_equal; lra.
  - f_equal. unfold multiplyScalar, addVectors, dec. r_ops. f_equal; lra.
Qed.
End ExportersAgree.

(** X11: the two exporters place their common joints at the same
    points (in exact arithmetic).  At an index that is present [getPos]
    and [getVec] both read the landmark mirrored in x and y and scaled to
    centimetres, [(-100 x, -100 y, 100 z)], and for a frame that holds
    its landmarks each of the fifteen joints of the positional exporter
    sits where the rotation exporter puts the matching bone (the joint
    [Spine] is the bone [mixamorig:Neck]). *)
Theorem exporters_agree_on_joints (frame : MocapFrame R) :
  29 <= length (landmarks frame) ->
  (forall idx l, js_index (landmarks frame) idx = Some l ->
     BVH.getPos (landmarks frame) idx = Normal (mirrored l) /\
     FBX.getVec (landmarks frame) idx = Normal (mirrored l)) /\
  (forall idx, (0 <= idx < Z.of_nat (length (landmarks frame)))%Z ->
               BVH.getPos (landmarks frame) idx = FBX.getVec (landmarks frame) idx) /\
  map fst sharedJoints = map BVH.name BVH.joints /\
  Forall (fun jb => lookup (framePositions frame) (snd jb)
                    = Some (bvhJoint frame (fst jb))) sharedJoints.
Proof.
  intros Hlen. split.
  { intros idx l Hl. split; [now apply getPos_mirrored|now apply getVec_mirrored]. }
  split; [intros idx; apply getPos_getVec|].
  split; [reflexivity|]. now apply bvhJoint_table.
Qed.

Lemma exporters_agree_on_joints_witness :
  BVH.getPos (landmarks slanted_frame) 11
  = Normal (mkVec (-100 * (11 / 100)) (-100 * (- 11 / 50)) (100 * (11 / 25)))%R /\
  FBX.getVec (landmarks slanted_frame) 11
  = Normal (mkVec (-100 * (11 / 100)) (-100 * (- 11 / 50)) (100 * (11 / 25)))%R /\
  lookup (framePositions slanted_frame) "mixamorig:Neck"
  = Some (bvhJoint slanted_frame "Spine").
Proof.
  destruct (exporters_agree_on_joints slanted_frame) as (Hread & _ & _ & Hall).
  - vm_compute. lia.
  - destruct (Hread 11%Z _ eq_refl) as [Hp Hv].
    split; [exact Hp|]. split; [exact Hv|].
    rewrite Forall_forall in Hall.
    apply (Hall ("Spine", "mixamorig:Neck")%string). simpl. tauto.
Defined.

(** X12: the position track of the root holds, for every frame, the
    point where the positional exporter puts [Hips] (the midpoint of the
    two hips, mirrored and in centimetres) raised by 100 on the Y axis
    (in exact arithmetic); it is the only position track. *)
Theorem root_position_track (frames : list (MocapFrame R)) :
  frames <> [] ->
  (forall f, In f frames -> 29 <= length (landmarks f)) ->
  exists tracks t,
    FBX.buildTracks frames = Normal tracks /\
    nth_error tracks 1 = Some t /\
    FBX.trackName t = "mixamorig:Hips.position"%string /\
    FBX.values t
    = flat_map (fun f => let p := bvhJoint f "Hips" in
                         [vx p; (vy p + 100)%R; vz p]) frames /\
    forall t', In t' tracks -> FBX.kind t' = FBX.VectorKeyframeTrack -> t' = t.
Proof.
  intros Hne Hlen. do 2 eexists.
  split; [apply buildTracks_content; assumption|].
  split; [reflexivity|]. split; [reflexivity|]. split.
  - cbn [FBX.values]. apply flat_map_ext_in. intros f Hf.
    pose proof (bvhJoint_table f (Hlen f Hf)) as Hall.
    rewrite Forall_forall in Hall.
    specialize (Hall ("Hips", "mixamorig:Hips")%string (or_introl eq_refl)).
    cbn [fst snd] in Hall. unfold frameHips. rewrite Hall. reflexivity.
  - intros t' Ht' Hkind. unfold FBX.boneMap in Ht'.
    cbn [flat_map boneTracks FBX.name String.eqb Ascii.eqb Bool.eqb app In] in Ht'.
    repeat (destruct Ht' as [<-|Ht']; [first [reflexivity|discriminate Hkind]|]).
    destruct Ht'.
Qed.

Lemma root_position_track_witness :
  exists tracks t,
    FBX.buildTracks [upright_frame] = Normal tracks /\ nth_error tracks 1 = Some t.
Proof.
  destruct (root_position_track [upright_frame]) as (tracks & t & Hrun & Ht & _).
  - discriminate.
  - intros f [<-|[]]. vm_compute. lia.
  - exists tracks, t. auto.
Defined.

Section CompletionMaps.
Context {A B S : Type}.

Lemma foldC_map {A'} (f : S -> A -> completion S) (g : A' -> A) (l : list A') :
  forall s, foldC f (map g l) s = foldC (fun s a => f s (g a)) l s.
Proof.
  induction l as [|a l IH]; intros s; simpl; [reflexivity|].
  destruct (f s (g a)); simpl; auto.
Qed.

Lemma foldC_ext (f g : S -> A -> completion S) (l : list A) :
  (forall s a, f s a = g s a) -> forall s, foldC f l s = foldC g l s.
Proof.
  intros Hfg. induction l as [|a l IH]; intros s; simpl; [reflexivity|].
  rewrite Hfg. destruct (g s a); simpl; auto.
Qed.
End CompletionMaps.

Section UnusedLandmarks.
Context {num : Type} {NumOps : JSNumber num} {MathOps : JSMath num} {Fmt : JSFormat num}.

Lemma nth_error_firstn_lt {A} (n : nat) : forall (l : list A) (i : nat),
  i < n -> nth_error (firstn n l) i = nth_error l i.
Proof.
  induction n as [|n IH]; intros l i Hi; [lia|].
  destruct l as [|a l]; [reflexivity|]. destruct i as [|i]; [reflexivity|].
  simpl. apply IH. lia.
Qed.

Lemma js_index_firstn (n : nat) (lm : list (Landmark3D num)) (idx : Z) :
  (idx < Z.of_nat n)%Z -> js_index (firstn n lm) idx = js_index lm idx.
Proof.
  intros Hlt. unfold js_index. destruct (idx <? 0)%Z eqn:E; [reflexivity|].
  apply Z.ltb_ge in E. apply nth_error_firstn_lt. lia.
Qed.

Lemma getVec_firstn (lm : list (Landmark3D num)) (idx : Z) :
  (idx < 29)%Z -> FBX.getVec (firstn 29 lm) idx = FBX.getVec lm idx.
Proof. intros Hlt. unfold FBX.getVec. now rewrite js_index_firstn. Qed.

Lemma getPos_firstn (lm : list (Landmark3D num)) (idx : Z) :
  (idx < 29)%Z -> BVH.getPos (firstn 29 lm) idx = BVH.getPos lm idx.
Proof.
  intros Hlt. unfold BVH.getPos. rewrite js_index_firstn by exact Hlt.
  rewrite length_firstn.
  destruct (idx <? 0)%Z; [reflexivity|]. cbn [orb].
  assert (Hg : (idx >=? Z.of_nat (Nat.min 29 (length lm)))%Z
               = (idx >=? Z.of_nat (length lm))%Z).
  { rewrite !Z.geb_leb.
    destruct (Z.leb_spec (Z.of_nat (length lm)) idx);
      destruct (Z.leb_spec (Z.of_nat (Nat.min 29 (length lm))) idx); auto; lia. }
  now rewrite Hg.
Qed.

Lemma FBX_positions_firstn (lm : list (Landmark3D num)) :
  FBX.positions (firstn 29 lm) = FBX.positions lm.
Proof.
  unfold FBX.positions.
  rewrite !getVec_firstn by reflexivity. reflexivity.
Qed.

Lemma BVH_positions_firstn (lm : list (Landmark3D num)) :
  BVH.positions (firstn 29 lm) = BVH.positions lm.
Proof.
  unfold BVH.positions.
  rewrite !getPos_firstn by reflexivity. reflexivity.
Qed.

Lemma writeFrames_truncate (frames : list (MocapFrame num)) : forall bvh,
  BVH.writeFrames bvh (map (truncateFrame 29) frames) = BVH.writeFrames bvh frames.
Proof.
  induction frames as [|f frames IH]; intros bvh; [reflexivity|].
  cbn [map BVH.writeFrames]. unfold BVH.writeFrame, truncateFrame at 1.
  cbn [landmarks]. rewrite BVH_positions_firstn.
  destruct (BVH.positions (landmarks f)) as [pos|]; cbn [cbind]; [|reflexivity].
  destruct (BVH.writeData BVH.fuel pos "Hips" ""); auto.
Qed.
End UnusedLandmarks.

(** X14: neither exporter reads a landmark beyond index 28: the heels
    and the foot indices (29 to 32) have no effect on the output.  Cutting
    every frame down to its first 29 landmarks changes neither what
    [generateFBX] hands to the backend (or throws) nor the text of
    [generateBVH]. *)
Theorem landmarks_beyond_28_are_unused
        {num : Type} {NumOps : JSNumber num} {MathOps : JSMath num}
        {Fmt : JSFormat num} {buffer : Type}
        (parse : FBX.Scene -> FBX.AnimationClip num -> completion buffer)
        (frames : list (MocapFrame num)) :
  FBX.generateFBX parse (map (truncateFrame 29) frames) = FBX.generateFBX parse frames /\
  BVH.generateBVH (map (truncateFrame 29) frames) = BVH.generateBVH frames.
Proof.
  split.
  - destruct frames as [|f frames]; [reflexivity|].
    assert (Hb : FBX.buildTracks (map (truncateFrame 29) (f :: frames))
                 = FBX.buildTracks (f :: frames)).
    { unfold FBX.buildTracks. rewrite map_map. cbn [truncateFrame timestamp].
      rewrite foldC_map.
      rewrite (foldC_ext _ FBX.processFrame); [reflexivity|].
      intros td g. unfold FBX.processFrame, truncateFrame. cbn [landmarks].
      now rewrite FBX_positions_firstn. }
    cbn [map] in Hb |- *. unfold FBX.generateFBX. now rewrite Hb.
  - destruct frames as [|f frames]; [reflexivity|].
    cbn [map]. unfold BVH.generateBVH. cbn [length]. rewrite length_map.
    destruct (BVH.writeJoint BVH.fuel "Hips" _) as [[bvh n]|]; [|reflexivity].
    apply (writeFrames_truncate (f :: frames)).
Qed.

(* ================================================================= *)
(** * Further properties of the positional exporter *)

Section BVHMissing.
Local Open Scope string_scope.

Lemma posAt_outside {num} {NumOps : JSNumber num} (lm : list (Landmark3D num)) (idx : Z) :
  (Z.of_nat (length lm) <= idx)%Z -> BVH.posAt lm idx = BVH.zeroVec.
Proof.
  intros Hge. unfold BVH.posAt, BVH.getPos.
  assert (Hg : (idx >=? Z.of_nat (length lm))%Z = true).
  { rewrite Z.geb_leb. apply Z.leb_le. lia. }
  rewrite Hg, orb_true_r. reflexivity.
Qed.
End BVHMissing.

(** X17: the positional exporter writes a joint whose landmark is
    missing from a frame at the origin: its six numbers on the motion
    line are [0.0000 0.0000 0.0000 0.00 0.00 0.00].  A frame without any
    landmark gives a line of fifteen such groups. *)
Theorem missing_landmark_is_written_as_zero (frame : MocapFrame Q) (j : BVH.Joint) :
  In j BVH.joints ->
  (0 <= BVH.mpIndex j)%Z ->
  (Z.of_nat (length (landmarks frame)) <= BVH.mpIndex j)%Z ->
  exists pos,
    BVH.positions (landmarks frame) = Normal pos /\
    BVH.jointTokens pos (BVH.name j) = zeroTokens /\
    (landmarks frame = [] ->
     BVH.motionTokens frame = flat_map (fun _ => zeroTokens) BVH.joints).
Proof.
  intros Hj H0 Hout. eexists. split; [apply BVH_positions_eq|]. split.
  - cbv zeta. unfold BVH.joints in Hj. cbn [In] in Hj.
    repeat (destruct Hj as [<-|Hj];
            [first [ exfalso; cbn [BVH.mpIndex] in H0; lia
                   | unfold BVH.jointTokens;
                     cbn [BVH.name lookup String.eqb Ascii.eqb Bool.eqb];
                     rewrite posAt_outside by exact Hout; reflexivity ]|]).
    destruct Hj.
  - intros Hnil. unfold BVH.motionTokens. rewrite Hnil. reflexivity.
Qed.

Lemma missing_landmark_is_written_as_zero_witness :
  exists pos,
    BVH.positions (@nil (Landmark3D Q)) = Normal pos /\
    BVH.jointTokens pos "Head" = zeroTokens.
Proof.
  destruct (missing_landmark_is_written_as_zero
              (mkFrame 0%Q []) (BVH.mkJoint "Head" (Some "Spine"%string) MP_POSE.NOSE))
    as (pos & Hpos & Htok & _).
  - simpl. tauto.
  - discriminate.
  - discriminate.
  - exists pos. auto.
Defined.

(** X18: the file is consistent with itself.  For a non-empty
    sequence the text is the hierarchy followed by the motion block; the
    joints that the hierarchy declares, read off its [ROOT] and [JOINT]
    lines, are the fifteen joints in the order in which every motion line
    lists their numbers; each declares six channels, so that a motion
    line has six numbers per declared joint; the five joints without a
    child end in an [End Site]; and the braces are balanced. *)
Theorem hierarchy_matches_motion (frames : list (MocapFrame Q)) :
  frames <> [] ->
  exists hierarchy motion,
    BVH.generateBVH frames = Normal (Some (hierarchy ++ motion)%string) /\
    String.prefix ("MOTION" ++ nl) motion = true /\
    declaredJoints hierarchy = map BVH.name BVH.joints /\
    BVH.preorder BVH.fuel "Hips" = Some (declaredJoints hierarchy) /\
    countPrefixed "CHANNELS 6 " hierarchy = length (declaredJoints hierarchy) /\
    countLines "End Site" hierarchy
    = length (filter (fun j => match BVH.childrenOf (BVH.name j) with
                               | [] => true
                               | _ => false
                               end) BVH.joints) /\
    countLines "{" hierarchy = countLines "}" hierarchy /\
    forall frame, In frame frames ->
      length (BVH.motionTokens frame) = 6 * length (declaredJoints hierarchy).
Proof.
  intros Hne.
  destruct (BVH.writeJoint BVH.fuel "Hips" ("HIERARCHY" ++ nl, 0)%string)
    as [[hierarchy ind]|] eqn:Hw; [|vm_compute in Hw; discriminate].
  exists hierarchy. eexists. split.
  { destruct frames as [|f frames]; [congruence|].
    unfold BVH.generateBVH. rewrite Hw, writeFrames_eq.
    rewrite !append_assoc. reflexivity. }
  vm_compute in Hw. injection Hw as <- _.
  split; [reflexivity|]. split; [vm_compute; reflexivity|].
  split; [vm_compute; reflexivity|]. split; [vm_compute; reflexivity|].
  split; [vm_compute; reflexivity|]. split; [vm_compute; reflexivity|].
  intros frame _. rewrite motionTokens_length. vm_compute. reflexivity.
Qed.

Lemma hierarchy_matches_motion_witness :
  exists hierarchy motion,
    BVH.generateBVH [mkFrame 0%Q []] = Normal (Some (hierarchy ++ motion)%string) /\
    length (declaredJoints hierarchy) = 15.
Proof.
  destruct (hierarchy_matches_motion [mkFrame 0%Q []])
    as (hierarchy & motion & Hgen & _ & Hd & _).
  - discriminate.
  - exists hierarchy, motion. split; [exact Hgen|]. rewrite Hd. reflexivity.
Defined.

(* ================================================================= *)
(** * Smoothing, then exporting *)

Section Pipeline.
Context {num : Type} {NumOps : JSNumber num}.

Lemma visibilities_counts (sv fs : list (MocapFrame num)) :
  map visibilities sv = map visibilities fs ->
  forall f', In f' sv ->
    exists f, In f fs /\ length (landmarks f') = length (landmarks f).
Proof.
  revert fs. induction sv as [|s sv IH]; intros fs Hmap f' Hin; [destruct Hin|].
  destruct fs as [|f fs]; [discriminate|]. simpl in Hmap.
  injection Hmap as Hv Hrest. destruct Hin as [<-|Hin].
  - exists f. split; [now left|].
    apply (f_equal (@length _)) in Hv. unfold visibilities in Hv.
    now rewrite !length_map in Hv.
  - destruct (IH fs Hrest f' Hin) as (g & Hg & Hlen). exists g. split; [now right|auto].
Qed.
End Pipeline.

(** X19: smoothing keeps a sequence exportable.  When no raw frame has
    more landmarks than the one before it and every raw frame holds the
    29 landmarks that the rotation exporter reads, [smoothFrames] returns
    for every [alpha], and [generateFBX] on its result reaches the backend
    with a clip whose tracks all have the timestamps of the raw frames as
    their times. *)
Theorem smoothing_then_export
        {num : Type} {NumOps : JSNumber num} {MathOps : JSMath num} {buffer : Type}
        (parse : FBX.Scene -> FBX.AnimationClip num -> completion buffer)
        (alpha : num) (h : heap num) (raw : loc) (fs : list (MocapFrame num)) :
  deep_frames h raw = Some fs ->
  fs <> [] ->
  (forall i f g, nth_error fs i = Some f -> nth_error fs (S i) = Some g ->
                 length (landmarks g) <= length (landmarks f)) ->
  (forall f, In f fs -> 29 <= length (landmarks f)) ->
  exists out ext sv scene tracks,
    smoothFrames raw alpha h = Some (out, h ++ ext) /\
    deep_frames (h ++ ext) out = Some sv /\
    FBX.buildScene = Normal scene /\
    FBX.buildTracks sv = Normal tracks /\
    FBX.generateFBX parse sv
    = parse scene (FBX.mkClip "MixamoMotion" (of_Z (-1)) tracks) /\
    Forall (fun t => FBX.times t = map (@timestamp num) fs) tracks.
Proof.
  intros Hdeep Hne Hcounts Hlen.
  pose proof (@smoothFrames_refines num _ alpha h raw fs Hdeep) as Href.
  destruct (smoothValues fs alpha) as [sv|] eqn:Hsv.
  - destruct Href as (out & ext & Hrun & Hfr).
    destruct (@smoothValues_shape num _ alpha fs sv Hsv) as (Hl & Hts & _).
    assert (Hsvne : sv <> []).
    { intros ->. destruct fs; [congruence|discriminate]. }
    assert (Hsvlen : forall f, In f sv -> 29 <= length (landmarks f)).
    { intros f' Hf'.
      destruct (visibilities_counts sv fs (smoothValues_visibilities alpha fs sv Hsv) f' Hf')
        as (f & Hf & ->). auto. }
    destruct (buildTracks_spec sv Hsvne Hsvlen) as (tracks & Hbuild & _ & Htimes).
    exists out, ext, sv. eexists. exists tracks.
    split; [exact Hrun|]. split; [apply (fresh_read_here Hfr)|].
    split; [reflexivity|]. split; [exact Hbuild|]. split.
    + destruct sv as [|s sv]; [congruence|].
      unfold FBX.generateFBX. cbn [cbind]. rewrite Hbuild. reflexivity.
    + rewrite <- Hts. exact Htimes.
  - exfalso. apply smoothValues_None_iff in Hsv.
    destruct Hsv as (i & f & g & Hf & Hg & Hlt).
    specialize (Hcounts i f g Hf Hg). lia.
Qed.

Lemma smoothing_then_export_witness :
  exists out ext sv tracks,
    smoothFrames 3 (dec 6 10) still_store = Some (out, still_store ++ ext) /\
    deep_frames (still_store ++ ext) out = Some sv /\
    FBX.buildTracks sv = Normal tracks.
Proof.
  destruct (@smoothing_then_export PrimFloat.float _ _ nat
              (fun _ c => Normal (length (FBX.tracks c))) (dec 6 10) still_store 3
              [still_frame; still_frame])
    as (out & ext & sv & scene & tracks & Hrun & Hread & _ & Hbuild & _).
  - vm_compute. reflexivity.
  - discriminate.
  - intros [|[|i]] f g Hf Hg; simpl in Hf, Hg.
    + injection Hf as <-. injection Hg as <-. apply le_n.
    + discriminate Hg.
    + destruct i; discriminate Hf.
  - intros f [<-|[<-|[]]]; vm_compute; lia.
  - exists out, ext, sv, tracks. auto.
Defined.

(* ================================================================= *)
(** * The processing component *)

Section Playback.
Local Open Scope Z_scope.

Lemma tick_playing (n i : Z) :
  0 < n -> 0 <= i -> MotionProcessor.tick true n i = (i + 1) mod n.
Proof.
  intros Hn Hi. unfold MotionProcessor.tick.
  rewrite (proj2 (Z.ltb_lt 0 n) Hn). cbn [andb].
  apply Z.rem_mod_nonneg; lia.
Qed.

Lemma iter_tick (n : Z) (k : nat) :
  0 < n ->
  Nat.iter k (MotionProcessor.tick true n) 0 = Z.of_nat k mod n.
Proof.
  intros Hn. induction k as [|k IH].
  - simpl. now rewrite Z.mod_0_l by lia.
  - rewrite Nat.iter_succ, IH.
    rewrite tick_playing by (auto; apply Z.mod_pos_bound; lia).
    rewrite Nat2Z.inj_succ. unfold Z.succ.
    now rewrite Zplus_mod_idemp_l.
Qed.
End Playback.

(** X20: playback never leaves the sequence.  While playing a
    non-empty sequence of [n] frames, a tick of the timer takes any
    non-negative index to a valid one: to the next frame, and from the
    last frame (or from an index past the end) back into the range;
    after [k] ticks from the start the index is [k mod n].  When not
    playing, or with no frames, the index stays as it is. *)
Theorem playback_index_in_range (n i : Z) (k : nat) :
  (0 < n)%Z -> (0 <= i)%Z ->
  (0 <= MotionProcessor.tick true n i < n)%Z /\
  ((i + 1 < n)%Z -> MotionProcessor.tick true n i = (i + 1)%Z) /\
  ((i + 1 = n)%Z -> MotionProcessor.tick true n i = 0%Z) /\
  Nat.iter k (MotionProcessor.tick true n) 0%Z = (Z.of_nat k mod n)%Z /\
  MotionProcessor.tick false n i = i /\
  MotionProcessor.tick true 0 i = i.
Proof.
  intros Hn Hi. rewrite tick_playing by assumption.
  split; [apply Z.mod_pos_bound; lia|].
  split; [intros Hlt; apply Z.mod_small; lia|].
  split; [intros ->; apply Z.mod_same; lia|].
  split; [now apply iter_tick|]. split; reflexivity.
Qed.

Lemma playback_index_in_range_witness :
  MotionProcessor.tick true 3 2 = 0%Z /\
  Nat.iter 7 (MotionProcessor.tick true 3) 0%Z = 1%Z.
Proof.
  destruct (playback_index_in_range 3 2 7) as (_ & _ & Hwrap & Hiter & _); try lia.
  split; [apply Hwrap; lia|]. rewrite Hiter. reflexivity.
Defined.

Section ExtractionFacts.
Context {num : Type} {NumOps : JSNumber num} {MathOps : JSMath num}.
Variable detectForVideo : num -> list (list (Landmark3D num)).
Variable duration : num.

Let step (currentTime : num) : num := (currentTime + MotionProcessor.interval)%js.

Let pushed (c : num) (k : nat) : list (MocapFrame num) :=
  match detectForVideo (Nat.iter k step c * of_Z 1000)%js with
  | pose :: _ => [mkFrame (Nat.iter k step c) pose]
  | [] => []
  end.

Lemma extractLoop_step (fuel : nat) (c : num) (raw : list (MocapFrame num)) :
  MotionProcessor.extractLoop detectForVideo (S fuel) duration c raw
  = if nltb c duration
    then MotionProcessor.extractLoop detectForVideo fuel duration (step c)
           (raw ++ pushed c 0)
    else Some raw.
Proof.
  cbn [MotionProcessor.extractLoop]. unfold pushed.
  change (Nat.iter 0 step c) with c.
  destruct (nltb c duration); [|reflexivity].
  destruct (detectForVideo (c * of_Z 1000)%js); [now rewrite app_nil_r|reflexivity].
Qed.

Lemma pushed_shift (c : num) (n : nat) :
  flat_map (pushed c) (seq 1 n) = flat_map (pushed (step c)) (seq 0 n).
Proof.
  rewrite <- seq_shift.
  induction (seq 0 n) as [|k ks IH]; [reflexivity|].
  cbn [map flat_map]. rewrite IH. f_equal.
  unfold pushed. now rewrite Nat.iter_succ_r.
Qed.

(** The loop from the time [c] on: it returns when, and only when, one
    of the times it reaches within its fuel fails the test. *)
Lemma extractLoop_rounds (fuel : nat) : forall (c : num) (raw out : list (MocapFrame num)),
  MotionProcessor.extractLoop detectForVideo fuel duration c raw = Some out <->
  exists rounds,
    rounds < fuel /\
    (forall k, k < rounds -> nltb (Nat.iter k step c) duration = true) /\
    nltb (Nat.iter rounds step c) duration = false /\
    out = raw ++ flat_map (pushed c) (seq 0 rounds).
Proof.
  induction fuel as [|fuel IH]; intros c raw out.
  - split; [discriminate|]. intros (rounds & Hlt & _). lia.
  - rewrite extractLoop_step. destruct (nltb c duration) eqn:Etest.
    + rewrite IH. split.
      * intros (rounds & Hlt & Hbefore & Hstop & ->).
        exists (S rounds). split; [lia|]. split; [|split].
        -- intros [|k] Hk; [exact Etest|].
           rewrite Nat.iter_succ_r. apply Hbefore. lia.
        -- now rewrite Nat.iter_succ_r.
        -- cbn [seq flat_map]. now rewrite pushed_shift, app_assoc.
      * intros (rounds & Hlt & Hbefore & Hstop & ->).
        destruct rounds as [|rounds].
        { change (Nat.iter 0 step c) with c in Hstop. congruence. }
        exists rounds. split; [lia|]. split; [|split].
        -- intros k Hk. rewrite <- Nat.iter_succ_r. apply Hbefore. lia.
        -- now rewrite <- Nat.iter_succ_r.
        -- cbn [seq flat_map]. now rewrite pushed_shift, app_assoc.
    + split.
      * intros [= <-]. exists 0. split; [lia|]. split; [intros k Hk; lia|].
        split; [exact Etest|]. now rewrite app_nil_r.
      * intros (rounds & Hlt & Hbefore & Hstop & ->).
        destruct rounds as [|rounds]; [now rewrite app_nil_r|].
        specialize (Hbefore 0 (Nat.lt_0_succ _)).
        change (Nat.iter 0 step c) with c in Hbefore. congruence.
Qed.
End ExtractionFacts.

(** X21: the seek and detect loop of [startProcessing] runs through the
    times 0, [interval], [interval + interval], ..., each the sum the
    code has accumulated so far, and ends at the first of them that is
    not below the duration: it returns exactly when there is such a
    time, and then [rawFrames] holds, in the order of the rounds, one
    frame for every earlier time at which the detector found a pose,
    stamped with that time and holding the first pose found; a time
    without a pose leaves no frame. *)
Theorem extraction_rounds
        {num : Type} {NumOps : JSNumber num} {MathOps : JSMath num}
        (detectForVideo : num -> list (list (Landmark3D num)))
        (fuel : nat) (duration : num) (rawFrames : list (MocapFrame num)) :
  MotionProcessor.extractFrames detectForVideo fuel duration = Some rawFrames <->
  exists rounds,
    rounds < fuel /\
    (forall k, k < rounds -> nltb (seekTime k) duration = true) /\
    nltb (seekTime rounds) duration = false /\
    rawFrames = flat_map (seekFrame detectForVideo) (seq 0 rounds).
Proof.
  unfold MotionProcessor.extractFrames. rewrite extractLoop_rounds. reflexivity.
Qed.

Lemma extraction_rounds_witness :
  exists rawFrames,
    MotionProcessor.extractFrames steady_detector 10 (dec 1 10) = Some rawFrames /\
    length rawFrames = 3.
Proof.
  eexists. split.
  - apply (extraction_rounds steady_detector 10 (dec 1 10)).
    exists 3. split; [lia|]. split; [|split; [vm_compute; reflexivity|reflexivity]].
    intros [|[|[|k]]] Hk; [reflexivity|reflexivity|reflexivity|lia].
  - reflexivity.
Defined.

(* ================================================================= *)
(** * The visualizer *)

Section VisualizerFacts.
Context {num : Type} {NumOps : JSNumber num}.
Variable SKELETON_CONNECTIONS : list (nat * nat).
Variable fround : num -> num.
Import ThreeVisualizer.

Let shown (lm : Landmark3D num) : Mesh num :=
  mkMesh (mkVec (- lx lm)%js (- ly lm + dec 15 10)%js (lz lm)) true.

Lemma updateJoints_length (lms : list (Landmark3D num)) : forall pts,
  length (updateJoints lms pts) = length pts.
Proof.
  induction lms as [|lm lms IH]; intros [|p pts]; simpl; auto.
Qed.

Lemma updateJoints_nth (lms : list (Landmark3D num)) : forall pts j,
  nth_error (updateJoints lms pts) j
  = match nth_error lms j, nth_error pts j with
    | Some lm, Some _ => Some (shown lm)
    | _, p => p
    end.
Proof.
  induction lms as [|lm lms IH]; intros pts j.
  - destruct j; reflexivity.
  - destruct pts as [|p pts].
    + simpl. destruct j; simpl; [reflexivity|]. now destruct (nth_error lms j).
    + destruct j as [|j]; [reflexivity|]. simpl. apply IH.
Qed.

Lemma updateLines_spec (lms : list (Landmark3D num)) (pts : list (Mesh num))
      (conns : list (nat * nat)) : forall lines_,
  (forall conn, In conn conns ->
                forall idx, idx = fst conn \/ idx = snd conn ->
                            idx < length lms -> idx < length pts) ->
  exists lines',
    updateLines fround lms pts conns lines_ = Normal lines' /\
    length lines' = length lines_ /\
    forall k line,
      nth_error lines_ k = Some line ->
      nth_error lines' k
      = match nth_error conns k with
        | Some conn =>
          match nth_error lms (fst conn), nth_error lms (snd conn),
                nth_error pts (fst conn), nth_error pts (snd conn) with
          | Some _, Some _, Some a, Some b =>
            Some (map fround [vx (position a); vy (position a); vz (position a);
                              vx (position b); vy (position b); vz (position b)])
          | _, _, _, _ => Some line
          end
        | None => Some line
        end.
Proof.
  induction conns as [|conn conns IH]; intros lines_ Hok.
  - exists lines_. simpl. repeat split; auto.
    intros k line Hk. now destruct k.
  - destruct lines_ as [|line0 lines_].
    + exists []. simpl. repeat split; auto. intros k line Hk. destruct k; discriminate.
    + cbn [updateLines].
      assert (Hline : exists line',
                 updateLine fround lms pts conn line0 = Normal line' /\
                 line' = match nth_error lms (fst conn), nth_error lms (snd conn),
                               nth_error pts (fst conn), nth_error pts (snd conn) with
                         | Some _, Some _, Some a, Some b =>
                           map fround [vx (position a); vy (position a); vz (position a);
                                       vx (position b); vy (position b); vz (position b)]
                         | _, _, _, _ => line0
                         end).
      { unfold updateLine. cbv zeta.
        destruct (nth_error lms (fst conn)) as [la|] eqn:Ea; [|eauto].
        destruct (nth_error lms (snd conn)) as [lb|] eqn:Eb; [|eauto].
        assert (Ha : fst conn < length pts).
        { apply (Hok conn (or_introl eq_refl)); auto.
          apply nth_error_Some. congruence. }
        assert (Hb : snd conn < length pts).
        { apply (Hok conn (or_introl eq_refl)); auto.
          apply nth_error_Some. congruence. }
        destruct (nth_error pts (fst conn)) as [a|] eqn:Epa;
          [|apply nth_error_None in Epa; lia].
        destruct (nth_error pts (snd conn)) as [b|] eqn:Epb;
          [|apply nth_error_None in Epb; lia].
        cbn [deref cbind]. eauto. }
      destruct Hline as (line' & -> & Hline'). cbn [cbind].
      destruct (IH lines_) as (rest & -> & Hlen & Hrest).
      { intros p Hp. apply Hok. now right. }
      cbn [cbind]. exists (line' :: rest). split; [reflexivity|].
      split; [simpl; congruence|].
      intros k line Hk. destruct k as [|k]; simpl in Hk |- *.
      * injection Hk as <-. rewrite Hline'.
        destruct (nth_error lms (fst conn)), (nth_error lms (snd conn)),
          (nth_error pts (fst conn)), (nth_error pts (snd conn)); reflexivity.
      * now apply Hrest.
Qed.
End VisualizerFacts.

(** X22: the markers follow the landmarks.  When the frame at the
    current index has no more landmarks than there are markers, the
    update does not throw; every marker that has a landmark is moved to
    [(-x, -y + 1.5, z)] and shown, and a marker whose landmark is missing
    from the frame keeps its last position and visibility.  Without a
    frame at the index nothing changes. *)
Theorem markers_follow_landmarks
        {num : Type} {NumOps : JSNumber num}
        (SKELETON_CONNECTIONS : list (nat * nat)) (fround : num -> num)
        (frames : list (MocapFrame num)) (currentFrameIndex : Z)
        (refs : ThreeVisualizer.Refs num) (frame : MocapFrame num) :
  js_index frames currentFrameIndex = Some frame ->
  length (landmarks frame) <= length (ThreeVisualizer.points refs) ->
  exists refs',
    ThreeVisualizer.updateSkeleton SKELETON_CONNECTIONS fround frames currentFrameIndex refs
    = Normal refs' /\
    length (ThreeVisualizer.points refs') = length (ThreeVisualizer.points refs) /\
    length (ThreeVisualizer.lines refs') = length (ThreeVisualizer.lines refs) /\
    (forall j lm,
        nth_error (landmarks frame) j = Some lm ->
        nth_error (ThreeVisualizer.points refs') j
        = Some (ThreeVisualizer.mkMesh
                  (mkVec (- lx lm)%js (- ly lm + dec 15 10)%js (lz lm)) true)) /\
    (forall j,
        length (landmarks frame) <= j ->
        nth_error (ThreeVisualizer.points refs') j
        = nth_error (ThreeVisualizer.points refs) j) /\
    (forall idx,
        js_index frames idx = None ->
        ThreeVisualizer.updateSkeleton SKELETON_CONNECTIONS fround frames idx refs
        = Normal refs).
Proof.
  intros Hframe Hlen. unfold ThreeVisualizer.updateSkeleton. rewrite Hframe. cbv zeta.
  destruct (updateLines_spec fround (landmarks frame)
              (ThreeVisualizer.updateJoints (landmarks frame) (ThreeVisualizer.points refs))
              SKELETON_CONNECTIONS (ThreeVisualizer.lines refs))
    as (lines' & -> & Hl & _).
  { intros conn _ idx _ Hidx. rewrite updateJoints_length. lia. }
  cbn [cbind]. eexists. split; [reflexivity|].
  cbn [ThreeVisualizer.points ThreeVisualizer.lines].
  split; [apply updateJoints_length|]. split; [exact Hl|]. split; [|split].
  - intros j lm Hj. rewrite updateJoints_nth, Hj.
    destruct (nth_error (ThreeVisualizer.points refs) j) eqn:Ep; [reflexivity|].
    apply nth_error_None in Ep.
    assert (j < length (landmarks frame)) by (apply nth_error_Some; congruence). lia.
  - intros j Hj. rewrite updateJoints_nth.
    now rewrite (proj2 (nth_error_None (landmarks frame) j) Hj).
  - intros idx Hnone. now rewrite Hnone.
Qed.

Lemma markers_follow_landmarks_witness :
  exists refs',
    ThreeVisualizer.updateSkeleton [(0, 1)] (fun x : Q => x)
      [mkFrame 0%Q [mkLandmark 1%Q 2%Q 3%Q None]] 0%Z
      (ThreeVisualizer.initialRefs [(0, 1)])
    = Normal refs' /\
    length (ThreeVisualizer.points refs') = 33.
Proof.
  destruct (@markers_follow_landmarks Q _ [(0, 1)] (fun x => x)
              [mkFrame 0%Q [mkLandmark 1%Q 2%Q 3%Q None]] 0%Z
              (ThreeVisualizer.initialRefs [(0, 1)])
              (mkFrame 0%Q [mkLandmark 1%Q 2%Q 3%Q None]))
    as (refs' & Hrun & Hlen & _).
  - reflexivity.
  - simpl. lia.
  - exists refs'. split; [exact Hrun|]. rewrite Hlen. reflexivity.
Defined.

(** X23: the lines join the markers.  Under the same condition, the
    line of a connection both of whose landmarks are in the frame gets,
    rounded to single precision, the new positions of its two markers;
    every other line is left as it was. *)
Theorem lines_join_markers
        {num : Type} {NumOps : JSNumber num}
        (SKELETON_CONNECTIONS : list (nat * nat)) (fround : num -> num)
        (frames : list (MocapFrame num)) (currentFrameIndex : Z)
        (refs : ThreeVisualizer.Refs num) (frame : MocapFrame num) :
  js_index frames currentFrameIndex = Some frame ->
  length (landmarks frame) <= length (ThreeVisualizer.points refs) ->
  exists refs',
    ThreeVisualizer.updateSkeleton SKELETON_CONNECTIONS fround frames currentFrameIndex refs
    = Normal refs' /\
    forall k line,
      nth_error (ThreeVisualizer.lines refs) k = Some line ->
      match nth_error SKELETON_CONNECTIONS k with
      | Some (idxA, idxB) =>
        match nth_error (landmarks frame) idxA, nth_error (landmarks frame) idxB with
        | Some _, Some _ =>
          exists a b,
            nth_error (ThreeVisualizer.points refs') idxA = Some a /\
            nth_error (ThreeVisualizer.points refs') idxB = Some b /\
            nth_error (ThreeVisualizer.lines refs') k
            = Some (map fround
                        [vx (ThreeVisualizer.position a); vy (ThreeVisualizer.position a);
                         vz (ThreeVisualizer.position a); vx (ThreeVisualizer.position b);
                         vy (ThreeVisualizer.position b); vz (ThreeVisualizer.position b)])
        | _, _ => nth_error (ThreeVisualizer.lines refs') k = Some line
        end
      | None => nth_error (ThreeVisualizer.lines refs') k = Some line
      end.
Proof.
  intros Hframe Hlen. unfold ThreeVisualizer.updateSkeleton. rewrite Hframe. cbv zeta.
  set (pts := ThreeVisualizer.updateJoints (landmarks frame) (ThreeVisualizer.points refs)).
  assert (Hpts : length pts = length (ThreeVisualizer.points refs))
    by apply updateJoints_length.
  destruct (updateLines_spec fround (landmarks frame) pts
              SKELETON_CONNECTIONS (ThreeVisualizer.lines refs))
    as (lines' & -> & _ & Hlines).
  { intros conn _ idx _ Hidx. lia. }
  cbn [cbind]. eexists. split; [reflexivity|].
  cbn [ThreeVisualizer.points ThreeVisualizer.lines].
  intros k line Hk. rewrite (Hlines k line Hk).
  destruct (nth_error SKELETON_CONNECTIONS k) as [[idxA idxB]|]; [|reflexivity].
  cbn [fst snd].
  destruct (nth_error (landmarks frame) idxA) as [la|] eqn:Ea; [|reflexivity].
  destruct (nth_error (landmarks frame) idxB) as [lb|] eqn:Eb; [|reflexivity].
  assert (Ha : idxA < length pts).
  { rewrite Hpts. assert (idxA < length (landmarks frame)); [|lia].
    apply nth_error_Some. congruence. }
  assert (Hb : idxB < length pts).
  { rewrite Hpts. assert (idxB < length (landmarks frame)); [|lia].
    apply nth_error_Some. congruence. }
  destruct (nth_error pts idxA) as [a|] eqn:Epa; [|apply nth_error_None in Epa; lia].
  destruct (nth_error pts idxB) as [b|] eqn:Epb; [|apply nth_error_None in Epb; lia].
  exists a, b. auto.
Qed.

Lemma lines_join_markers_witness :
  exists refs',
    ThreeVisualizer.updateSkeleton [(0, 1)] (fun x : Q => x)
      [mkFrame 0%Q [mkLandmark 1%Q 2%Q 3%Q None; mkLandmark 4%Q 5%Q 6%Q None]] 0%Z
      (ThreeVisualizer.initialRefs [(0, 1)])
    = Normal refs'.
Proof.
  destruct (@lines_join_markers Q _ [(0, 1)] (fun x => x)
              [mkFrame 0%Q [mkLandmark 1%Q 2%Q 3%Q None; mkLandmark 4%Q 5%Q 6%Q None]] 0%Z
              (ThreeVisualizer.initialRefs [(0, 1)])
              (mkFrame 0%Q [mkLandmark 1%Q 2%Q 3%Q None; mkLandmark 4%Q 5%Q 6%Q None]))
    as (refs' & Hrun & _).
  - reflexivity.
  - simpl. lia.
  - exists refs'. exact Hrun.
Defined.
